(** * Hands: synchronisation and dependency-resolution engine

    A shallow embedding of the component synchroniser (tracker, merger,
    resolver and the sync driver) together with the properties its
    specification states about it.

    Conventions of the embedding:
    - a JavaScript object used as a dictionary is an insertion-ordered
      association list with unique keys ([obj]); [Object.entries] is the
      list itself;
    - a [Set]/[Map] that is only queried with [has]/[get] is a [gset]/[gmap];
      a [Map] that is also iterated is an [obj];
    - a value that may be [null]/[undefined] is an [option];
    - a property read [o[k]] under a name that comes from the data goes
      through the prototype chain ([oread]): every object of the engine is
      a plain object, so it finds the members of [Object.prototype] under
      their names;
    - the file system is a store mapping a path to a file or a directory
      tree; every write is also appended to a log;
    - library functions whose code is not part of the repository (the MD5
      digest, [JSON.stringify], [String.prototype.localeCompare], the
      environment validator) are parameters of the development. *)

From Stdlib Require Import Strings.String Strings.Ascii.
From stdpp Require Import base option list strings gmap sorting pretty.


Set Warnings "-register-all,-clear-no-such-hyp".
Local Open Scope string_scope.
Local Open Scope list_scope.

(** ** JSON values and ordered objects *)

Module Js.

(** Insertion-ordered dictionary: [Object.entries o] is [o] itself. (The
    names used as keys are not integers, which JavaScript would list
    first.) *)
Definition obj (V : Type) : Type := list (string * V).

(** The names under which every plain object inherits a member from
    [Object.prototype] (ECMAScript, with the accessors of its Annex B). *)
Definition prototype_names : list string :=
  ["constructor"; "__defineGetter__"; "__defineSetter__"; "hasOwnProperty";
   "__lookupGetter__"; "__lookupSetter__"; "isPrototypeOf";
   "propertyIsEnumerable"; "toString"; "valueOf"; "__proto__";
   "toLocaleString"].

Section obj.
Context {V : Type}.

(** The own property [k] of [o]: what [Object.entries], [Object.keys],
    spreading and [delete] see, and what [o[k]] is for a name that is not
    one of [prototype_names]. *)
Fixpoint oget (k : string) (o : obj V) : option V :=
  match o with
  | [] => None
  | (k', v) :: o' => if String.eqb k' k then Some v else oget k o'
  end.

(** What [o[k]] finds: an own property, or the member of that name
    inherited from [Object.prototype]. The inherited members are functions
    and, under [__proto__], the prototype itself: none is [null] or falsy,
    and none has a field or a method the engine asks of its own data. *)
Inductive member : Type :=
| Own (v : V)
| Inherited (k : string).

(** [o[k]] *)
Definition oread (k : string) (o : obj V) : option member :=
  match oget k o with
  | Some v => Some (Own v)
  | None =>
      if bool_decide (k ∈ prototype_names) then Some (Inherited k) else None
  end.

(** What is left of a value read with [o[k]] once one of the fields of
    the engine's data is asked of it ([existing?.requiredBy]): an own
    property; an inherited member has no such field. *)
Definition own (m : option member) : option V :=
  m ≫= λ x, match x with Own v => Some v | Inherited _ => None end.

(** [o[k] = v]: an existing key keeps its position, a new key is
    appended. (One case is left out: under the name [__proto__], when it
    is not an own key, the assignment replaces the prototype and adds no
    key.) *)
Fixpoint oset (k : string) (v : V) (o : obj V) : obj V :=
  match o with
  | [] => [(k, v)]
  | (k', v') :: o' =>
      if String.eqb k' k then (k', v) :: o' else (k', v') :: oset k v o'
  end.

(** [delete o[k]] *)
Fixpoint odel (k : string) (o : obj V) : obj V :=
  match o with
  | [] => []
  | (k', v') :: o' =>
      if String.eqb k' k then odel k o' else (k', v') :: odel k o'
  end.

(** [{...a, ...b}] *)
Definition ospread (a b : obj V) : obj V :=
  foldl (λ acc kv, oset kv.1 kv.2 acc) a b.

(** [Object.keys(o)] *)
Definition okeys (o : obj V) : list string := o.*1.

End obj.
Arguments member V : clear implicits.
Arguments Own {V} v.
Arguments Inherited {V} k.

Inductive json : Type :=
| JNull
| JBool (b : bool)
| JNum (z : Z)
| JStr (s : string)
| JArr (items : list json)
| JObj (fields : list (string * json)).

(** The own enumerable properties copied by [{...v}]. *)
Definition spread_props (v : json) : obj json :=
  match v with
  | JObj fields => ospread [] fields
  | JArr items => imap (λ i x, (pretty i, x)) items
  | JStr s => imap (λ i c, (pretty i, JStr (String c EmptyString)))
                   (list_ascii_of_string s)
  | JNull | JBool _ | JNum _ => []
  end.

(** [typeof v === 'object'] (true of [null] and of arrays as well). *)
Definition is_object (v : json) : bool :=
  match v with
  | JNull | JArr _ | JObj _ => true
  | JBool _ | JNum _ | JStr _ => false
  end.

End Js.
Import Js.

(** ** Library functions the repository calls but does not define *)

(** [md5 s] is [crypto.createHash('md5').update(s).digest('hex')],
    [stringify] is [JSON.stringify], [localeCompare a b] is the sign of
    [a.localeCompare(b)], and [validateComponentEnvVars c] is the [isValid]
    field of the environment validator's answer for the configuration [c].
    The system clock and the user at the prompt are part of the
    surroundings as well. *)
Class Runtime : Type := {
  md5 : string → string;
  stringify : json → string;
  localeCompare : string → string → comparison;
  validateComponentEnvVars : json → bool;
  (** the value of the n-th [new Date().toISOString()] of a run *)
  clock : nat → string;
  (** the user's answer to the n-th confirmation prompt of a run *)
  confirm : nat → bool
}.

(** What sorting relies on: [localeCompare] is a total preorder, a
    consistent comparison function. It need not tell all strings apart: it
    answers 0 for distinct spellings it takes for equivalent. *)
Class LocaleOrder (R : Runtime) : Prop := {
  localeCompare_opp a b : localeCompare a b = CompOpp (localeCompare b a);
  localeCompare_trans a b c :
    localeCompare a b ≠ Gt → localeCompare b c ≠ Gt → localeCompare a c ≠ Gt
}.

(** ** The file store *)

Module Fs.

(** A file with its UTF-8 content, or a directory with its entries in the
    order [readdir] lists them. *)
Inductive node : Type :=
| File (content : string)
| Dir (entries : list (string * node)).

(** [path.join(relativePath, name)] for a [name] that [readdir] returned. *)
Definition path_join (relativePath name : string) : string :=
  if String.eqb relativePath "" then name else relativePath +:+ "/" +:+ name.

(** [path.basename(p)]: what follows the last separator. *)
Fixpoint basename_from (acc p : string) : string :=
  match p with
  | EmptyString => acc
  | String c rest =>
      if Ascii.eqb c "/"%char then basename_from "" rest
      else basename_from (acc +:+ String c EmptyString) rest
  end.

Definition basename (p : string) : string := basename_from "" p.

(** The store: every path the engine touches, mapped to what is there. *)
Abbreviation store := (gmap string node).

Definition pathExists (fs : store) (p : string) : bool :=
  bool_decide (is_Some (fs !! p)).

(** [fs.readFile(p, 'utf8')]; fails on a directory and on a missing path. *)
Definition readFile (fs : store) (p : string) : option string :=
  match fs !! p with
  | Some (File c) => Some c
  | _ => None
  end.

(** [fs.copy] of one node onto what is at the destination: a file
    overwrites a file, a directory is merged entry by entry into an existing
    directory, and [filter] (on entry names) decides what is copied at all.
    [None] is the error fs-extra raises when a directory meets a file. *)
Fixpoint copy_node (filter : string → bool) (src : node) (dst : option node)
  : option node :=
  match src with
  | File c =>
      match dst with
      | Some (Dir _) => None
      | _ => Some (File c)
      end
  | Dir es =>
      match dst with
      | Some (File _) => None
      | _ =>
          let ds := match dst with Some (Dir ds) => ds | _ => [] end in
          Dir <$>
            (fix go (es : list (string * node)) (acc : obj node)
               : option (obj node) :=
               match es with
               | [] => Some acc
               | (name, child) :: es' =>
                   if filter name then
                     match copy_node filter child (oget name acc) with
                     | Some n => go es' (oset name n acc)
                     | None => None
                     end
                   else go es' acc
               end) es ds
      end
  end.

(** What is at the path of a JSON document: nothing, bytes [readJson]
    rejects (an empty or corrupted file), or a parsed document. A parsed
    document is taken to be an object whose known fields have the types
    of the schema; [A] is the record of those fields. *)
Inductive json_file (A : Type) : Type :=
| Absent
| Unparsable
| Parsed (data : A).
Arguments Absent {A}.
Arguments Unparsable {A}.
Arguments Parsed {A} data.

End Fs.
Import Fs.

(** ** lib/tracker.js: the metadata ledger and the content hashes *)

Module Tracker.

Definition METADATA_FILE : string := ".hands-meta.json".
Definition VERSION : string := "3.0.0".

(** One tracked entry. Entries of [components] carry no [requiredBy];
    [hash] is [null] when the hash function failed; a hand-edited ledger
    may lack [installedAt] or [requiredBy], which the code defaults with
    [??]. *)
Record tracked : Type := Tracked {
  hash : option string;
  installedAt : option string;
  sourcePath : string;
  requiredBy : option (list string)
}.

(** The ledger as the engine holds it in memory: every top-level key is
    there. [extra] are top-level keys the schema does not name. *)
Record ledger : Type := Ledger {
  version : string;
  installedBy : string;
  components : obj (obj tracked);
  resolvedDeps : obj (obj tracked);
  extra : obj json
}.

(** A parsed ledger document: any top-level key may be missing. *)
Record stored : Type := Stored {
  s_version : option string;
  s_installedBy : option string;
  s_components : option (obj (obj tracked));
  s_resolvedDeps : option (obj (obj tracked));
  s_extra : obj json
}.

Abbreviation meta_file := (json_file stored).

Definition createEmptyMetadata : ledger :=
  {| version := VERSION;
     installedBy := "hands";
     components := [("skills", []); ("agents", []); ("hooks", [])];
     resolvedDeps := [("mcpServers", []); ("agents", []); ("skills", [])];
     extra := [] |}.

Definition readMetadata (f : meta_file) : ledger :=
  match f with
  | Parsed data =>
      let empty := createEmptyMetadata in
      {| version := default (version empty) (s_version data);
         installedBy := default (installedBy empty) (s_installedBy data);
         components :=
           ospread (components empty) (default [] (s_components data));
         resolvedDeps :=
           ospread (resolvedDeps empty) (default [] (s_resolvedDeps data));
         extra := s_extra data |}
  | Absent | Unparsable => createEmptyMetadata
  end.

(** [writeJson] serialises the complete in-memory ledger. *)
Definition writeMetadata (metadata : ledger) : meta_file :=
  Parsed {| s_version := Some (version metadata);
            s_installedBy := Some (installedBy metadata);
            s_components := Some (components metadata);
            s_resolvedDeps := Some (resolvedDeps metadata);
            s_extra := extra metadata |}.

Section hashes.
Context `{Runtime}.

Definition computeHash (content : json) : string :=
  md5 (match content with JStr s => s | _ => stringify content end).

Definition computeFileHash (fs : store) (filePath : string) : option string :=
  match readFile fs filePath with
  | Some content => Some (computeHash (JStr content))
  | None => None
  end.

(** An element of [files] in [computeDirectoryHash]; [content] is what
    [readFile(fullPath)] returns in the hashing loop. *)
Record scanned : Type := Scanned { relPath : string; content : string }.

(** The inner [scan]: [scan_entry] is the loop body for one entry,
    [scan] the loop over the entries of one directory. *)
Fixpoint scan_entry (relPath : string) (n : node) : list scanned :=
  match n with
  | File c => [Scanned relPath c]
  | Dir entries =>
      flat_map (λ e : string * node,
          if String.eqb e.1 "manifest.json" then []
          else scan_entry (path_join relPath e.1) e.2) entries
  end.

Definition scan (entries : list (string * node)) (relativePath : string)
  : list scanned :=
  flat_map (λ e : string * node,
      if String.eqb e.1 "manifest.json" then []
      else scan_entry (path_join relativePath e.1) e.2) entries.

(** [a.relPath.localeCompare(b.relPath) <= 0] *)
Definition relPath_le (a b : scanned) : Prop :=
  localeCompare (relPath a) (relPath b) ≠ Gt.

#[global] Instance relPath_le_dec a b : Decision (relPath_le a b).
Proof. unfold relPath_le. solve_decision. Defined.

(** Successive [hash.update(chunk)] calls digest the concatenation. *)
Definition digest_updates (chunks : list string) : string :=
  md5 (String.concat "" chunks).

Definition NUL : string := String (ascii_of_nat 0) EmptyString.

Definition hash_files (files : list scanned) : string :=
  digest_updates (map (λ f, relPath f +:+ NUL +:+ content f) files).

Definition computeDirectoryHash (fs : store) (dirPath : string)
  : option string :=
  match fs !! dirPath with
  | None => None
  | Some (File _) => computeFileHash fs dirPath
  | Some (Dir entries) =>
      let files := merge_sort relPath_le (scan entries "") in
      Some (hash_files files)
  end.

End hashes.

(** A component as the tracker sees it: [{ category, name, sourcePath }].
    The category is one of the literals of the detector and the driver
    ([skills], [agents], [hooks], [mcpServers]): a key of the schema, read
    as an own key. The name comes from a file name. *)
Definition trackInstall (category name sourcePath : string)
    (hash : option string) (now : string) (f : meta_file) : meta_file :=
  let metadata := readMetadata f in
  let comps := components metadata in
  let comps :=
    if oget category comps is None then oset category [] comps else comps in
  let comps :=
    oset category
      (oset name {| hash := hash; installedAt := Some now;
                    sourcePath := sourcePath; requiredBy := None |}
         (default [] (oget category comps))) comps in
  writeMetadata
    {| version := version metadata; installedBy := installedBy metadata;
       components := comps; resolvedDeps := resolvedDeps metadata;
       extra := extra metadata |}.

Definition trackUninstall (category name : string) (f : meta_file)
  : meta_file :=
  let metadata := readMetadata f in
  let comps := components metadata in
  let comps :=
    match oget category comps with
    | Some c => oset category (odel name c) comps
    | None => comps
    end in
  writeMetadata
    {| version := version metadata; installedBy := installedBy metadata;
       components := comps; resolvedDeps := resolvedDeps metadata;
       extra := extra metadata |}.

(** [[...new Set(xs)]]: first occurrences, in order. *)
Fixpoint dedupe (xs : list string) : list string :=
  match xs with
  | [] => []
  | x :: xs' => x :: filter (λ y, y ≠ x) (dedupe xs')
  end.

(** [existing] is only asked for its [requiredBy] and [installedAt]. *)
Definition trackDependency (category name : string) (hash : option string)
    (sourcePath : string) (requiredBy : list string) (now : string)
    (f : meta_file) : meta_file :=
  let metadata := readMetadata f in
  let deps := resolvedDeps metadata in
  let deps :=
    if oget category deps is None then oset category [] deps else deps in
  let existing := own (oget category deps ≫= oread name) in
  let existingRequiredBy := default [] (existing ≫= Tracker.requiredBy) in
  let deps :=
    oset category
      (oset name
         {| hash := hash;
            installedAt :=
              Some (default now (existing ≫= Tracker.installedAt));
            sourcePath := sourcePath;
            requiredBy := Some (dedupe (existingRequiredBy ++ requiredBy)) |}
         (default [] (oget category deps))) deps in
  writeMetadata
    {| version := version metadata; installedBy := installedBy metadata;
       components := components metadata; resolvedDeps := deps;
       extra := extra metadata |}.

Definition removeDependency (category name : string) (f : meta_file)
  : meta_file :=
  let metadata := readMetadata f in
  let deps := resolvedDeps metadata in
  let deps :=
    match oget category deps with
    | Some d => oset category (odel name d) deps
    | None => deps
    end in
  writeMetadata
    {| version := version metadata; installedBy := installedBy metadata;
       components := components metadata; resolvedDeps := deps;
       extra := extra metadata |}.

(** [metadata.components[category]?.[name]
       ?? metadata.resolvedDeps[category]?.[name] ?? null]: the lookup
    under [name] goes through the prototype, so a name of
    [prototype_names] that is not a key of the category of [components]
    finds the inherited member there, before [resolvedDeps] is looked at.
    ([category] is one of the literals the callers pass.) *)
Definition getTrackedInfo (category name : string) (f : meta_file)
  : option (member tracked) :=
  let metadata := readMetadata f in
  match oget category (components metadata) ≫= oread name with
  | Some t => Some t
  | None => oget category (resolvedDeps metadata) ≫= oread name
  end.

Definition getTrackedComponents (category : string) (f : meta_file)
  : obj tracked :=
  default [] (oget category (components (readMetadata f))).

Definition getTrackedDependencies (category : string) (f : meta_file)
  : obj tracked :=
  default [] (oget category (resolvedDeps (readMetadata f))).

Definition isTracked (category name : string) (f : meta_file) : bool :=
  bool_decide (is_Some (getTrackedInfo category name f)).

End Tracker.

(** ** lib/detector.js and lib/status.js: the component records *)

Module Detector.

Inductive ComponentType : Type := FILE_BASED | JSON_ENTRY.

Inductive Status : Type := INSTALLED | OUTDATED | AVAILABLE | MISSING_ENV.

#[global] Instance Status_eq_dec : EqDecision Status.
Proof. solve_decision. Defined.

(** The fields of [manifest.json] the engine reads. [m_mcpServers] and
    [m_skills] are [None] unless the field is an array. *)
Record manifest : Type := Manifest {
  m_mcpServers : option (list string);
  m_agent : option string;
  m_skills : option (list string)
}.

(** A detected component. [status] is filled in by the status resolver,
    [requiredBy] by the dependency resolver. *)
Record component : Type := Component {
  name : string;
  type : ComponentType;
  category : string;
  sourcePath : string;
  targetPath : string;
  targetFile : string;
  config : json;
  manifest_of : option manifest;
  status : option Status;
  requiredBy : list string
}.

Definition with_status (c : component) (s : Status) : component :=
  {| name := name c; type := type c; category := category c;
     sourcePath := sourcePath c; targetPath := targetPath c;
     targetFile := targetFile c; config := config c;
     manifest_of := manifest_of c; status := Some s;
     requiredBy := requiredBy c |}.

Definition with_requiredBy (c : component) (r : list string) : component :=
  {| name := name c; type := type c; category := category c;
     sourcePath := sourcePath c; targetPath := targetPath c;
     targetFile := targetFile c; config := config c;
     manifest_of := manifest_of c; status := status c;
     requiredBy := r |}.

End Detector.

(** ** The shared documents and the world the engine runs in *)

Module World.

(** A handler object of the event-handler registry. *)
Abbreviation handler_t := (obj json).

(** [settings.json]: the registry under [hooks], and the other keys. *)
Record settings : Type := Settings {
  hooks : option (obj (list handler_t));
  settings_rest : obj json
}.

(** [config.json]: the endpoint registry under [mcpServers]. *)
Record mcp_config : Type := McpConfig {
  mcpServers : option (obj json);
  config_rest : obj json
}.

Inductive write : Type :=
| WriteLedger
| WriteSettings
| WriteConfig
| CopyTree (src dst : string)
| RemoveTree (path : string).

#[global] Instance write_eq_dec : EqDecision write.
Proof. solve_decision. Defined.

Record world : Type := MkWorld {
  files : store;
  meta : Tracker.meta_file;
  settingsFile : json_file settings;
  configFile : json_file mcp_config;
  log : list write;
  ticks : nat;
  asked : nat
}.

(** A computation either returns or throws; the world it leaves behind is
    there in both cases. *)
Inductive outcome (A : Type) : Type :=
| Ok (a : A)
| Thrown.
Arguments Ok {A} a.
Arguments Thrown {A}.

Definition M (A : Type) : Type := world → outcome A * world.

Definition ret {A} (a : A) : M A := λ w, (Ok a, w).

Definition bind {A B} (m : M A) (k : A → M B) : M B :=
  λ w, match m w with
       | (Ok a, w') => k a w'
       | (Thrown, w') => (Thrown, w')
       end.

Definition throw {A} : M A := λ w, (Thrown, w).

Definition get {A} (f : world → A) : M A := λ w, (Ok (f w), w).

Definition modify (f : world → world) : M unit := λ w, (Ok tt, f w).

(** [for (const x of xs) acc = body(acc, x)]: a loop over [xs] that
    threads what the loop updates. *)
Fixpoint fold_each {A S} (body : S → A → M S) (acc : S) (xs : list A) : M S :=
  match xs with
  | [] => ret acc
  | x :: xs' => bind (body acc x) (λ acc', fold_each body acc' xs')
  end.

Definition set_files (fs : store) (w : world) : world :=
  {| files := fs; meta := meta w; settingsFile := settingsFile w;
     configFile := configFile w; log := log w; ticks := ticks w;
     asked := asked w |}.

Definition set_meta (m : Tracker.meta_file) (w : world) : world :=
  {| files := files w; meta := m; settingsFile := settingsFile w;
     configFile := configFile w; log := log w; ticks := ticks w;
     asked := asked w |}.

Definition set_settings (s : json_file settings) (w : world) : world :=
  {| files := files w; meta := meta w; settingsFile := s;
     configFile := configFile w; log := log w; ticks := ticks w;
     asked := asked w |}.

Definition set_config (c : json_file mcp_config) (w : world) : world :=
  {| files := files w; meta := meta w; settingsFile := settingsFile w;
     configFile := c; log := log w; ticks := ticks w; asked := asked w |}.

Definition logged (e : write) (w : world) : world :=
  {| files := files w; meta := meta w; settingsFile := settingsFile w;
     configFile := configFile w; log := log w ++ [e]; ticks := ticks w;
     asked := asked w |}.

Section surroundings.
Context `{Runtime}.

(** [new Date().toISOString()] *)
Definition now : M string :=
  λ w, (Ok (clock (ticks w)),
        {| files := files w; meta := meta w; settingsFile := settingsFile w;
           configFile := configFile w; log := log w; ticks := S (ticks w);
           asked := asked w |}).

(** [inquirer.prompt({ type: 'confirm', ... })] *)
Definition prompt : M bool :=
  λ w, (Ok (confirm (asked w)),
        {| files := files w; meta := meta w; settingsFile := settingsFile w;
           configFile := configFile w; log := log w; ticks := ticks w;
           asked := S (asked w) |}).

(** The tracker's mutations as the engine runs them: one read-modify-write
    of the ledger each. *)
Definition trackInstall (c : Detector.component) (hash : option string)
  : M unit :=
  bind now (λ t,
  modify (λ w, logged WriteLedger
    (set_meta (Tracker.trackInstall (Detector.category c) (Detector.name c)
                 (Detector.sourcePath c) hash t (meta w)) w))).

Definition trackUninstall (category name : string) : M unit :=
  modify (λ w, logged WriteLedger
    (set_meta (Tracker.trackUninstall category name (meta w)) w)).

(** The clock is read only when there is no [installedAt] to keep. *)
Definition trackDependency (category name : string) (hash : option string)
    (sourcePath : string) (requiredBy : list string) : M unit :=
  bind (get meta) (λ f,
  let existing : option Tracker.tracked :=
    own (oget category (Tracker.resolvedDeps (Tracker.readMetadata f))
           ≫= oread name) in
  bind (match existing ≫= Tracker.installedAt with
        | Some kept => ret kept
        | None => now
        end) (λ t,
  modify (λ w, logged WriteLedger
    (set_meta (Tracker.trackDependency category name hash sourcePath
                 requiredBy t (meta w)) w)))).

Definition removeDependency (category name : string) : M unit :=
  modify (λ w, logged WriteLedger
    (set_meta (Tracker.removeDependency category name (meta w)) w)).

End surroundings.

End World.
Import World.

Declare Scope hands_scope.
Delimit Scope hands_scope with hands.
Notation "x <- m ;; k" := (bind m (λ x, k))
  (at level 100, m at next level, right associativity) : hands_scope.
Notation "m ;;; k" := (bind m (λ _, k))
  (at level 100, right associativity) : hands_scope.

(** ** lib/merger.js: the two shared documents *)

Module Merger.
Local Open Scope hands_scope.

(** [readJsonFile(path, {})] on the settings document. *)
Definition readSettings (f : json_file settings) : settings :=
  match f with
  | Parsed s => s
  | Absent | Unparsable => {| hooks := None; settings_rest := [] |}
  end.

Definition readConfig (f : json_file mcp_config) : mcp_config :=
  match f with
  | Parsed c => c
  | Absent | Unparsable => {| mcpServers := None; config_rest := [] |}
  end.

Definition addMcpServer (serverName : string) (serverConfig : json)
    (f : json_file mcp_config) : json_file mcp_config :=
  let config := readConfig f in
  let servers := default [] (mcpServers config) in
  Parsed {| mcpServers := Some (oset serverName serverConfig servers);
            config_rest := config_rest config |}.

Definition removeMcpServer (serverName : string)
    (f : json_file mcp_config) : json_file mcp_config :=
  let config := readConfig f in
  Parsed {| mcpServers := odel serverName <$> mcpServers config;
            config_rest := config_rest config |}.

(** [config.mcpServers?.[serverName] ?? null] *)
Definition getMcpServer (serverName : string) (f : json_file mcp_config)
  : option (member json) :=
  mcpServers (readConfig f) ≫= oread serverName.

Definition getHooks (f : json_file settings) : obj (list handler_t) :=
  default [] (hooks (readSettings f)).

(** [h._hands === hookName] *)
Definition has_marker (hookName : string) (h : handler_t) : bool :=
  match oget "_hands" h with
  | Some (JStr owner) => String.eqb owner hookName
  | _ => false
  end.

(** [Array.prototype.findIndex], [None] for [-1]. *)
Definition findIndex {A} (p : A → bool) (l : list A) : option nat :=
  fst <$> list_find (λ x, Is_true (p x)) l.

(** [typeof handler === 'object' ? { ...handler, _hands: hookName }
                                 : { command: handler, _hands: hookName }] *)
Definition markedHandler (hookName : string) (handler : json) : handler_t :=
  if is_object handler
  then oset "_hands" (JStr hookName) (spread_props handler)
  else [("command", handler); ("_hands", JStr hookName)].

(** The body of the loop over [handlerArray]. *)
Definition merge_handler (hookName : string) (existing : list handler_t)
    (handler : json) : list handler_t :=
  let marked := markedHandler hookName handler in
  match findIndex (has_marker hookName) existing with
  | Some existingIndex => <[existingIndex := marked]> existing
  | None => existing ++ [marked]
  end.

(** [Array.isArray(handlers) ? handlers : [handlers]] *)
Definition handlerArray (handlers : json) : list json :=
  match handlers with
  | JArr items => items
  | _ => [handlers]
  end.

(** The body of the loop over [Object.entries(hookConfig)].
    [settings.hooks[eventType]] is an own list, or, under a name of
    [prototype_names] that is not a key of the registry, an inherited
    member: it is truthy, so no list is created, and it has no
    [findIndex], so the first handler of the event throws ([None]). *)
Definition merge_event (hookName : string) (registry : obj (list handler_t))
    (entry : string * json) : option (obj (list handler_t)) :=
  let '(eventType, handlers) := entry in
  let registry :=
    if oread eventType registry is None then oset eventType [] registry
    else registry in
  match oread eventType registry with
  | Some (Own existing) =>
      Some (oset eventType
              (foldl (merge_handler hookName) existing (handlerArray handlers))
              registry)
  | Some (Inherited _) | None =>
      if handlerArray handlers is [] then Some registry else None
  end.

(** The loop over [Object.entries(hookConfig)]. *)
Fixpoint merge_events (hookName : string) (registry : obj (list handler_t))
    (es : obj json) : option (obj (list handler_t)) :=
  match es with
  | [] => Some registry
  | entry :: es' =>
      registry ← merge_event hookName registry entry;
      merge_events hookName registry es'
  end.

(** [Object.entries(v)]; throws on [null]. *)
Definition entries (v : json) : option (obj json) :=
  match v with
  | JNull => None
  | _ => Some (spread_props v)
  end.

(** [mergeHook]: [None] when [Object.entries(hookConfig)] or the loop
    throws, in which case nothing is written. *)
Definition mergeHook (hookName : string) (hookConfig : json)
    (f : json_file settings) : option (json_file settings) :=
  let settings := readSettings f in
  let registry := default [] (hooks settings) in
  es ← entries hookConfig;
  registry ← merge_events hookName registry es;
  Some (Parsed {| hooks := Some registry;
                  settings_rest := settings_rest settings |}).

(** The body of the loop over [Object.keys(settings.hooks)]. *)
Definition remove_event (hookName : string) (registry : obj (list handler_t))
    (eventType : string) : obj (list handler_t) :=
  match oget eventType registry with
  | Some l =>
      let l' := filter (λ h, ¬ Is_true (has_marker hookName h)) l in
      if bool_decide (length l' = 0) then odel eventType registry
      else oset eventType l' registry
  | None => registry
  end.

(** [removeHook]: [None] when it returns before writing. *)
Definition removeHook (hookName : string) (f : json_file settings)
  : option (json_file settings) :=
  let settings := readSettings f in
  registry ← hooks settings;
  Some (Parsed {| hooks := Some (foldl (remove_event hookName) registry
                                   (okeys registry));
                  settings_rest := settings_rest settings |}).

Definition hasHook (hookName : string) (f : json_file settings) : bool :=
  existsb (λ e : string * list handler_t, existsb (has_marker hookName) e.2)
    (getHooks f).

(** *** The same operations on the world *)

Section world.
Context `{Runtime}.

Definition mergeHookW (hookName : string) (hookConfig : json) : M unit :=
  f <- get settingsFile;;
  match mergeHook hookName hookConfig f with
  | Some f' => modify (λ w, logged WriteSettings (set_settings f' w))
  | None => throw
  end.

Definition removeHookW (hookName : string) : M unit :=
  f <- get settingsFile;;
  match removeHook hookName f with
  | Some f' => modify (λ w, logged WriteSettings (set_settings f' w))
  | None => ret tt
  end.

(** The result of [syncHooks]. *)
Record hook_result : Type := HookResult {
  added : list string;
  removed : list string;
  updated : list string
}.

(** The body of the first loop of [syncHooks], threading [result]. *)
Definition sync_selected_hook (trackedHooks : obj Tracker.tracked)
    (result : hook_result) (hook : Detector.component) : M hook_result :=
  f <- get settingsFile;;
  let isNew := negb (hasHook (Detector.name hook) f) in
  let newHash := Tracker.computeHash (Detector.config hook) in
  let result :=
    if isNew then
      {| added := added result ++ [Detector.name hook];
         removed := removed result; updated := updated result |}
    else
      (* [tracked && tracked.hash !== newHash]: an inherited member is
         truthy and has no [hash] *)
      match oread (Detector.name hook) trackedHooks with
      | Some (Own tracked) =>
          if bool_decide (Tracker.hash tracked ≠ Some newHash) then
            {| added := added result; removed := removed result;
               updated := updated result ++ [Detector.name hook] |}
          else result
      | Some (Inherited _) =>
          {| added := added result; removed := removed result;
             updated := updated result ++ [Detector.name hook] |}
      | None => result
      end in
  mergeHookW (Detector.name hook) (Detector.config hook) ;;;
  trackInstall hook (Some newHash) ;;;
  ret result.

(** The body of the second loop of [syncHooks]. *)
Definition sync_tracked_hook (selectedHooks : list Detector.component)
    (result : hook_result) (hookName : string) : M hook_result :=
  if bool_decide (hookName ∈ Detector.name <$> selectedHooks) then ret result
  else
    removeHookW hookName ;;;
    trackUninstall "hooks" hookName ;;;
    ret {| added := added result;
           removed := removed result ++ [hookName];
           updated := updated result |}.

Definition syncHooks (selectedHooks : list Detector.component)
    (trackedHooks : obj Tracker.tracked) : M hook_result :=
  result <- fold_each (sync_selected_hook trackedHooks)
              {| added := []; removed := []; updated := [] |} selectedHooks;;
  fold_each (sync_tracked_hook selectedHooks) result (okeys trackedHooks).

End world.

End Merger.

(** ** lib/resolver.js: dependency resolution and orphan detection *)

Module Resolver.
Import Detector.

Definition dquote : string := String (ascii_of_nat 34) EmptyString.

(** [xs.join(sep)] *)
Definition join (sep : string) (xs : list string) : string :=
  String.concat sep xs.

Record resolution : Type := Resolution {
  mcpServers : list component;
  agents : list component;
  skills : list component;
  errors : list string;
  warnings : list string
}.

(** The variables [resolveSkill] closes over and updates. *)
Record rstate : Type := RState {
  st_errors : list string;
  st_warnings : list string;
  requiredMcpServers : obj (list string);
  requiredAgents : obj (list string);
  requiredSkills : obj (list string);
  resolved : gset string
}.

(** [new Map(xs.map(x => [x.name, x]))]: a later component of the same
    name replaces an earlier one. *)
Definition name_map (xs : list component) : gmap string component :=
  foldl (λ m x, <[name x := x]> m) ∅ xs.

(** [if (!m.has(k)) m.set(k, new Set()); m.get(k).add(v)] *)
Definition add_required (k v : string) (m : obj (list string))
  : obj (list string) :=
  let m := if oget k m is None then oset k [] m else m in
  let s := default [] (oget k m) in
  oset k (if bool_decide (v ∈ s) then s else s ++ [v]) m.

Definition warn (msg : string) (st : rstate) : rstate :=
  {| st_errors := st_errors st; st_warnings := st_warnings st ++ [msg];
     requiredMcpServers := requiredMcpServers st;
     requiredAgents := requiredAgents st;
     requiredSkills := requiredSkills st; resolved := resolved st |}.

Section resolve.
Variables (selectedSkills allSkills selectedAgents allAgents : list component).
Variable (pool_mcpServers : list component).

Definition mcpServerMap : gmap string component := name_map pool_mcpServers.
Definition agentMap : gmap string component := name_map allAgents.
Definition skillMap : gmap string component := name_map allSkills.

Definition userSelectedSkillNames : gset string :=
  list_to_set (name <$> selectedSkills).
Definition userSelectedAgentNames : gset string :=
  list_to_set (name <$> selectedAgents).

(** The loop over [manifest.mcpServers]. *)
Definition resolve_mcpServer (skill : component) (st : rstate)
    (serverName : string) : rstate :=
  if bool_decide (is_Some (mcpServerMap !! serverName)) then
    {| st_errors := st_errors st; st_warnings := st_warnings st;
       requiredMcpServers :=
         add_required serverName (name skill) (requiredMcpServers st);
       requiredAgents := requiredAgents st;
       requiredSkills := requiredSkills st; resolved := resolved st |}
  else
    warn ("Skill " +:+ dquote +:+ name skill +:+ dquote
          +:+ " requires MCP server " +:+ dquote +:+ serverName +:+ dquote
          +:+ " which is not in the dependency pool") st.

(** The [manifest.agent] block; an empty name is falsy. *)
Definition resolve_agent (skill : component) (st : rstate)
    (agentName : string) : rstate :=
  if String.eqb agentName "" then st
  else if bool_decide (is_Some (agentMap !! agentName)) then
    if bool_decide (agentName ∈ userSelectedAgentNames) then st
    else
      {| st_errors := st_errors st; st_warnings := st_warnings st;
         requiredMcpServers := requiredMcpServers st;
         requiredAgents :=
           add_required agentName (name skill) (requiredAgents st);
         requiredSkills := requiredSkills st; resolved := resolved st |}
  else
    warn ("Skill " +:+ dquote +:+ name skill +:+ dquote
          +:+ " requires agent " +:+ dquote +:+ agentName +:+ dquote
          +:+ " which is not available") st.

(** [resolveSkill(skill, chain)]. The recursion follows the manifests,
    not the structure of the data, so the depth of the call stack is
    bounded by [fuel]; [None] is a stack that would be deeper. *)
Fixpoint resolveSkill (fuel : nat) (skill : component) (chain : list string)
    (st : rstate) : option rstate :=
  match fuel with
  | O => None
  | S fuel' =>
      if bool_decide (name skill ∈ resolved st) then Some st
      else if bool_decide (name skill ∈ chain) then
        Some {| st_errors :=
                  st_errors st ++
                    ["Circular dependency: "
                     +:+ join " → " (chain ++ [name skill])];
                st_warnings := st_warnings st;
                requiredMcpServers := requiredMcpServers st;
                requiredAgents := requiredAgents st;
                requiredSkills := requiredSkills st;
                resolved := resolved st |}
      else
        let st :=
          {| st_errors := st_errors st; st_warnings := st_warnings st;
             requiredMcpServers := requiredMcpServers st;
             requiredAgents := requiredAgents st;
             requiredSkills := requiredSkills st;
             resolved := {[name skill]} ∪ resolved st |} in
        match manifest_of skill with
        | None => Some st
        | Some manifest =>
            let currentChain := chain ++ [name skill] in
            let st :=
              foldl (resolve_mcpServer skill) st
                (default [] (m_mcpServers manifest)) in
            let st :=
              match m_agent manifest with
              | Some agentName => resolve_agent skill st agentName
              | None => st
              end in
            foldl (λ (acc : option rstate) (depName : string),
                st ← acc;
                match skillMap !! depName with
                | Some dep =>
                    let st :=
                      if bool_decide (depName ∈ userSelectedSkillNames)
                      then st
                      else
                        {| st_errors := st_errors st;
                           st_warnings := st_warnings st;
                           requiredMcpServers := requiredMcpServers st;
                           requiredAgents := requiredAgents st;
                           requiredSkills :=
                             add_required depName (name skill)
                               (requiredSkills st);
                           resolved := resolved st |} in
                    resolveSkill fuel' dep currentChain st
                | None =>
                    Some (warn ("Skill " +:+ dquote +:+ name skill +:+ dquote
                                +:+ " requires skill " +:+ dquote +:+ depName
                                +:+ dquote +:+ " which is not available") st)
                end)
              (Some st) (default [] (m_skills manifest))
        end
  end.

(** [for (const [, requiredBy] of requiredSkills)]: the map is iterated
    while [resolveSkill] may still add to it, so the loop walks it by
    position; [steps] bounds the number of iterations. *)
Fixpoint resolve_required (fuel steps i : nat) (st : rstate)
  : option rstate :=
  match steps with
  | O => if requiredSkills st !! i is None then Some st else None
  | S steps' =>
      match requiredSkills st !! i with
      | None => Some st
      | Some (_, requiredBy) =>
          match head requiredBy ≫= (skillMap !!.) with
          | Some depSkill =>
              st ← resolveSkill fuel depSkill [] st;
              resolve_required fuel steps' (S i) st
          | None => resolve_required fuel steps' (S i) st
          end
      end
  end.

(** The three loops that build the result arrays. *)
Definition build (m : gmap string component) (required : obj (list string))
  : list component :=
  omap (λ e : string * list string,
          (λ c, with_requiredBy c e.2) <$> m !! e.1) required.

Definition resolveDependencies_within (fuel : nat) : option resolution :=
  let st0 :=
    {| st_errors := []; st_warnings := []; requiredMcpServers := [];
       requiredAgents := []; requiredSkills := []; resolved := ∅ |} in
  st ← foldl (λ (acc : option rstate) (skill : component),
               st ← acc; resolveSkill fuel skill [] st)
         (Some st0) selectedSkills;
  st ← resolve_required fuel (length allSkills) 0 st;
  Some {| mcpServers := build mcpServerMap (requiredMcpServers st);
          agents := build agentMap (requiredAgents st);
          skills := build skillMap (requiredSkills st);
          errors := st_errors st;
          warnings := st_warnings st |}.

(** A call stack never holds the same skill twice below its root, so this
    depth is enough (see [resolveDependencies_total]). *)
Definition resolveDependencies : option resolution :=
  resolveDependencies_within (length allSkills + 2).

End resolve.

(** The result of [findOrphans]: [{ name, ...info }] per category. *)
Record orphans : Type := Orphans {
  o_mcpServers : list (string * Tracker.tracked);
  o_agents : list (string * Tracker.tracked);
  o_skills : list (string * Tracker.tracked)
}.

(** [requiredBy.some(s => currentSkillNames.has(s))] *)
Definition stillNeeded (info : Tracker.tracked)
    (currentSkillNames : gset string) : bool :=
  existsb (λ s, bool_decide (s ∈ currentSkillNames))
    (default [] (Tracker.requiredBy info)).

Definition orphans_of (metadata : Tracker.ledger) (category : string)
    (currentSkillNames : gset string) : list (string * Tracker.tracked) :=
  filter (λ e : string * Tracker.tracked,
            ¬ Is_true (stillNeeded e.2 currentSkillNames))
    (default [] (oget category (Tracker.resolvedDeps metadata))).

Definition findOrphans (metadata : Tracker.ledger)
    (currentSkillNames : gset string) : orphans :=
  {| o_mcpServers := orphans_of metadata "mcpServers" currentSkillNames;
     o_agents := orphans_of metadata "agents" currentSkillNames;
     o_skills := orphans_of metadata "skills" currentSkillNames |}.

End Resolver.

(** ** lib/status.js: status classification *)

Module StatusResolver.
Import Detector.

Section status.
Context `{Runtime}.

(** [path.resolve(p)]: the store is keyed by the paths the engine uses,
    relative to the project it runs in. *)
Definition resolve (p : string) : string := p.

Definition hashFn (c : component) : store → string → option string :=
  if String.eqb (category c) "skills" then Tracker.computeDirectoryHash
  else Tracker.computeFileHash.

Definition getFileBasedStatus (w : world) (c : component) : Status :=
  let targetPath := resolve (targetPath c) in
  if negb (pathExists (files w) targetPath) then AVAILABLE
  else
    let sourceHash := hashFn c (files w) (sourcePath c) in
    let targetHash := hashFn c (files w) targetPath in
    if bool_decide (sourceHash = targetHash) then INSTALLED else OUTDATED.

Definition getHookStatus (w : world) (c : component) : Status :=
  if negb (validateComponentEnvVars (config c)) then MISSING_ENV
  else if negb (Merger.hasHook (name c) (settingsFile w)) then AVAILABLE
  else
    let trackedInfo := Tracker.getTrackedInfo (category c) (name c) (meta w) in
    let currentHash := Tracker.computeHash (config c) in
    (* [trackedInfo && trackedInfo.hash === currentHash] *)
    match trackedInfo with
    | Some (Own t) =>
        if bool_decide (Tracker.hash t = Some currentHash) then INSTALLED
        else OUTDATED
    | Some (Inherited _) | None => OUTDATED
    end.

Definition getComponentStatus (w : world) (c : component) : Status :=
  match type c with
  | FILE_BASED => getFileBasedStatus w c
  | JSON_ENTRY =>
      if String.eqb (category c) "hooks" then getHookStatus w c
      else getFileBasedStatus w c
  end.

End status.

End StatusResolver.

(** ** cli.js: the sync driver *)

Module Hands.
Import Detector StatusResolver.
Local Open Scope hands_scope.

(** [{ skills, agents, hooks }] *)
Record components : Type := Components {
  c_skills : list component;
  c_agents : list component;
  c_hooks : list component
}.

Record results : Type := Results {
  installed : list string;
  updated : list string;
  removed : list string;
  depsAdded : list string;
  depsRemoved : list string
}.

Definition no_results : results :=
  {| installed := []; updated := []; removed := []; depsAdded := [];
     depsRemoved := [] |}.

Definition push_installed (x : string) (r : results) : results :=
  {| installed := installed r ++ [x]; updated := updated r;
     removed := removed r; depsAdded := depsAdded r;
     depsRemoved := depsRemoved r |}.

Definition push_updated (x : string) (r : results) : results :=
  {| installed := installed r; updated := updated r ++ [x];
     removed := removed r; depsAdded := depsAdded r;
     depsRemoved := depsRemoved r |}.

Definition push_removed (x : string) (r : results) : results :=
  {| installed := installed r; updated := updated r;
     removed := removed r ++ [x]; depsAdded := depsAdded r;
     depsRemoved := depsRemoved r |}.

Definition push_depsAdded (x : string) (r : results) : results :=
  {| installed := installed r; updated := updated r;
     removed := removed r; depsAdded := depsAdded r ++ [x];
     depsRemoved := depsRemoved r |}.

Definition push_depsRemoved (x : string) (r : results) : results :=
  {| installed := installed r; updated := updated r;
     removed := removed r; depsAdded := depsAdded r;
     depsRemoved := depsRemoved r ++ [x] |}.

(** [fs.copy(src, dst, { filter })]: throws when the source is missing or
    a directory meets a file; copies nothing when the filter rejects the
    source itself. *)
Definition copy (filter : string → bool) (src dst : string) : M unit :=
  fs <- get files;;
  match fs !! src with
  | None => throw
  | Some n =>
      if negb (filter (basename src)) then ret tt
      else
        match copy_node filter n (fs !! dst) with
        | Some n' =>
            modify (λ w, logged (CopyTree src dst)
                           (set_files (<[dst := n']> (files w)) w))
        | None => throw
        end
  end.

(** [fs.remove(p)] *)
Definition remove (p : string) : M unit :=
  modify (λ w, logged (RemoveTree p) (set_files (delete p (files w)) w)).

(** [fs.ensureDir(p)]: the store holds no empty directories, so there is
    nothing to create. *)
Definition ensureDir (p : string) : M unit := ret tt.

Section driver.
Context `{Runtime}.

Definition installFileComponent (c : component) : M bool :=
  let sourcePath := sourcePath c in
  let targetPath := resolve (targetPath c) in
  fs <- get files;;
  if negb (pathExists fs sourcePath) then ret false
  else
    (if pathExists fs targetPath then
       let sourceHash := Tracker.computeFileHash fs sourcePath in
       let targetHash := Tracker.computeFileHash fs targetPath in
       if bool_decide (sourceHash ≠ targetHash) then
         let backupPath := targetPath +:+ ".local" in
         copy (λ _, true) targetPath backupPath
       else ret tt
     else ret tt) ;;;
    ensureDir targetPath ;;;
    copy (λ base, negb (String.eqb base "manifest.json"))
      sourcePath targetPath ;;;
    ret true.

Definition uninstallFileComponent (c : component) : M bool :=
  let targetPath := resolve (targetPath c) in
  fs <- get files;;
  (if pathExists fs targetPath then remove targetPath else ret tt) ;;;
  ret true.

(** The loops of [installDependencies]. *)
Definition install_mcp_dep (r : results) (mcpDep : component) : M results :=
  modify (λ w, logged WriteConfig
    (set_config (Merger.addMcpServer (name mcpDep) (config mcpDep)
                   (configFile w)) w)) ;;;
  let hash := Tracker.computeHash (config mcpDep) in
  World.trackDependency "mcpServers" (name mcpDep) (Some hash)
    (sourcePath mcpDep) (requiredBy mcpDep) ;;;
  ret (push_depsAdded (name mcpDep +:+ " (mcp)") r).

Definition install_agent_dep (r : results) (agentDep : component)
  : M results :=
  ok <- installFileComponent agentDep;;
  if ok : bool then
    fs <- get files;;
    let hash := Tracker.computeFileHash fs (sourcePath agentDep) in
    World.trackDependency "agents" (name agentDep) hash
      (sourcePath agentDep) (requiredBy agentDep) ;;;
    ret (push_depsAdded (name agentDep +:+ " (agent)") r)
  else ret r.

Definition installDependencies (resolution : Resolver.resolution)
    (r : results) : M results :=
  r <- fold_each install_mcp_dep r (Resolver.mcpServers resolution);;
  fold_each install_agent_dep r (Resolver.agents resolution).

(** [for (const depSkill of resolution.skills)] *)
Definition install_skill_dep (r : results) (depSkill : component)
  : M results :=
  ok <- installFileComponent depSkill;;
  if ok : bool then
    fs <- get files;;
    let hash := Tracker.computeDirectoryHash fs (sourcePath depSkill) in
    World.trackDependency "skills" (name depSkill) hash
      (sourcePath depSkill) (requiredBy depSkill) ;;;
    ret (push_depsAdded (name depSkill +:+ " (skill)") r)
  else ret r.

(** "Install selected": the body for one selected skill or agent. *)
Definition install_selected (r : results) (comp : component) : M results :=
  if bool_decide (status comp = Some AVAILABLE ∨ status comp = Some OUTDATED)
  then
    ok <- installFileComponent comp;;
    if ok : bool then
      fs <- get files;;
      let hash := hashFn comp fs (sourcePath comp) in
      World.trackInstall comp hash ;;;
      ret (if bool_decide (status comp = Some AVAILABLE)
           then push_installed (name comp) r
           else push_updated (name comp) r)
    else ret r
  else ret r.

(** "Remove unselected that were previously installed". *)
Definition remove_unselected (selectedNames : list string) (r : results)
    (comp : component) : M results :=
  if bool_decide ((name comp ∉ selectedNames)
                  ∧ (status comp = Some INSTALLED
                     ∨ status comp = Some OUTDATED))
  then
    uninstallFileComponent comp ;;;
    World.trackUninstall (category comp) (name comp) ;;;
    ret (push_removed (name comp) r)
  else ret r.

(** One round of the loop over [['skills', 'agents']]. *)
Definition sync_category (selected allInCategory : list component)
    (r : results) : M results :=
  r <- fold_each install_selected r selected;;
  fold_each (remove_unselected (name <$> selected)) r allInCategory.

(** The environment check in front of [syncHooks]: a hook the user
    declines is dropped from the selection. *)
Definition confirm_hook (kept : list component) (hook : component)
  : M (list component) :=
  if negb (validateComponentEnvVars (config hook)) then
    proceed <- prompt;;
    if proceed : bool then ret kept
    else ret (filter (λ h, name h ≠ name hook) kept)
  else ret kept.

(** The skills that stay installed, as [cleanupOrphans] computes them:
    the selection, then one pass over the auto-resolved skills in ledger
    order, each one added if a requirer is already in the set. *)
Definition retained (metadata : Tracker.ledger) (selectedSkills : list string)
  : gset string :=
  foldl (λ (current : gset string) (e : string * Tracker.tracked),
           if Resolver.stillNeeded e.2 current then {[e.1]} ∪ current
           else current)
    (list_to_set selectedSkills)
    (default [] (oget "skills" (Tracker.resolvedDeps metadata))).

Definition cleanup_mcp (r : results) (orphan : string * Tracker.tracked)
  : M results :=
  proceed <- prompt;;
  if proceed : bool then
    modify (λ w, logged WriteConfig
      (set_config (Merger.removeMcpServer orphan.1 (configFile w)) w)) ;;;
    World.removeDependency "mcpServers" orphan.1 ;;;
    ret (push_depsRemoved (orphan.1 +:+ " (mcp)") r)
  else ret r.

Definition cleanup_agent (r : results) (orphan : string * Tracker.tracked)
  : M results :=
  proceed <- prompt;;
  if proceed : bool then
    let targetPath := resolve (".claude/agents/" +:+ orphan.1 +:+ ".md") in
    fs <- get files;;
    (if pathExists fs targetPath then remove targetPath else ret tt) ;;;
    World.removeDependency "agents" orphan.1 ;;;
    ret (push_depsRemoved (orphan.1 +:+ " (agent)") r)
  else ret r.

Definition cleanup_skill (r : results) (orphan : string * Tracker.tracked)
  : M results :=
  proceed <- prompt;;
  if proceed : bool then
    let targetPath := resolve (".claude/skills/" +:+ orphan.1) in
    fs <- get files;;
    (if pathExists fs targetPath then remove targetPath else ret tt) ;;;
    World.removeDependency "skills" orphan.1 ;;;
    ret (push_depsRemoved (orphan.1 +:+ " (skill)") r)
  else ret r.

Definition cleanupOrphans (selectedSkills : list component) (r : results)
  : M results :=
  f <- get meta;;
  let metadata := Tracker.readMetadata f in
  let currentSkillNames := retained metadata (name <$> selectedSkills) in
  let orphans := Resolver.findOrphans metadata currentSkillNames in
  r <- fold_each cleanup_mcp r (Resolver.o_mcpServers orphans);;
  r <- fold_each cleanup_agent r (Resolver.o_agents orphans);;
  fold_each cleanup_skill r (Resolver.o_skills orphans).

Definition in_category (cat : string) (cs : list component)
  : list component :=
  filter (λ c, category c = cat) cs.

Definition syncComponents (selectedComponents : list component)
    (allComponents : components) (pool_mcpServers : list component)
  : M results :=
  let selected_skills := in_category "skills" selectedComponents in
  let selected_agents := in_category "agents" selectedComponents in
  let selected_hooks := in_category "hooks" selectedComponents in
  let results := no_results in
  match Resolver.resolveDependencies selected_skills (c_skills allComponents)
          selected_agents (c_agents allComponents) pool_mcpServers with
  | None => throw
  | Some resolution =>
      if bool_decide (0 < length (Resolver.errors resolution))
      then ret results
      else
        (* The environment check on the endpoint dependencies only changes
           the wording and the default of the prompt. *)
        let hasDeps :=
          bool_decide (0 < length (Resolver.mcpServers resolution)
                       ∨ 0 < length (Resolver.agents resolution)
                       ∨ 0 < length (Resolver.skills resolution)) in
        results <-
          (if hasDeps then
             proceed <- prompt;;
             if proceed : bool then installDependencies resolution results
             else ret results
           else ret results);;
        results <- fold_each install_skill_dep results
                     (Resolver.skills resolution);;
        results <- sync_category selected_skills (c_skills allComponents)
                     results;;
        results <- sync_category selected_agents (c_agents allComponents)
                     results;;
        results <-
          (if bool_decide (0 < length (c_hooks allComponents)) then
             hooks <- fold_each confirm_hook selected_hooks
                        selected_hooks;;
             f <- get meta;;
             let trackedHooks := Tracker.getTrackedComponents "hooks" f in
             hookResult <- Merger.syncHooks hooks trackedHooks;;
             ret {| installed := installed results ++ Merger.added hookResult;
                    updated := updated results ++ Merger.updated hookResult;
                    removed := removed results ++ Merger.removed hookResult;
                    depsAdded := depsAdded results;
                    depsRemoved := depsRemoved results |}
           else ret results);;
        cleanupOrphans selected_skills results
  end.

(** [addStatusToComponents] followed by the user's choice and the sync:
    one run of the tool in which the user ticks the components named in
    [choice]. *)
Definition addStatusToComponents (w : world) (cs : components) : components :=
  {| c_skills := (λ c, with_status c (getComponentStatus w c)) <$> c_skills cs;
     c_agents := (λ c, with_status c (getComponentStatus w c)) <$> c_agents cs;
     c_hooks := (λ c, with_status c (getComponentStatus w c)) <$> c_hooks cs |}.

Definition run (detected : components) (pool_mcpServers : list component)
    (choice : list (string * string)) : M results :=
  w <- get id;;
  let componentsWithStatus := addStatusToComponents w detected in
  let selectedComponents :=
    filter (λ c, (category c, name c) ∈ choice)
      (c_skills componentsWithStatus ++ c_agents componentsWithStatus
         ++ c_hooks componentsWithStatus) in
  syncComponents selectedComponents componentsWithStatus pool_mcpServers.

(** [displayComponentUI]: the box of an item is ticked when the list
    opens if the item is installed or outdated. *)
Definition shouldBeChecked (item : component) : bool :=
  bool_decide (status item = Some INSTALLED ∨ status item = Some OUTDATED).

(** One run of the tool in which the user accepts the list as it opens. *)
Definition run_checked (detected : components)
    (pool_mcpServers : list component) : M results :=
  w <- get id;;
  let componentsWithStatus := addStatusToComponents w detected in
  let selectedComponents :=
    filter (λ c, Is_true (shouldBeChecked c))
      (c_skills componentsWithStatus ++ c_agents componentsWithStatus
         ++ c_hooks componentsWithStatus) in
  syncComponents selectedComponents componentsWithStatus pool_mcpServers.

End driver.

End Hands.

(** ** Vocabulary of the properties *)

Module Ledger.
Import Tracker.

(** Every category of the schema is there, in both maps. *)
Definition complete (l : ledger) : Prop :=
  (∀ c, c ∈ ["skills"; "agents"; "hooks"] → is_Some (oget c (components l)))
  ∧ (∀ c, c ∈ ["mcpServers"; "agents"; "skills"] →
          is_Some (oget c (resolvedDeps l))).

(** [(category, name)] is a direct selection / an auto-resolved dependency
    of the persisted ledger. *)
Definition direct (f : meta_file) (category name : string) : Prop :=
  is_Some (oget name (getTrackedComponents category f)).

Definition auto (f : meta_file) (category name : string) : Prop :=
  is_Some (oget name (getTrackedDependencies category f)).

Definition exclusive (f : meta_file) : Prop :=
  ∀ category name, ¬ (direct f category name ∧ auto f category name).

(** The four ledger mutations with their arguments. *)
Inductive mutation : Type :=
| TrackInstall (category name sourcePath : string) (hash : option string)
    (now : string)
| TrackUninstall (category name : string)
| TrackDependency (category name : string) (hash : option string)
    (sourcePath : string) (requiredBy : list string) (now : string)
| RemoveDependency (category name : string).

Definition apply (f : meta_file) (m : mutation) : meta_file :=
  match m with
  | TrackInstall c n s h t => trackInstall c n s h t f
  | TrackUninstall c n => trackUninstall c n f
  | TrackDependency c n h s r t => trackDependency c n h s r t f
  | RemoveDependency c n => removeDependency c n f
  end.

(** The in-memory ledgers the tracker works on: distinct category keys,
    and every category of the schema. *)
Definition wf (l : ledger) : Prop :=
  NoDup (okeys (components l)) ∧ NoDup (okeys (resolvedDeps l)) ∧ complete l.

(** The entry [trackDependency] stores. *)
Definition merged_entry (existing : option tracked) (h : option string)
    (s : string) (r : list string) (t : string) : tracked :=
  {| hash := h;
     installedAt := Some (default t (existing ≫= installedAt));
     sourcePath := s;
     requiredBy :=
       Some (dedupe (default [] (existing ≫= requiredBy) ++ r)) |}.

(** A ledger document that has only a [components] map, and in it only
    the skills. *)
Definition partial_document : stored :=
  {| s_version := None; s_installedBy := None;
     s_components :=
       Some [("skills",
              [("review", Tracked (Some "9f2c") (Some "2024-05-01") "rules/.claude/skills/review" None)])];
     s_resolvedDeps := None;
     s_extra := [("note", JStr "kept")] |}.

End Ledger.

Module Registry.
Import Merger.

(** How many handlers of an event list carry the marker of [hookName]. *)
Definition marked_count (hookName : string) (l : list handler_t) : nat :=
  length (filter (λ h, Is_true (has_marker hookName h)) l).

(** Every event list of the registry holds at most one handler of
    [hookName]. *)
Definition at_most_one (hookName : string) (f : json_file settings) : Prop :=
  Forall (λ e : string * list handler_t, (marked_count hookName e.2 ≤ 1)%nat)
    (getHooks f).

(** A registry in which the hook [notify] sits second under [Stop]. *)
Definition registry_with_notify : json_file settings :=
  Parsed {| hooks :=
              Some [("Stop",
                     [[("command", JStr "lint")];
                      [("command", JStr "a"); ("_hands", JStr "notify")];
                      [("command", JStr "fmt"); ("_hands", JStr "format")]])];
            settings_rest := [] |}.

Definition notify_b : json :=
  JObj [("Stop", JObj [("command", JStr "b")])].

(** A hook whose [Stop] event lists two handlers. *)
Definition notify_twice : json :=
  JObj [("Stop", JArr [JStr "say one"; JStr "say two"])].

End Registry.

Module Tree.
Import Tracker.



(** The collation tells the files apart: no two of them have different
    relative paths that [localeCompare] reports as equal. *)
Definition told_apart `{Runtime} (l : list scanned) : Prop :=
  ∀ a b, a ∈ l → b ∈ l →
         localeCompare (relPath a) (relPath b) = Eq → relPath a = relPath b.

(** A runtime whose collation is the code-unit order of the standard
    library; the digest is left symbolic. *)
Definition plain_runtime : Runtime :=
  {| md5 := λ s, "md5(" +:+ s +:+ ")";
     stringify := λ _, "";
     localeCompare := String.compare;
     validateComponentEnvVars := λ _, true;
     clock := λ n, pretty n;
     confirm := λ _, true |}.











End Tree.

Module Resolution.
Import Resolver.

(** What [resolveSkill] keeps of the map of required skills: distinct
    keys, all of them names of available skills. *)
Definition required_ok (allSkills : list Detector.component) (st : rstate)
  : Prop :=
  NoDup (okeys (requiredSkills st))
  ∧ ∀ k, k ∈ okeys (requiredSkills st) → k ∈ dom (skillMap allSkills).

End Resolution.

Module Scenarios.
Import Detector.

(** The retained set in the spec's words: the selected skills, and every
    auto-resolved skill one of whose requirers is itself retained. *)
Inductive still_required (metadata : Tracker.ledger) (selected : list string)
  : string → Prop :=
| required_selected s :
    s ∈ selected → still_required metadata selected s
| required_dependency name info requirer :
    (name, info)
      ∈ default [] (oget "skills" (Tracker.resolvedDeps metadata)) →
    requirer ∈ default [] (Tracker.requiredBy info) →
    still_required metadata selected requirer →
    still_required metadata selected name.

(** A skill of the source tree: a directory with its [SKILL.md], and a
    manifest naming the skills and endpoints it requires. *)
Definition skill (n : string) (requiredSkills requiredServers : list string)
  : component :=
  {| name := n; type := FILE_BASED; category := "skills";
     sourcePath := "rules/.claude/skills/" +:+ n;
     targetPath := ".claude/skills/" +:+ n;
     targetFile := ""; config := JNull;
     manifest_of := Some {| m_mcpServers := Some requiredServers;
                            m_agent := None;
                            m_skills := Some requiredSkills |};
     status := None; requiredBy := [] |}.

Definition skill_source (n text : string) : string * node :=
  ("rules/.claude/skills/" +:+ n, Dir [("SKILL.md", File text)]).

Definition endpoint (n : string) : component :=
  {| name := n; type := JSON_ENTRY; category := "mcpServers";
     sourcePath := "rules/.claude/mcp-servers/" +:+ n +:+ ".json";
     targetPath := ""; targetFile := ".claude/config.json";
     config := JObj [("type", JStr "http")];
     manifest_of := None; status := None; requiredBy := [] |}.

Definition hook (n : string) (cfg : json) : component :=
  {| name := n; type := JSON_ENTRY; category := "hooks";
     sourcePath := "rules/.claude/hooks/" +:+ n +:+ ".json";
     targetPath := ""; targetFile := ".claude/settings.json";
     config := cfg; manifest_of := None; status := None; requiredBy := [] |}.

Definition agent (n : string) : component :=
  {| name := n; type := FILE_BASED; category := "agents";
     sourcePath := "rules/.claude/agents/" +:+ n +:+ ".md";
     targetPath := ".claude/agents/" +:+ n +:+ ".md";
     targetFile := ""; config := JNull;
     manifest_of := None; status := None; requiredBy := [] |}.

(** The surroundings [R] with a user who gives the same answer [b] to
    every prompt. *)
Definition answering (b : bool) (R : Runtime) : Runtime :=
  {| md5 := md5; stringify := stringify; localeCompare := localeCompare;
     validateComponentEnvVars := validateComponentEnvVars; clock := clock;
     confirm := λ _, b |}.

(** A project in which nothing is installed yet. *)
Definition fresh (sources : list (string * node)) : world :=
  {| files := list_to_map sources; meta := Absent; settingsFile := Absent;
     configFile := Absent; log := []; ticks := 0; asked := 0 |}.

(** The next run of the tool: the same disk, a new log and new prompts. *)
Definition next_run (w : world) : world :=
  {| files := files w; meta := meta w; settingsFile := settingsFile w;
     configFile := configFile w; log := []; ticks := ticks w; asked := 0 |}.

(** Two skills that require each other. *)
Definition skill_A : component := skill "A" ["B"] [].
Definition skill_B : component := skill "B" ["A"] [].

Definition cycle_world : world :=
  fresh [skill_source "A" "skill A"; skill_source "B" "skill B"].

(** A chain D1 -> D2 -> D3 of skills, the last requiring the endpoint M. *)
Definition skill_D1 : component := skill "D1" ["D2"] [].
Definition skill_D2 : component := skill "D2" ["D3"] [].
Definition skill_D3 : component := skill "D3" [] ["M"].

Definition chain_detected : Hands.components :=
  {| Hands.c_skills := [skill_D1; skill_D2; skill_D3];
     Hands.c_agents := []; Hands.c_hooks := [] |}.

Definition chain_world : world :=
  fresh [skill_source "D1" "one"; skill_source "D2" "two";
         skill_source "D3" "three"].

(** The ledger when the second run of the chain scenario reaches orphan
    cleanup: D3 was tracked in the first run, D2 in the second. *)
Definition chain_ledger : Tracker.ledger :=
  {| Tracker.version := "3.0.0"; Tracker.installedBy := "hands";
     Tracker.components :=
       [("skills",
         [("D1", Tracker.Tracked (Some "h1") (Some "t3")
                   "rules/.claude/skills/D1" None)]);
        ("agents", []); ("hooks", [])];
     Tracker.resolvedDeps :=
       [("mcpServers",
         [("M", Tracker.Tracked (Some "hm") (Some "t0")
                  "rules/.claude/mcp-servers/M.json" (Some ["D3"]))]);
        ("agents", []);
        ("skills",
         [("D3", Tracker.Tracked (Some "h3") (Some "t1")
                   "rules/.claude/skills/D3" (Some ["D2"]));
          ("D2", Tracker.Tracked (Some "h2") (Some "t2")
                   "rules/.claude/skills/D2" (Some ["D1"]))])];
     Tracker.extra := [] |}.

(** A skill whose installed copy was edited locally. *)
Definition edited_skill : component :=
  with_status (skill "review" [] []) OUTDATED.

Definition edited_world : world :=
  fresh [skill_source "review" "new text";
         (".claude/skills/review", Dir [("SKILL.md", File "local edit")])].

(** A hook with one handler. *)
Definition say_done : component :=
  hook "say-done" (JObj [("Stop", JObj [("command", JStr "say done")])]).

Definition hook_detected : Hands.components :=
  {| Hands.c_skills := []; Hands.c_agents := []; Hands.c_hooks := [say_done] |}.

(** The user ticks the hook in a fresh project, and ticks it again in the
    next run. *)
Definition hook_first_run : outcome Hands.results * world :=
  Hands.run (H:=Tree.plain_runtime) hook_detected []
    [("hooks", "say-done")] (fresh []).

Definition hook_second_run : outcome Hands.results * world :=
  Hands.run (H:=Tree.plain_runtime) hook_detected []
    [("hooks", "say-done")] (next_run hook_first_run.2).

(** A skill [deploy] whose manifest requires the skill [review]. *)
Definition skill_deploy : component := skill "deploy" ["review"] [].
Definition skill_review : component := skill "review" [] [].

Definition deploy_detected : Hands.components :=
  {| Hands.c_skills := [skill_deploy; skill_review];
     Hands.c_agents := []; Hands.c_hooks := [] |}.

Definition deploy_world : world :=
  fresh [skill_source "deploy" "Deploy the build.";
         skill_source "review" "Review the diff."].

(** The user ticks [deploy] in a fresh project, and ticks it again, and
    nothing else, in the next run. *)
Definition deploy_first_run : outcome Hands.results * world :=
  Hands.run (H:=Tree.plain_runtime) deploy_detected []
    [("skills", "deploy")] deploy_world.

Definition deploy_second_run : outcome Hands.results * world :=
  Hands.run (H:=Tree.plain_runtime) deploy_detected []
    [("skills", "deploy")] (next_run deploy_first_run.2).

(** Or else: after the first run the source of [review] is edited, and in
    the next run the user accepts the list as it opens. *)
Definition review_edited : world :=
  set_files
    (<["rules/.claude/skills/review" :=
         Dir [("SKILL.md", File "Review the diff twice.")]]>
       (files deploy_first_run.2))
    (next_run deploy_first_run.2).

Definition deploy_checked_run : outcome Hands.results * world :=
  Hands.run_checked (H:=Tree.plain_runtime) deploy_detected [] review_edited.

(** An agent of the source tree, not yet installed. *)
Definition critic : component := with_status (agent "critic") AVAILABLE.

Definition critic_world : world :=
  fresh [("rules/.claude/agents/critic.md", File "You are a critic.")].

End Scenarios.

(** The shape of every ledger the tracker holds in memory: distinct
    category keys, the categories of the schema first and in the order of
    [createEmptyMetadata]. *)
Module Shape.
Import Tracker.

Definition canonical (l : ledger) : Prop :=
  NoDup (okeys (components l))
  ∧ NoDup (okeys (resolvedDeps l))
  ∧ okeys (components createEmptyMetadata) `prefix_of` okeys (components l)
  ∧ okeys (resolvedDeps createEmptyMetadata) `prefix_of` okeys (resolvedDeps l).

End Shape.

(** What the registry holds for one hook and for the others. *)
Module Handlers.
Import Merger.

(** The handlers of an event that belong to other hooks. *)
Definition others (hookName : string) (l : list handler_t) : list handler_t :=
  filter (λ h, ¬ Is_true (has_marker hookName h)) l.

(** Some event of the registry lists a handler of the hook. *)
Definition marked_under (hookName : string) (registry : obj (list handler_t))
  : Prop :=
  ∃ e l, oget e registry = Some l ∧ existsb (has_marker hookName) l = true.

(** What [removeHook] leaves under an event: the handlers of the other
    hooks, and no event at all when there are none. *)
Definition cleaned (hookName : string) (entry : option (list handler_t))
  : option (list handler_t) :=
  match entry with
  | Some l =>
      if bool_decide (length (others hookName l) = 0%nat) then None
      else Some (others hookName l)
  | None => None
  end.

(** Under the event name [e], [settings.hooks[e]] finds a member inherited
    from [Object.prototype] and not a list of the registry. *)
Definition shadowed (registry : obj (list handler_t)) (e : string) : Prop :=
  oget e registry = None ∧ e ∈ prototype_names.

#[global] Instance shadowed_dec registry e : Decision (shadowed registry e).
Proof. unfold shadowed. apply _. Defined.

(** The configurations [mergeHook] can merge into the registry: every
    event it names that is shadowed comes without a handler. *)
Definition mergeable (registry : obj (list handler_t)) (hookConfig : json)
  : Prop :=
  ∀ e handlers,
    oget e (spread_props hookConfig) = Some handlers →
    shadowed registry e → handlerArray handlers = [].

End Handlers.

(** What the resolver's three maps of requirers hold. *)
Module Requirers.
Import Detector Resolver.

(** [requirer] is among the requirers recorded for [dependency]. *)
Definition registered (m : obj (list string)) (dependency requirer : string)
  : Prop :=
  requirer ∈ default [] (oget dependency m).

(** A map of requirers: distinct keys, all of them in [D]; every set of
    requirers non-empty, without repetition, and within [res]. *)
Definition required_inv (D res : gset string) (m : obj (list string)) : Prop :=
  NoDup (okeys m)
  ∧ ∀ k vs, oget k m = Some vs →
            k ∈ D ∧ vs ≠ [] ∧ NoDup vs ∧ ∀ v, v ∈ vs → v ∈ res.

(** Nothing recorded in [st] is missing from [st']. *)
Definition extends (st st' : rstate) : Prop :=
  (∀ d s, registered (requiredMcpServers st) d s →
          registered (requiredMcpServers st') d s)
  ∧ (∀ d s, registered (requiredAgents st) d s →
            registered (requiredAgents st') d s)
  ∧ (∀ d s, registered (requiredSkills st) d s →
            registered (requiredSkills st') d s)
  ∧ okeys (requiredSkills st) ⊆ okeys (requiredSkills st').

Section catalogue.
Variables (selectedSkills allSkills selectedAgents allAgents : list component).
Variable (pool_mcpServers : list component).

(** The three maps of [st] are as [required_inv] says, over the names the
    resolver may record. *)
Definition maps_ok (st : rstate) : Prop :=
  required_inv (dom (mcpServerMap pool_mcpServers)) (resolved st)
    (requiredMcpServers st)
  ∧ required_inv
      (dom (agentMap allAgents) ∖ userSelectedAgentNames selectedAgents)
      (resolved st) (requiredAgents st)
  ∧ required_inv
      (dom (skillMap allSkills) ∖ userSelectedSkillNames selectedSkills)
      (resolved st) (requiredSkills st).

(** Every dependency the manifest of [c] declares, and the resolver
    records, is recorded in [st] with [c] as a requirer. *)
Definition complete (st : rstate) (c : component) : Prop :=
  ∀ manifest, manifest_of c = Some manifest →
    (∀ d, d ∈ default [] (m_skills manifest) →
          is_Some (skillMap allSkills !! d) →
          d ∉ userSelectedSkillNames selectedSkills →
          registered (requiredSkills st) d (name c))
    ∧ (∀ n, n ∈ default [] (m_mcpServers manifest) →
            is_Some (mcpServerMap pool_mcpServers !! n) →
            registered (requiredMcpServers st) n (name c))
    ∧ (∀ a, m_agent manifest = Some a → a ≠ "" →
            is_Some (agentMap allAgents !! a) →
            a ∉ userSelectedAgentNames selectedAgents →
            registered (requiredAgents st) a (name c)).

(** The state when the loop over the selected skills is done. *)
Definition after_selected (fuel : nat) : option rstate :=
  foldl (λ (acc : option rstate) (skill : component),
           st ← acc;
           resolveSkill selectedSkills allSkills selectedAgents allAgents
             pool_mcpServers fuel skill [] st)
    (Some {| st_errors := []; st_warnings := []; requiredMcpServers := [];
             requiredAgents := []; requiredSkills := []; resolved := ∅ |})
    selectedSkills.

End catalogue.

End Requirers.

(** Directory trees as [readdir] and [fs.copy] see them. *)
Module Trees.
Import Tracker.

(** No directory of the tree lists a name twice. *)
Inductive unique_names : node → Prop :=
| unique_file c : unique_names (File c)
| unique_dir es :
    NoDup es.*1 →
    Forall (λ e : string * node, unique_names e.2) es →
    unique_names (Dir es).

(** What is at the destination holds nothing the source lacks: nothing
    at all, a file where the source is a file, or a directory each of
    whose entries (the reserved manifest name apart) is covered by the
    source's entry of that name. *)
Inductive covers : node → option node → Prop :=
| covers_fresh src : covers src None
| covers_file c c' : covers (File c) (Some (File c'))
| covers_dir es ds :
    NoDup ds.*1 →
    Forall (λ d : string * node,
              d.1 = "manifest.json"
              ∨ ∃ s, oget d.1 es = Some s ∧ covers s (Some d.2)) ds →
    covers (Dir es) (Some (Dir ds)).

(** The filter [installFileComponent] passes to [fs.copy]. *)
Definition not_manifest (base : string) : bool :=
  negb (String.eqb base "manifest.json").

(** A skill with a nested directory, and an installed copy of an older
    version of it: one file fewer, another with other content, and a
    manifest of its own. *)
Definition lint_skill : list (string * node) :=
  [("SKILL.md", File "Lint the diff.");
   ("manifest.json", File "{}");
   ("rules", Dir [("a.md", File "A"); ("b.md", File "B")])].

Definition lint_installed : list (string * node) :=
  [("rules", Dir [("b.md", File "old B")]);
   ("manifest.json", File "local");
   ("SKILL.md", File "Lint.")].

End Trees.

Module InstallScenarios.
Import Detector Trees Scenarios.

(** The project of [lint_skill] and [lint_installed]. *)
Definition lint : component := with_status (skill "lint" [] []) OUTDATED.

Definition lint_world : world :=
  fresh [("rules/.claude/skills/lint", Dir lint_skill);
         (".claude/skills/lint", Dir lint_installed)].

End InstallScenarios.

Module Prompts.

(** The world after [k] more prompts have been answered, and nothing
    else has happened. *)
Definition asked_more (k : nat) (w : world) : world :=
  {| files := files w; meta := meta w; settingsFile := settingsFile w;
     configFile := configFile w; log := log w; ticks := ticks w;
     asked := asked w + k |}.

(** A project whose ledger is [chain_ledger], nothing else being there. *)
Definition chain_tracked : world :=
  {| files := ∅; meta := Tracker.writeMetadata Scenarios.chain_ledger;
     settingsFile := Absent; configFile := Absent; log := []; ticks := 0;
     asked := 0 |}.

End Prompts.

(** ** lib/detector.js: finding the components of the rules directory *)

Module Detect.
Import Detector.

(** What is at [path.join(dir, name)], [dir] being the node at a path:
    nothing when [dir] is a file. *)
Definition child (dir : node) (name : string) : option node :=
  match dir with
  | Dir entries => oget name entries
  | File _ => None
  end.

(** [s.endsWith(suffix)] *)
Definition endsWith (s suffix : string) : bool :=
  (String.length suffix <=? String.length s)%nat
  && String.eqb (substring (String.length s - String.length suffix)
                   (String.length suffix) s) suffix.

(** [path.basename(name, ext)] for a [name] that [readdir] returned (it
    holds no separator): the extension is dropped when the name ends with
    it. *)
Definition basename_ext (name ext : string) : string :=
  if endsWith name ext
  then substring 0 (String.length name - String.length ext) name
  else name.

(** The inner [scan] of [getDirectoryFiles]. *)
Fixpoint files_entry (relPath : string) (n : node) : list string :=
  match n with
  | File _ => [relPath]
  | Dir entries =>
      flat_map (λ e : string * node,
                  files_entry (path_join relPath e.1) e.2) entries
  end.

(** [getDirectoryFiles(dirPath)], [dir] being what is at [dirPath];
    [None] when [readdir] throws because it is not a directory. *)
Definition getDirectoryFiles (dir : node) : option (list string) :=
  match dir with
  | Dir entries =>
      Some (flat_map (λ e : string * node, files_entry (path_join "" e.1) e.2)
              entries)
  | File _ => None
  end.

Definition getAllComponents (cs : Hands.components) : list component :=
  Hands.c_skills cs ++ Hands.c_agents cs ++ Hands.c_hooks cs.

Section detect.
(** [fs.readJson] on the content of a file: [None] when it throws.
    [readManifest] is [readJson] on a skill's manifest, read through the
    fields the engine uses; [None] stands for a manifest the engine takes
    for absent ([null], or content that does not parse). *)
Variable readJson : string → option json.
Variable readManifest : string → option manifest.

(** The body of the loop of [detectSkills]; [skillsPath] is the path of
    the directory listed. The [files] field of the record, which nothing
    reads, is [getDirectoryFiles] of the entry. *)
Definition detect_skill (skillsPath : string) (entry : string * node)
  : option component :=
  match entry.2 with
  | File _ => None
  | Dir _ =>
      if bool_decide (is_Some (child entry.2 "SKILL.md")) then
        Some {| name := entry.1; type := FILE_BASED; category := "skills";
                sourcePath := path_join skillsPath entry.1;
                targetPath := path_join (path_join ".claude" "skills") entry.1;
                targetFile := ""; config := JNull;
                manifest_of :=
                  match child entry.2 "manifest.json" with
                  | Some (File content) => readManifest content
                  | Some (Dir _) | None => None
                  end;
                status := None; requiredBy := [] |}
      else None
  end.

(** [detectSkills], [detectAgents], [detectHooks]: what each pushes, for
    the [.claude] directory [claude] at [claudePath]; [None] when
    [readdir] throws because the path holds a file. *)
Definition detectSkills (claudePath : string) (claude : node)
  : option (list component) :=
  match child claude "skills" with
  | None => Some []
  | Some (File _) => None
  | Some (Dir entries) =>
      Some (omap (detect_skill (path_join claudePath "skills")) entries)
  end.

Definition detect_agent (agentsPath : string) (entry : string * node)
  : option component :=
  match entry.2 with
  | Dir _ => None
  | File _ =>
      if endsWith entry.1 ".md" then
        Some {| name := basename_ext entry.1 ".md"; type := FILE_BASED;
                category := "agents";
                sourcePath := path_join agentsPath entry.1;
                targetPath := path_join (path_join ".claude" "agents") entry.1;
                targetFile := ""; config := JNull; manifest_of := None;
                status := None; requiredBy := [] |}
      else None
  end.

Definition detectAgents (claudePath : string) (claude : node)
  : option (list component) :=
  match child claude "agents" with
  | None => Some []
  | Some (File _) => None
  | Some (Dir entries) =>
      Some (omap (detect_agent (path_join claudePath "agents")) entries)
  end.

(** A [.json] file of a directory as a [JSON_ENTRY] component; a file
    that does not parse is skipped. *)
Definition detect_json (dirPath category targetFile : string)
    (entry : string * node) : option component :=
  match entry.2 with
  | Dir _ => None
  | File content =>
      if endsWith entry.1 ".json" then
        match readJson content with
        | Some config =>
            Some {| name := basename_ext entry.1 ".json";
                    type := JSON_ENTRY; category := category;
                    sourcePath := path_join dirPath entry.1;
                    targetPath := ""; targetFile := targetFile;
                    config := config; manifest_of := None;
                    status := None; requiredBy := [] |}
        | None => None
        end
      else None
  end.

Definition detectHooks (claudePath : string) (claude : node)
  : option (list component) :=
  match child claude "hooks" with
  | None => Some []
  | Some (File _) => None
  | Some (Dir entries) =>
      Some (omap (detect_json (path_join claudePath "hooks") "hooks"
                    (path_join ".claude" "settings.json")) entries)
  end.

(** [detectComponents(rulesPath)], [rules] being what is at
    [rulesPath]. *)
Definition detectComponents (rulesPath : string) (rules : node)
  : option Hands.components :=
  match child rules ".claude" with
  | None => Some {| Hands.c_skills := []; Hands.c_agents := [];
                    Hands.c_hooks := [] |}
  | Some claude =>
      let claudePath := path_join rulesPath ".claude" in
      skills ← detectSkills claudePath claude;
      agents ← detectAgents claudePath claude;
      hooks ← detectHooks claudePath claude;
      Some {| Hands.c_skills := skills; Hands.c_agents := agents;
              Hands.c_hooks := hooks |}
  end.

(** [detectDependencyPool(rulesPath)]: the [mcpServers] of the pool. *)
Definition detectDependencyPool (rulesPath : string) (rules : node)
  : option (list component) :=
  match child rules ".claude" ≫= (λ claude, child claude "mcp-servers") with
  | None => Some []
  | Some (File _) => None
  | Some (Dir entries) =>
      Some (omap (detect_json
                    (path_join (path_join rulesPath ".claude") "mcp-servers")
                    "mcpServers" (path_join ".claude" "config.json")) entries)
  end.

End detect.

(** A rules directory with two skills (one without its [SKILL.md]), an
    agent beside a note that is no agent, and a hook. *)
Definition sample_rules : node :=
  Dir [(".claude",
        Dir [("skills",
              Dir [("review", Dir [("SKILL.md", File "Review.");
                                   ("manifest.json", File "m")]);
                   ("draft", Dir [("notes.txt", File "todo")]);
                   ("README.md", File "about")]);
             ("agents",
              Dir [("critic.md", File "You are a critic.");
                   ("notes.txt", File "n")]);
             ("hooks", Dir [("say-done.json", File "h")])])].

End Detect.

(** ** The earlier CLI ([RulesSync]): status and installation of rule
    files *)

Module RulesSync.

(** An element of [rules]: the fields [getFileStatus] and [installFile]
    read. *)
Record rule : Type := Rule {
  key : string;
  source : string;
  target : string
}.

Inductive file_status : Type :=
| missing_source
| not_installed
| synced
| different.

Section rules.
Context `{Runtime}.

Definition getFileHash (fs : store) (filePath : string) : option string :=
  match readFile fs filePath with
  | Some content => Some (md5 content)
  | None => None
  end.

Definition getFileStatus (fs : store) (r : rule) : file_status :=
  let sourcePath := source r in
  let targetPath := StatusResolver.resolve (target r) in
  let sourceExists := pathExists fs sourcePath in
  let targetExists := pathExists fs targetPath in
  if negb sourceExists then missing_source
  else if negb targetExists then not_installed
  else
    if bool_decide (getFileHash fs sourcePath = getFileHash fs targetPath)
    then synced else different.

Definition installFile (r : rule) (force : bool) : M bool :=
  let sourcePath := source r in
  let targetPath := StatusResolver.resolve (target r) in
  bind (get files) (λ fs,
  if negb (pathExists fs sourcePath) then ret false
  else
    let targetExists := pathExists fs targetPath in
    bind (if targetExists && negb force then
            let sourceHash := getFileHash fs sourcePath in
            let targetHash := getFileHash fs targetPath in
            if bool_decide (sourceHash ≠ targetHash) then
              let backupPath := targetPath +:+ ".local" in
              Hands.copy (λ _, true) targetPath backupPath
            else ret tt
          else ret tt) (λ _,
    bind (Hands.ensureDir targetPath) (λ _,
    bind (Hands.copy (λ _, true) sourcePath targetPath) (λ _,
    ret true)))).

End rules.

(** A rule whose installed file was edited. *)
Definition cursor_rule : rule :=
  {| key := "rules"; source := "rules/.cursor/rules.md";
     target := ".cursor/rules.md" |}.

Definition cursor_world : world :=
  Scenarios.fresh [("rules/.cursor/rules.md", File "new rules");
                   (".cursor/rules.md", File "my rules")].

End RulesSync.

(** * Properties *)

(** ** Ordered objects *)

Section obj_facts.
Context {V : Type}.
Implicit Types (o : obj V) (k : string) (v : V).

Lemma oget_oset_eq k v o : oget k (oset k v o) = Some v.
Proof.
  induction o as [|[k' v'] o IH]; simpl.
  - by rewrite String.eqb_refl.
  - destruct (String.eqb k' k) eqn:E; simpl; by rewrite E.
Qed.

Lemma oget_oset_ne k k' v o : k ≠ k' → oget k' (oset k v o) = oget k' o.
Proof.
  intros Hne. induction o as [|[k0 v0] o IH]; simpl.
  - by apply String.eqb_neq in Hne as ->.
  - destruct (String.eqb k0 k) eqn:E; simpl; [|by rewrite IH].
    apply String.eqb_eq in E as ->.
    by apply String.eqb_neq in Hne as ->.
Qed.

Lemma oget_oset k k' v o :
  oget k' (oset k v o) = if decide (k = k') then Some v else oget k' o.
Proof.
  case_decide; [subst; apply oget_oset_eq | by apply oget_oset_ne].
Qed.

Lemma oget_odel_eq k o : oget k (odel k o) = None.
Proof.
  induction o as [|[k' v'] o IH]; simpl; [done|].
  destruct (String.eqb k' k) eqn:E; simpl; [done|by rewrite E].
Qed.

Lemma oget_odel_ne k k' o : k ≠ k' → oget k' (odel k o) = oget k' o.
Proof.
  intros Hne. induction o as [|[k0 v0] o IH]; simpl; [done|].
  destruct (String.eqb k0 k) eqn:E; simpl; [|by rewrite IH].
  apply String.eqb_eq in E as ->.
  by apply String.eqb_neq in Hne as ->.
Qed.

Lemma oget_Some_elem_of k v o : oget k o = Some v → (k, v) ∈ o.
Proof.
  induction o as [|[k' v'] o IH]; simpl; [done|].
  destruct (String.eqb k' k) eqn:E.
  - apply String.eqb_eq in E as ->. intros [= ->]. left.
  - intros. right. auto.
Qed.

Lemma oget_None_keys k o : oget k o = None ↔ k ∉ okeys o.
Proof.
  unfold okeys. induction o as [|[k' v'] o IH]; simpl.
  - split; [intros _; apply not_elem_of_nil|done].
  - rewrite not_elem_of_cons. destruct (String.eqb k' k) eqn:E.
    + apply String.eqb_eq in E as ->. split; [done|]. by intros [? _].
    + apply String.eqb_neq in E. rewrite IH. naive_solver.
Qed.

Lemma oget_is_Some_keys k o : is_Some (oget k o) ↔ k ∈ okeys o.
Proof.
  rewrite <-not_eq_None_Some, oget_None_keys.
  destruct (decide (k ∈ okeys o)); naive_solver.
Qed.

Lemma oget_NoDup k v o : NoDup (okeys o) → (k, v) ∈ o → oget k o = Some v.
Proof.
  unfold okeys. induction o as [|[k' v'] o IH]; simpl.
  - intros _ ?%elem_of_nil. done.
  - rewrite NoDup_cons. intros [Hk Hnd] Hin.
    apply elem_of_cons in Hin as [[= -> ->]|Hin].
    + by rewrite String.eqb_refl.
    + destruct (String.eqb k' k) eqn:E; [|by apply IH].
      apply String.eqb_eq in E as ->. destruct Hk.
      apply list_elem_of_fmap. by exists (k, v).
Qed.

Lemma okeys_oset k v o :
  okeys (oset k v o) = if decide (k ∈ okeys o) then okeys o else okeys o ++ [k].
Proof.
  unfold okeys. induction o as [|[k' v'] o IH].
  - rewrite decide_False; [done|apply not_elem_of_nil].
  - cbn [oset]. destruct (String.eqb k' k) eqn:E.
    + apply String.eqb_eq in E as ->. rewrite decide_True; [done|left].
    + apply String.eqb_neq in E. rewrite !fmap_cons, IH. cbn [fst].
      destruct (decide (k ∈ o.*1)).
      * rewrite decide_True; [done|by right].
      * rewrite decide_False; [done|]. rewrite not_elem_of_cons. naive_solver.
Qed.

Lemma NoDup_okeys_oset k v o : NoDup (okeys o) → NoDup (okeys (oset k v o)).
Proof.
  intros Hnd. rewrite okeys_oset. case_decide; [done|].
  apply NoDup_app. split_and!; [done| |apply NoDup_singleton].
  intros x Hx ->%list_elem_of_singleton. done.
Qed.

Lemma NoDup_okeys_ospread (o o' : obj V) :
  NoDup (okeys o) → NoDup (okeys (ospread o o')).
Proof.
  unfold ospread. revert o. induction o' as [|[k v] o' IH]; simpl; [done|].
  intros o Hnd. by apply IH, NoDup_okeys_oset.
Qed.

(** With distinct keys on the right, [{...a, ...b}] reads [b] first and
    [a] for the keys [b] lacks. *)
Lemma oget_ospread k (a b : obj V) :
  NoDup (okeys b) →
  oget k (ospread a b) = match oget k b with Some v => Some v | None => oget k a end.
Proof.
  unfold ospread, okeys. revert a.
  induction b as [|[k' v'] b IH]; simpl; [done|].
  intros a [Hk Hnd]%NoDup_cons. rewrite IH by done.
  destruct (String.eqb k' k) eqn:E.
  - apply String.eqb_eq in E as ->.
    assert (oget k b = None) as -> by by apply oget_None_keys.
    apply oget_oset_eq.
  - apply String.eqb_neq in E. destruct (oget k b); [done|].
    by apply oget_oset_ne.
Qed.

Lemma elem_of_oset_inv k v o x :
  x ∈ oset k v o → x = (k, v) ∨ x ∈ o.
Proof.
  induction o as [|[k' v'] o IH]; simpl.
  - intros ->%list_elem_of_singleton. by left.
  - destruct (String.eqb k' k) eqn:E.
    + apply String.eqb_eq in E as ->.
      intros [->|?]%elem_of_cons; [by left|right; by right].
    + intros [->|?]%elem_of_cons; [right; left|].
      destruct IH as [?|?]; [done|by left|right; by right].
Qed.

Lemma Forall_oset (P : string * V → Prop) k v o :
  P (k, v) → Forall P o → Forall P (oset k v o).
Proof.
  rewrite !Forall_forall. intros ? Ho x [->|?]%elem_of_oset_inv; auto.
Qed.

Lemma elem_of_odel_inv k o x : x ∈ odel k o → x ∈ o.
Proof.
  induction o as [|[k' v'] o IH]; simpl; [done|].
  destruct (String.eqb k' k).
  - intros. right. auto.
  - intros [->|?]%elem_of_cons; [left|right; auto].
Qed.

Lemma Forall_odel (P : string * V → Prop) k o :
  Forall P o → Forall P (odel k o).
Proof.
  rewrite !Forall_forall. intros Ho x ?%elem_of_odel_inv. auto.
Qed.

Lemma oset_oset k (a b : V) o : oset k a (oset k b o) = oset k a o.
Proof.
  induction o as [|[k' v'] o IH]; simpl.
  - by rewrite String.eqb_refl.
  - destruct (String.eqb k' k) eqn:E; simpl; rewrite E; [done|].
    by rewrite IH.
Qed.

(** *** Reads through the prototype *)

Lemma oread_own k o v : oget k o = Some v → oread k o = Some (Own v).
Proof. unfold oread. by intros ->. Qed.

Lemma oread_absent k o :
  oget k o = None →
  oread k o
  = if bool_decide (k ∈ prototype_names) then Some (Inherited k) else None.
Proof. unfold oread. by intros ->. Qed.

Lemma oread_plain k o : k ∉ prototype_names → oread k o = Own <$> oget k o.
Proof.
  intros Hk. unfold oread. destruct (oget k o); [done|].
  by rewrite bool_decide_false.
Qed.

Lemma oread_Own k o v : oread k o = Some (Own v) ↔ oget k o = Some v.
Proof.
  unfold oread. destruct (oget k o); [naive_solver|].
  case_bool_decide; naive_solver.
Qed.

Lemma oread_Inherited k o k' :
  oread k o = Some (Inherited k')
  ↔ oget k o = None ∧ k ∈ prototype_names ∧ k' = k.
Proof.
  unfold oread. destruct (oget k o); [naive_solver|].
  case_bool_decide; naive_solver.
Qed.

Lemma oread_None k o : oread k o = None ↔ oget k o = None ∧ k ∉ prototype_names.
Proof.
  unfold oread. destruct (oget k o); [naive_solver|].
  case_bool_decide; naive_solver.
Qed.

Lemma own_oread k (o : option (obj V)) : own (o ≫= oread k) = o ≫= oget k.
Proof.
  destruct o as [o|]; [|done]. cbn [mbind option_bind]. unfold own, oread.
  destruct (oget k o); [done|]. by case_bool_decide.
Qed.

Lemma oread_oset_eq k v o : oread k (oset k v o) = Some (Own v).
Proof. apply oread_own, oget_oset_eq. Qed.

Lemma oread_oset_ne k k' v o : k ≠ k' → oread k' (oset k v o) = oread k' o.
Proof. intros Hne. unfold oread. by rewrite oget_oset_ne. Qed.

Lemma oread_odel_eq k o :
  oread k (odel k o)
  = if bool_decide (k ∈ prototype_names) then Some (Inherited k) else None.
Proof. apply oread_absent, oget_odel_eq. Qed.

Lemma oread_odel_ne k k' o : k ≠ k' → oread k' (odel k o) = oread k' o.
Proof. intros Hne. unfold oread. by rewrite oget_odel_ne. Qed.

End obj_facts.

(** ** Loops in the world *)

Module WorldFacts.

Section loops.
Context `{Runtime}.

(** A property of the world that every loop body keeps is kept by the
    loop, whether it returns or throws. *)
Lemma fold_each_keeps {A S} (P : world → Prop) (body : S → A → M S)
    (xs : list A) :
  (∀ acc x w, x ∈ xs → P w → P (body acc x w).2) →
  ∀ acc w, P w → P (fold_each body acc xs w).2.
Proof.
  induction xs as [|x xs IH]; intros Hbody acc w Hw; [done|].
  cbn [fold_each]. unfold bind.
  pose proof (Hbody acc x w (list_elem_of_here _ _) Hw) as Hx.
  destruct (body acc x w) as [[acc'|] w']; [|done].
  apply IH; [|done]. intros. apply Hbody; [by right|done].
Qed.

End loops.

End WorldFacts.
Import WorldFacts.

(** ** The ledger *)

Module TrackerFacts.
Import Tracker Ledger.

Lemma okeys_oset_subseteq {V} k (v : V) (o : obj V) :
  okeys o ⊆ okeys (oset k v o).
Proof.
  rewrite okeys_oset. case_decide; [done|]. intros x ?. apply elem_of_app. auto.
Qed.

Lemma okeys_ospread_subseteq {V} (a b : obj V) : okeys a ⊆ okeys (ospread a b).
Proof.
  unfold ospread. revert a. induction b as [|[k v] b IH]; simpl; [done|].
  intros a. etrans; [apply (okeys_oset_subseteq k v)|apply IH].
Qed.

Lemma oget_ospread_absent {V} k (a b : obj V) :
  k ∉ okeys b → oget k (ospread a b) = oget k a.
Proof.
  unfold ospread, okeys. revert a.
  induction b as [|[k' v'] b IH]; simpl; [done|].
  intros a [Hne Hk]%not_elem_of_cons. rewrite IH by done.
  by apply oget_oset_ne.
Qed.

Lemma createEmptyMetadata_wf : wf createEmptyMetadata.
Proof.
  split_and!; [by apply (bool_decide_unpack _)..|].
  split; intros c Hc; simpl;
    repeat (apply elem_of_cons in Hc as [->|Hc]; [by eexists|]);
    by apply elem_of_nil in Hc.
Qed.

Lemma complete_mono (l l' : ledger) :
  okeys (components l) ⊆ okeys (components l') →
  okeys (resolvedDeps l) ⊆ okeys (resolvedDeps l') →
  complete l → complete l'.
Proof.
  intros H1 H2 [Hc Hd]. split; intros c ?; apply oget_is_Some_keys.
  - by apply H1, oget_is_Some_keys, Hc.
  - by apply H2, oget_is_Some_keys, Hd.
Qed.

Lemma readMetadata_wf f : wf (readMetadata f).
Proof.
  destruct f as [| |data]; [apply createEmptyMetadata_wf..|].
  destruct createEmptyMetadata_wf as (Hc & Hd & Hcomp).
  split_and!; cbn [readMetadata components resolvedDeps];
    [by apply NoDup_okeys_ospread..|].
  eapply complete_mono; [..|exact Hcomp]; apply okeys_ospread_subseteq.
Qed.

(** Reading back what was written finds every category as it was. *)
Lemma read_write_components l c :
  wf l →
  oget c (components (readMetadata (writeMetadata l))) = oget c (components l).
Proof.
  intros (Hnd & _ & Hcomp & _).
  change (components (readMetadata (writeMetadata l)))
    with (ospread (components createEmptyMetadata) (components l)).
  rewrite oget_ospread by done.
  destruct (oget c (components l)) eqn:E; [done|].
  destruct (oget c (components createEmptyMetadata)) eqn:E'; [|done].
  assert (c ∈ okeys (components createEmptyMetadata)) as Hc
    by (apply oget_is_Some_keys; eauto).
  apply Hcomp in Hc as [? Hc]. congruence.
Qed.

Lemma read_write_resolvedDeps l c :
  wf l →
  oget c (resolvedDeps (readMetadata (writeMetadata l)))
  = oget c (resolvedDeps l).
Proof.
  intros (_ & Hnd & _ & Hcomp).
  change (resolvedDeps (readMetadata (writeMetadata l)))
    with (ospread (resolvedDeps createEmptyMetadata) (resolvedDeps l)).
  rewrite oget_ospread by done.
  destruct (oget c (resolvedDeps l)) eqn:E; [done|].
  destruct (oget c (resolvedDeps createEmptyMetadata)) eqn:E'; [|done].
  assert (c ∈ okeys (resolvedDeps createEmptyMetadata)) as Hc
    by (apply oget_is_Some_keys; eauto).
  apply Hcomp in Hc as [? Hc]. congruence.
Qed.

(** [if (!m[c]) m[c] = {}; m[c] = f(m[c])] seen through [m[c'] ?? {}]. *)
Lemma get_update_category {V} (m : obj (obj V)) c c' (g : obj V → obj V) :
  let m1 := match oget c m with Some _ => m | None => oset c [] m end in
  default [] (oget c' (oset c (g (default [] (oget c m1))) m1))
  = if decide (c = c') then g (default [] (oget c m))
    else default [] (oget c' m).
Proof.
  simpl. rewrite oget_oset. case_decide as Hc.
  - simpl. destruct (oget c m) eqn:E; [by rewrite E|].
    by rewrite oget_oset_eq.
  - destruct (oget c m) eqn:E; [done|]. by rewrite oget_oset_ne.
Qed.

Lemma get_delete_category {V} (m : obj (obj V)) c c' n :
  default [] (oget c' (match oget c m with
                       | Some d => oset c (odel n d) m
                       | None => m
                       end))
  = if decide (c = c') then odel n (default [] (oget c m))
    else default [] (oget c' m).
Proof.
  destruct (oget c m) eqn:E.
  - rewrite oget_oset. case_decide; [done|done].
  - case_decide; [by subst; rewrite E|done].
Qed.

Lemma okeys_update_category {V} (m : obj (obj V)) c (x : obj V) :
  let m1 := match oget c m with Some _ => m | None => oset c [] m end in
  okeys m ⊆ okeys (oset c x m1) ∧ (NoDup (okeys m) → NoDup (okeys (oset c x m1))).
Proof.
  simpl. split.
  - etrans; [|apply okeys_oset_subseteq].
    destruct (oget c m); [done|apply okeys_oset_subseteq].
  - intros. apply NoDup_okeys_oset.
    destruct (oget c m); [done|by apply NoDup_okeys_oset].
Qed.

Lemma okeys_delete_category {V} (m : obj (obj V)) c n :
  let m1 := match oget c m with
            | Some d => oset c (odel n d) m
            | None => m
            end in
  okeys m ⊆ okeys m1 ∧ (NoDup (okeys m) → NoDup (okeys m1)).
Proof.
  simpl. destruct (oget c m); [|done]. split.
  - apply okeys_oset_subseteq.
  - apply NoDup_okeys_oset.
Qed.

(** *** What each mutation does to the two maps *)

Lemma components_trackInstall c n s h t f c' :
  getTrackedComponents c' (trackInstall c n s h t f)
  = if decide (c = c')
    then oset n (Tracked h (Some t) s None) (getTrackedComponents c f)
    else getTrackedComponents c' f.
Proof.
  unfold getTrackedComponents, trackInstall.
  destruct (readMetadata_wf f) as (Hc & Hd & Hcomp).
  destruct (okeys_update_category (components (readMetadata f)) c
    (oset n (Tracked h (Some t) s None)
       (default [] (oget c (match oget c (components (readMetadata f)) with
                            | Some _ => components (readMetadata f)
                            | None => oset c [] (components (readMetadata f))
                            end))))) as [Hsub Hnd].
  rewrite read_write_components.
  - apply (get_update_category _ c c'
      (oset n (Tracked h (Some t) s None))).
  - split_and!; simpl; [by apply Hnd|done|].
    eapply complete_mono; [..|exact Hcomp]; simpl; [exact Hsub|done].
Qed.

Lemma resolvedDeps_trackInstall c n s h t f c' :
  getTrackedDependencies c' (trackInstall c n s h t f)
  = getTrackedDependencies c' f.
Proof.
  unfold getTrackedDependencies, trackInstall.
  destruct (readMetadata_wf f) as (Hc & Hd & Hcomp).
  destruct (okeys_update_category (components (readMetadata f)) c
    (oset n (Tracked h (Some t) s None)
       (default [] (oget c (match oget c (components (readMetadata f)) with
                            | Some _ => components (readMetadata f)
                            | None => oset c [] (components (readMetadata f))
                            end))))) as [Hsub Hnd].
  rewrite read_write_resolvedDeps; [done|].
  split_and!; simpl; [by apply Hnd|done|].
  eapply complete_mono; [..|exact Hcomp]; simpl; [exact Hsub|done].
Qed.

Lemma components_trackUninstall c n f c' :
  getTrackedComponents c' (trackUninstall c n f)
  = if decide (c = c') then odel n (getTrackedComponents c f)
    else getTrackedComponents c' f.
Proof.
  unfold getTrackedComponents, trackUninstall.
  destruct (readMetadata_wf f) as (Hc & Hd & Hcomp).
  destruct (okeys_delete_category (components (readMetadata f)) c n)
    as [Hsub Hnd].
  rewrite read_write_components; [apply get_delete_category|].
  split_and!; simpl; [by apply Hnd|done|].
  eapply complete_mono; [..|exact Hcomp]; simpl; [exact Hsub|done].
Qed.

Lemma resolvedDeps_trackUninstall c n f c' :
  getTrackedDependencies c' (trackUninstall c n f)
  = getTrackedDependencies c' f.
Proof.
  unfold getTrackedDependencies, trackUninstall.
  destruct (readMetadata_wf f) as (Hc & Hd & Hcomp).
  destruct (okeys_delete_category (components (readMetadata f)) c n)
    as [Hsub Hnd].
  rewrite read_write_resolvedDeps; [done|].
  split_and!; simpl; [by apply Hnd|done|].
  eapply complete_mono; [..|exact Hcomp]; simpl; [exact Hsub|done].
Qed.

Lemma resolvedDeps_trackDependency c n h s r t f c' :
  getTrackedDependencies c' (trackDependency c n h s r t f)
  = if decide (c = c')
    then oset n (merged_entry (oget n (getTrackedDependencies c f)) h s r t)
           (getTrackedDependencies c f)
    else getTrackedDependencies c' f.
Proof.
  unfold getTrackedDependencies, trackDependency. rewrite own_oread.
  destruct (readMetadata_wf f) as (Hc & Hd & Hcomp).
  set (deps := resolvedDeps (readMetadata f)) in *.
  set (deps1 := match oget c deps with Some _ => deps | None => oset c [] deps end).
  assert (oget c deps1 ≫= oget n = oget n (default [] (oget c deps))) as Hex.
  { unfold deps1. destruct (oget c deps) eqn:E; [by rewrite E|].
    by rewrite oget_oset_eq. }
  rewrite Hex.
  set (e := Tracked _ _ _ _).
  destruct (okeys_update_category deps c
    (oset n e (default [] (oget c deps1)))) as [Hsub Hnd].
  rewrite read_write_resolvedDeps.
  - apply (get_update_category deps c c' (oset n e)).
  - split_and!; simpl; [done|by apply Hnd|].
    eapply complete_mono; [..|exact Hcomp]; simpl; [done|exact Hsub].
Qed.

Lemma components_trackDependency c n h s r t f c' :
  getTrackedComponents c' (trackDependency c n h s r t f)
  = getTrackedComponents c' f.
Proof.
  unfold getTrackedComponents, trackDependency.
  destruct (readMetadata_wf f) as (Hc & Hd & Hcomp).
  set (deps := resolvedDeps (readMetadata f)) in *.
  set (deps1 := match oget c deps with Some _ => deps | None => oset c [] deps end).
  set (e := Tracked _ _ _ _).
  destruct (okeys_update_category deps c
    (oset n e (default [] (oget c deps1)))) as [Hsub Hnd].
  rewrite read_write_components; [done|].
  split_and!; simpl; [done|by apply Hnd|].
  eapply complete_mono; [..|exact Hcomp]; simpl; [done|exact Hsub].
Qed.

Lemma resolvedDeps_removeDependency c n f c' :
  getTrackedDependencies c' (removeDependency c n f)
  = if decide (c = c') then odel n (getTrackedDependencies c f)
    else getTrackedDependencies c' f.
Proof.
  unfold getTrackedDependencies, removeDependency.
  destruct (readMetadata_wf f) as (Hc & Hd & Hcomp).
  destruct (okeys_delete_category (resolvedDeps (readMetadata f)) c n)
    as [Hsub Hnd].
  rewrite read_write_resolvedDeps; [apply get_delete_category|].
  split_and!; simpl; [done|by apply Hnd|].
  eapply complete_mono; [..|exact Hcomp]; simpl; [done|exact Hsub].
Qed.

Lemma components_removeDependency c n f c' :
  getTrackedComponents c' (removeDependency c n f)
  = getTrackedComponents c' f.
Proof.
  unfold getTrackedComponents, removeDependency.
  destruct (readMetadata_wf f) as (Hc & Hd & Hcomp).
  destruct (okeys_delete_category (resolvedDeps (readMetadata f)) c n)
    as [Hsub Hnd].
  rewrite read_write_components; [done|].
  split_and!; simpl; [done|by apply Hnd|].
  eapply complete_mono; [..|exact Hcomp]; simpl; [done|exact Hsub].
Qed.

End TrackerFacts.

Module LedgerTheorems.
Import Tracker Ledger TrackerFacts.

(** C7. [readMetadata] returns a structurally complete ledger whatever is
    at the ledger's path: every category of the schema is present in both
    maps; a missing or unparsable file reads as the schema default; and for
    a parsed document every key it has is kept (top-level fields, unknown
    top-level keys, and each category of a sub-map with distinct keys),
    while every key it lacks takes the default's value. *)
Theorem readMetadata_complete (f : meta_file) :
  complete (readMetadata f)
  ∧ (f = Absent ∨ f = Unparsable → readMetadata f = createEmptyMetadata)
  ∧ ∀ data, f = Parsed data →
      let l := readMetadata f in
      let empty := createEmptyMetadata in
      (* what the file has is kept *)
      (∀ v, s_version data = Some v → version l = v)
      ∧ (∀ v, s_installedBy data = Some v → installedBy l = v)
      ∧ extra l = s_extra data
      ∧ (∀ cs c m, s_components data = Some cs → NoDup (okeys cs) →
           oget c cs = Some m → oget c (components l) = Some m)
      ∧ (∀ ds c m, s_resolvedDeps data = Some ds → NoDup (okeys ds) →
           oget c ds = Some m → oget c (resolvedDeps l) = Some m)
      (* what the file lacks is back-filled *)
      ∧ (s_version data = None → version l = version empty)
      ∧ (s_installedBy data = None → installedBy l = installedBy empty)
      ∧ (∀ c, oget c (default [] (s_components data)) = None →
           oget c (components l) = oget c (components empty))
      ∧ (∀ c, oget c (default [] (s_resolvedDeps data)) = None →
           oget c (resolvedDeps l) = oget c (resolvedDeps empty)).
Proof.
  split; [apply readMetadata_wf|]. split.
  { by intros [-> | ->]. }
  intros data ->. cbn [readMetadata version installedBy extra components
                        resolvedDeps].
  split_and!.
  - by intros v ->.
  - by intros v ->.
  - done.
  - intros cs c m -> Hnd Hc. cbn [default from_option id].
    rewrite oget_ospread by done. by rewrite Hc.
  - intros ds c m -> Hnd Hc. cbn [default from_option id].
    rewrite oget_ospread by done. by rewrite Hc.
  - by intros ->.
  - by intros ->.
  - intros c Hc. by apply oget_ospread_absent, oget_None_keys.
  - intros c Hc. by apply oget_ospread_absent, oget_None_keys.
Qed.

Lemma readMetadata_complete_witness :
  oget "skills" (components (readMetadata (Parsed partial_document)))
  = Some [("review", Tracked (Some "9f2c") (Some "2024-05-01")
                       "rules/.claude/skills/review" None)]
  ∧ oget "hooks" (components (readMetadata (Parsed partial_document)))
    = Some []
  ∧ readMetadata (Unparsable : meta_file) = createEmptyMetadata.
Proof.
  destruct (readMetadata_complete (Parsed partial_document))
    as (_ & _ & Hparsed).
  destruct (Hparsed partial_document eq_refl)
    as (_ & _ & _ & Hkept & _ & _ & _ & Hfill & _).
  split; [|split].
  - eapply Hkept; [reflexivity| |reflexivity].
    apply NoDup_singleton.
  - rewrite Hfill; reflexivity.
  - destruct (readMetadata_complete (Unparsable : meta_file)) as (_ & Hd & _).
    apply Hd. by right.
Defined.


(** *** The empty ledger *)

Lemma getTrackedComponents_Absent c : getTrackedComponents c Absent = [].
Proof.
  unfold getTrackedComponents.
  change (components (readMetadata Absent))
    with [("skills", []); ("agents", []); ("hooks", [] : obj tracked)].
  cbn [oget]. by repeat case_match.
Qed.


(** *** Accumulation of [requiredBy] *)





Section world_facts.
Context `{Runtime}.








End world_facts.


End LedgerTheorems.

(** ** The event-handler registry *)

Module MergerFacts.
Import Merger Registry Handlers.
Local Open Scope nat_scope.

Lemma findIndex_Some_split {A} (p : A → bool) l i :
  findIndex p l = Some i →
  ∃ l1 x l2, l = l1 ++ x :: l2 ∧ length l1 = i ∧ p x = true
             ∧ Forall (λ y, ¬ Is_true (p y)) l1.
Proof.
  unfold findIndex. destruct (list_find _ l) as [[j x]|] eqn:E; [|done].
  intros [= ->]. apply list_find_Some in E as (Hx & Hp & Hbefore).
  exists (take i l), x, (drop (S i) l). split_and!.
  - by rewrite take_drop_middle.
  - apply length_take_le. apply lookup_lt_Some in Hx. lia.
  - by apply Is_true_true.
  - apply Forall_forall. intros y Hy.
    apply list_elem_of_lookup in Hy as [j Hj].
    pose proof (lookup_lt_Some _ _ _ Hj) as Hlt.
    rewrite lookup_take_lt in Hj by (rewrite length_take in Hlt; lia).
    eapply Hbefore; [done|]. rewrite length_take in Hlt. lia.
Qed.

Lemma findIndex_split {A} (p : A → bool) l1 x l2 :
  Forall (λ y, ¬ Is_true (p y)) l1 → p x = true →
  findIndex p (l1 ++ x :: l2) = Some (length l1).
Proof.
  intros Hl1 Hx. unfold findIndex.
  destruct (list_find _ (l1 ++ x :: l2)) as [[j y]|] eqn:E.
  - apply list_find_Some in E as (Hy & Hp & Hbefore). cbn. f_equal.
    destruct (Nat.lt_total j (length l1)) as [Hlt|[->|Hgt]]; [|done|].
    + rewrite lookup_app_l in Hy by done.
      rewrite Forall_forall in Hl1. destruct (Hl1 y); [|done].
      by eapply list_elem_of_lookup_2.
    + destruct (Hbefore (length l1) x); [|done|by apply Is_true_true].
      by rewrite list_lookup_middle.
  - apply list_find_None in E. rewrite Forall_app, Forall_cons in E.
    destruct E as (_ & Hnx & _). destruct Hnx. by apply Is_true_true.
Qed.

Lemma findIndex_None {A} (p : A → bool) l :
  findIndex p l = None ↔ Forall (λ y, ¬ Is_true (p y)) l.
Proof.
  unfold findIndex. destruct (list_find _ l) as [[j x]|] eqn:E; cbn.
  - split; [done|]. intros Hall.
    apply list_find_Some in E as (Hx & Hp & _).
    rewrite Forall_forall in Hall.
    destruct (Hall x); [by eapply list_elem_of_lookup_2|done].
  - split; [|done]. intros _. by apply list_find_None in E.
Qed.

(** A marked handler carries the marker of its hook and of no other. *)
Lemma has_marker_markedHandler hookName owner handler :
  has_marker hookName (markedHandler owner handler)
  = String.eqb owner hookName.
Proof.
  unfold has_marker, markedHandler. destruct (is_object handler).
  - by rewrite oget_oset_eq.
  - done.
Qed.

Lemma has_marker_markedHandler_same hookName handler :
  has_marker hookName (markedHandler hookName handler) = true.
Proof. rewrite has_marker_markedHandler. apply String.eqb_refl. Qed.

(** Two markers on one handler name the same hook. *)
Lemma has_marker_agree hookName owner h :
  has_marker hookName h = true → has_marker owner h = true → hookName = owner.
Proof.
  unfold has_marker. destruct (oget "_hands" h) as [[]|]; try done.
  intros ?%String.eqb_eq ?%String.eqb_eq. congruence.
Qed.

Lemma marked_count_app hookName l1 l2 :
  marked_count hookName (l1 ++ l2)
  = marked_count hookName l1 + marked_count hookName l2.
Proof. unfold marked_count. by rewrite filter_app, length_app. Qed.

Lemma marked_count_cons hookName h l :
  marked_count hookName (h :: l)
  = (if has_marker hookName h then 1 else 0) + marked_count hookName l.
Proof.
  unfold marked_count. rewrite filter_cons.
  destruct (has_marker hookName h); by case_decide.
Qed.

Lemma marked_count_none hookName l :
  Forall (λ y, ¬ Is_true (has_marker hookName y)) l →
  marked_count hookName l = 0.
Proof.
  induction 1 as [|h l Hh _ IH]; [done|].
  rewrite marked_count_cons, IH. by destruct (has_marker hookName h).
Qed.

(** *** One handler *)

Lemma merge_handler_found hookName l1 x l2 handler :
  Forall (λ y, ¬ Is_true (has_marker hookName y)) l1 →
  has_marker hookName x = true →
  merge_handler hookName (l1 ++ x :: l2) handler
  = l1 ++ markedHandler hookName handler :: l2.
Proof.
  intros Hl1 Hx. unfold merge_handler. rewrite findIndex_split by done.
  rewrite insert_app_r_alt by done. by rewrite Nat.sub_diag.
Qed.

Lemma merge_handler_absent hookName l handler :
  Forall (λ y, ¬ Is_true (has_marker hookName y)) l →
  merge_handler hookName l handler = l ++ [markedHandler hookName handler].
Proof.
  intros Hl. unfold merge_handler.
  by apply findIndex_None in Hl as ->.
Qed.

(** *** The handlers of one event *)

Lemma foldl_merge_handler_found hookName l1 x l2 hs h :
  Forall (λ y, ¬ Is_true (has_marker hookName y)) l1 →
  has_marker hookName x = true →
  foldl (merge_handler hookName) (l1 ++ x :: l2) (hs ++ [h])
  = l1 ++ markedHandler hookName h :: l2.
Proof.
  intros Hl1. revert x. induction hs as [|h0 hs IH]; intros x Hx.
  - by apply merge_handler_found.
  - cbn [app foldl]. rewrite merge_handler_found by done.
    apply IH, has_marker_markedHandler_same.
Qed.

Lemma foldl_merge_handler_absent hookName l hs h :
  Forall (λ y, ¬ Is_true (has_marker hookName y)) l →
  foldl (merge_handler hookName) l (hs ++ [h])
  = l ++ [markedHandler hookName h].
Proof.
  intros Hl. destruct hs as [|h0 hs].
  - by apply merge_handler_absent.
  - cbn [app foldl]. rewrite merge_handler_absent by done.
    apply foldl_merge_handler_found; [done|].
    apply has_marker_markedHandler_same.
Qed.

(** What merging the handlers of one event does to its list. *)
Lemma foldl_merge_handler hookName l hs h :
  foldl (merge_handler hookName) l (hs ++ [h])
  = match findIndex (has_marker hookName) l with
    | Some i => <[i := markedHandler hookName h]> l
    | None => l ++ [markedHandler hookName h]
    end.
Proof.
  destruct (findIndex _ l) as [i|] eqn:E.
  - apply findIndex_Some_split in E as (l1 & x & l2 & -> & <- & Hx & Hl1).
    rewrite foldl_merge_handler_found by done.
    rewrite insert_app_r_alt by done. by rewrite Nat.sub_diag.
  - apply findIndex_None in E. by apply foldl_merge_handler_absent.
Qed.

Lemma marked_count_merge_handler hookName owner l handler :
  marked_count hookName l ≤ 1 →
  marked_count hookName (merge_handler owner l handler) ≤ 1.
Proof.
  intros Hl. destruct (findIndex (has_marker owner) l) as [i|] eqn:E.
  - apply findIndex_Some_split in E as (l1 & x & l2 & -> & <- & Hx & Hl1).
    rewrite merge_handler_found by done.
    rewrite marked_count_app, marked_count_cons in *.
    rewrite has_marker_markedHandler.
    destruct (String.eqb owner hookName) eqn:Eo.
    + apply String.eqb_eq in Eo as ->. by rewrite Hx in Hl.
    + destruct (has_marker hookName x); lia.
  - apply findIndex_None in E. rewrite merge_handler_absent by done.
    rewrite marked_count_app, marked_count_cons, has_marker_markedHandler.
    destruct (String.eqb owner hookName) eqn:Eo.
    + apply String.eqb_eq in Eo as ->.
      rewrite marked_count_none by done. done.
    + cbn -[marked_count]. unfold marked_count at 2. cbn. lia.
Qed.

Lemma marked_count_foldl_merge_handler hookName owner l hs :
  marked_count hookName l ≤ 1 →
  marked_count hookName (foldl (merge_handler owner) l hs) ≤ 1.
Proof.
  revert l. induction hs as [|h hs IH]; intros l Hl; [done|].
  cbn [foldl]. by apply IH, marked_count_merge_handler.
Qed.

(** *** The events of one hook *)

Lemma NoDup_okeys_spread_props v : NoDup (okeys (spread_props v)).
Proof.
  destruct v as [| | |s|items|fields]; cbn [spread_props];
    try apply NoDup_nil_2.
  - unfold okeys. rewrite fmap_imap.
    rewrite (imap_ext _ (λ i _, pretty i)) by done.
    rewrite imap_seq_0. apply NoDup_fmap_2; [apply _|apply NoDup_seq].
  - unfold okeys. rewrite fmap_imap.
    rewrite (imap_ext _ (λ i _, pretty i)) by done.
    rewrite imap_seq_0. apply NoDup_fmap_2; [apply _|apply NoDup_seq].
  - apply NoDup_okeys_ospread, NoDup_nil_2.
Qed.

Lemma NoDup_okeys_entries v es : entries v = Some es → NoDup (okeys es).
Proof.
  intros Hes. assert (es = spread_props v) as ->
    by (destruct v; first [discriminate Hes | by injection Hes]).
  apply NoDup_okeys_spread_props.
Qed.

(** One round of the loop: on a shadowed event it throws, unless the
    event comes without a handler, and then it changes nothing; on any
    other event it merges the handlers into the list of the event. *)
Lemma merge_event_cases hookName registry k handlers :
  merge_event hookName registry (k, handlers)
  = if decide (shadowed registry k) then
      if decide (handlerArray handlers = []) then Some registry else None
    else
      Some (oset k
              (foldl (merge_handler hookName) (default [] (oget k registry))
                 (handlerArray handlers))
              registry).
Proof.
  unfold merge_event.
  destruct (decide (shadowed registry k)) as [[E Hk]|Hs].
  - rewrite (oread_absent _ _ E), bool_decide_true by done.
    rewrite (oread_absent _ _ E), bool_decide_true by done.
    by destruct (handlerArray handlers).
  - destruct (oget k registry) as [l|] eqn:E.
    + by rewrite (oread_own _ _ _ E), (oread_own _ _ _ E).
    + rewrite (oread_absent _ _ E).
      rewrite bool_decide_false by (intros ?; by apply Hs).
      by rewrite oread_oset_eq, oset_oset.
Qed.

Lemma merge_event_shadowed hookName registry k handlers registry' :
  merge_event hookName registry (k, handlers) = Some registry' →
  shadowed registry k → handlerArray handlers = [] ∧ registry' = registry.
Proof.
  rewrite merge_event_cases. intros Hm Hs. rewrite decide_True in Hm by done.
  case_decide; [|done]. by injection Hm as <-.
Qed.

Lemma oget_merge_event hookName registry k handlers registry' e :
  merge_event hookName registry (k, handlers) = Some registry' →
  oget e registry'
  = if decide (k = e ∧ ¬ shadowed registry k)
    then Some (foldl (merge_handler hookName)
                 (default [] (oget k registry)) (handlerArray handlers))
    else oget e registry.
Proof.
  rewrite merge_event_cases. destruct (decide (shadowed registry k)) as [Hs|Hs].
  - case_decide; [|done]. intros [= <-].
    by rewrite decide_False by (by intros [_ ?]).
  - intros [= <-]. rewrite oget_oset. apply decide_ext. naive_solver.
Qed.

Lemma shadowed_merge_event hookName registry k handlers registry' e :
  merge_event hookName registry (k, handlers) = Some registry' →
  e ≠ k → shadowed registry' e ↔ shadowed registry e.
Proof.
  intros Hm Hne. unfold shadowed.
  rewrite (oget_merge_event _ _ _ _ _ e Hm).
  by rewrite decide_False by (by intros [-> _]).
Qed.

(** What the loop over the events leaves under every event name. *)
Lemma oget_merge_events hookName es :
  NoDup (okeys es) →
  ∀ registry registry' e,
    merge_events hookName registry es = Some registry' →
    oget e registry'
    = match oget e es with
      | Some handlers =>
          if decide (shadowed registry e) then None
          else Some (foldl (merge_handler hookName)
                       (default [] (oget e registry)) (handlerArray handlers))
      | None => oget e registry
      end.
Proof.
  unfold okeys.
  induction es as [|[k handlers] es IH]; intros Hnd registry registry' e.
  - by intros [= <-].
  - rewrite fmap_cons in Hnd. apply NoDup_cons in Hnd as [Hk Hnd].
    cbn [merge_events].
    destruct (merge_event hookName registry (k, handlers)) as [r1|] eqn:Hm;
      [|done].
    cbn [mbind option_bind]. intros Hrest.
    rewrite (IH Hnd r1 registry' e Hrest). cbn [oget].
    destruct (String.eqb k e) eqn:E.
    + apply String.eqb_eq in E as ->.
      assert (oget e es = None) as -> by by apply oget_None_keys.
      rewrite (oget_merge_event _ _ _ _ _ e Hm).
      destruct (decide (shadowed registry e)) as [Hs|Hs].
      * rewrite decide_False by (by intros [_ ?]). by destruct Hs.
      * by rewrite decide_True.
    + apply String.eqb_neq in E.
      rewrite (oget_merge_event _ _ _ _ _ e Hm).
      rewrite (decide_False (P := k = e ∧ _)) by (by intros [? _]).
      destruct (oget e es); [|done].
      apply decide_ext. by eapply shadowed_merge_event.
Qed.

(** The loop returns exactly when every shadowed event of the
    configuration comes without a handler. *)
Lemma merge_events_shadowed hookName es :
  NoDup (okeys es) →
  ∀ registry registry' e handlers,
    merge_events hookName registry es = Some registry' →
    oget e es = Some handlers → shadowed registry e →
    handlerArray handlers = [].
Proof.
  unfold okeys.
  induction es as [|[k hs] es IH]; intros Hnd registry registry' e handlers;
    [done|].
  rewrite fmap_cons in Hnd. apply NoDup_cons in Hnd as [Hk Hnd].
  cbn [merge_events oget].
  destruct (merge_event hookName registry (k, hs)) as [r1|] eqn:Hm; [|done].
  cbn [mbind option_bind]. intros Hrest.
  destruct (String.eqb k e) eqn:E.
  - apply String.eqb_eq in E as ->. intros [= ->] Hs.
    by destruct (merge_event_shadowed _ _ _ _ _ Hm Hs).
  - apply String.eqb_neq in E. intros He Hs.
    apply (IH Hnd r1 registry' e handlers Hrest He).
    by apply (shadowed_merge_event _ _ _ _ _ e Hm).
Qed.

Lemma merge_events_returns hookName es :
  NoDup (okeys es) →
  ∀ registry,
    (∀ e handlers, oget e es = Some handlers → shadowed registry e →
                   handlerArray handlers = []) →
    is_Some (merge_events hookName registry es).
Proof.
  unfold okeys.
  induction es as [|[k hs] es IH]; intros Hnd registry Hall; [by eexists|].
  rewrite fmap_cons in Hnd. apply NoDup_cons in Hnd as [Hk Hnd].
  cbn [merge_events].
  destruct (merge_event hookName registry (k, hs)) as [r1|] eqn:Hm.
  - cbn [mbind option_bind]. apply IH; [done|].
    intros e handlers He Hs.
    assert (e ≠ k) as Hne.
    { intros ->. apply Hk. apply oget_is_Some_keys. by eexists. }
    apply (Hall e handlers).
    + cbn [oget]. by apply not_eq_sym, String.eqb_neq in Hne as ->.
    + by apply (shadowed_merge_event _ _ _ _ _ e Hm).
  - rewrite merge_event_cases in Hm. case_decide as Hs; [|done].
    rewrite decide_True in Hm; [done|].
    apply (Hall k hs); [|done]. cbn [oget]. by rewrite String.eqb_refl.
Qed.

Lemma getHooks_mergeHook hookName hookConfig f f' :
  mergeHook hookName hookConfig f = Some f' →
  ∃ es, entries hookConfig = Some es
        ∧ merge_events hookName (getHooks f) es = Some (getHooks f')
        ∧ settings_rest (readSettings f') = settings_rest (readSettings f).
Proof.
  unfold mergeHook. destruct (entries hookConfig) as [es|]; [|done].
  cbn [mbind option_bind]. fold (getHooks f).
  destruct (merge_events hookName (getHooks f) es) as [registry|] eqn:E;
    [|done].
  intros [= <-]. by exists es.
Qed.

Lemma entries_spread_props v es : entries v = Some es → es = spread_props v.
Proof. destruct v; first [discriminate | by intros [= <-]]. Qed.

Lemma mergeHook_mergeable hookName hookConfig f f' :
  mergeHook hookName hookConfig f = Some f' → mergeable (getHooks f) hookConfig.
Proof.
  intros (es & Hes & Hm & _)%getHooks_mergeHook e handlers He Hs.
  rewrite <-(entries_spread_props _ _ Hes) in He.
  eapply merge_events_shadowed; [|done..]. by eapply NoDup_okeys_entries.
Qed.

(** [mergeHook] returns exactly on the configurations that are not
    [null] and are mergeable. *)
Lemma mergeHook_returns hookName hookConfig f :
  hookConfig ≠ JNull → mergeable (getHooks f) hookConfig →
  is_Some (mergeHook hookName hookConfig f).
Proof.
  intros Hcfg Hm. unfold mergeHook.
  assert (entries hookConfig = Some (spread_props hookConfig)) as ->
    by by destruct hookConfig.
  cbn [mbind option_bind]. fold (getHooks f).
  destruct (merge_events_returns hookName (spread_props hookConfig)
              (NoDup_okeys_spread_props _) (getHooks f) Hm) as [r ->].
  by eexists.
Qed.

(** What a merge leaves under every event name. *)
Lemma oget_getHooks_mergeHook hookName hookConfig f f' e :
  mergeHook hookName hookConfig f = Some f' →
  oget e (getHooks f')
  = match oget e (spread_props hookConfig) with
    | Some handlers =>
        if decide (shadowed (getHooks f) e) then None
        else Some (foldl (merge_handler hookName)
                     (default [] (oget e (getHooks f)))
                     (handlerArray handlers))
    | None => oget e (getHooks f)
    end.
Proof.
  intros (es & Hes & Hm & _)%getHooks_mergeHook.
  rewrite (oget_merge_events hookName es) with (registry := getHooks f)
    by (done || by eapply NoDup_okeys_entries).
  by rewrite (entries_spread_props _ _ Hes).
Qed.

(** What a merge leaves under an event of the configuration. *)
Lemma oget_mergeHook f f' hookName hookConfig es eventType handlers hs h :
  mergeHook hookName hookConfig f = Some f' →
  entries hookConfig = Some es →
  oget eventType es = Some handlers →
  handlerArray handlers = hs ++ [h] →
  oget eventType (getHooks f')
  = Some (match findIndex (has_marker hookName)
                  (default [] (oget eventType (getHooks f))) with
          | Some i =>
              <[i := markedHandler hookName h]>
                (default [] (oget eventType (getHooks f)))
          | None =>
              default [] (oget eventType (getHooks f))
                ++ [markedHandler hookName h]
          end).
Proof.
  intros Hm Hes He Hhs.
  rewrite (entries_spread_props _ _ Hes) in He.
  rewrite (oget_getHooks_mergeHook _ _ _ _ eventType Hm), He.
  destruct (decide (shadowed (getHooks f) eventType)) as [Hs|Hs].
  - pose proof (mergeHook_mergeable _ _ _ _ Hm _ _ He Hs) as Hnil.
    rewrite Hhs in Hnil. by destruct hs.
  - by rewrite Hhs, foldl_merge_handler.
Qed.

(** *** At most one marked handler per event *)

Lemma Forall_merge_event hookName owner registry entry registry' :
  merge_event owner registry entry = Some registry' →
  Forall (λ e : string * list handler_t, marked_count hookName e.2 ≤ 1)
    registry →
  Forall (λ e : string * list handler_t, marked_count hookName e.2 ≤ 1)
    registry'.
Proof.
  destruct entry as [k handlers]. rewrite merge_event_cases.
  intros Hm Hreg. case_decide as Hs.
  - case_decide; [|done]. by injection Hm as <-.
  - injection Hm as <-. apply Forall_oset; [|done]. cbn [snd].
    apply marked_count_foldl_merge_handler.
    destruct (oget k registry) as [l|] eqn:E; [|cbn; lia].
    apply oget_Some_elem_of in E. rewrite Forall_forall in Hreg.
    apply (Hreg _ E).
Qed.

Lemma marked_count_filter hookName (P : handler_t → Prop)
    `{∀ h, Decision (P h)} l :
  marked_count hookName (filter P l) ≤ marked_count hookName l.
Proof.
  induction l as [|h l IH]; [done|].
  rewrite filter_cons, !marked_count_cons. case_decide.
  - rewrite marked_count_cons. lia.
  - lia.
Qed.

Lemma Forall_remove_event hookName owner registry eventType :
  Forall (λ e : string * list handler_t, marked_count hookName e.2 ≤ 1)
    registry →
  Forall (λ e : string * list handler_t, marked_count hookName e.2 ≤ 1)
    (remove_event owner registry eventType).
Proof.
  intros Hreg. unfold remove_event.
  destruct (oget eventType registry) as [l|] eqn:E; [|done].
  case_bool_decide; [by apply Forall_odel|].
  apply Forall_oset; [|done]. cbn [snd].
  etrans; [apply marked_count_filter|].
  apply oget_Some_elem_of in E. rewrite Forall_forall in Hreg.
  apply (Hreg _ E).
Qed.

Lemma at_most_one_mergeHook hookName owner hookConfig f f' :
  at_most_one hookName f → mergeHook owner hookConfig f = Some f' →
  at_most_one hookName f'.
Proof.
  unfold at_most_one.
  intros Hf (es & _ & Hm & _)%getHooks_mergeHook.
  revert Hf Hm. generalize (getHooks f) (getHooks f').
  induction es as [|entry es IH]; intros registry registry' Hreg.
  - by intros [= <-].
  - cbn [merge_events].
    destruct (merge_event owner registry entry) as [r1|] eqn:E; [|done].
    cbn [mbind option_bind]. apply IH. by eapply Forall_merge_event.
Qed.

Lemma at_most_one_removeHook hookName owner f f' :
  at_most_one hookName f → removeHook owner f = Some f' →
  at_most_one hookName f'.
Proof.
  unfold at_most_one, removeHook, getHooks.
  destruct (hooks (readSettings f)) as [registry|]; [|done].
  cbn [mbind option_bind default from_option id].
  intros Hreg [= <-]. cbn [readSettings hooks default from_option id].
  revert Hreg. generalize (okeys registry) as ks. intros ks. revert registry.
  induction ks as [|k ks IH]; intros registry Hreg; [done|].
  cbn [foldl]. by apply IH, Forall_remove_event.
Qed.

Section sync.
Context `{Runtime}.

Lemma settingsFile_trackInstall c h w :
  settingsFile (World.trackInstall c h w).2 = settingsFile w.
Proof. done. Qed.

Lemma at_most_one_syncHooks hookName selectedHooks trackedHooks w :
  at_most_one hookName (settingsFile w) →
  at_most_one hookName (settingsFile (syncHooks selectedHooks trackedHooks w).2).
Proof.
  intros Hw. unfold syncHooks, bind.
  pose proof (fold_each_keeps (λ w, at_most_one hookName (settingsFile w))
    (sync_selected_hook trackedHooks) selectedHooks) as H1.
  pose proof (fold_each_keeps (λ w, at_most_one hookName (settingsFile w))
    (sync_tracked_hook selectedHooks) (okeys trackedHooks)) as H2.
  cbn beta in H1, H2.
  assert (at_most_one hookName (settingsFile
    (fold_each (sync_selected_hook trackedHooks)
       {| added := []; removed := []; updated := [] |} selectedHooks w).2))
    as Hfirst.
  { apply H1; [|done]. clear. intros acc hook w _ Hw.
    unfold sync_selected_hook, mergeHookW, World.trackInstall.
    unfold bind, get, modify, throw, ret, now. cbn [fst snd].
    destruct (mergeHook _ _ (settingsFile w)) as [f'|] eqn:E; [|done].
    cbn [fst snd settingsFile set_settings logged set_meta].
    by eapply at_most_one_mergeHook. }
  destruct (fold_each (sync_selected_hook trackedHooks) _ _ w)
    as [[r1|] w1]; [|done].
  apply H2; [|done]. clear. intros acc k w _ Hw.
  unfold sync_tracked_hook. case_bool_decide; [done|].
  unfold removeHookW, World.trackUninstall.
  unfold bind, get, modify, ret. cbn [fst snd].
  destruct (removeHook k (settingsFile w)) as [f'|] eqn:E; [|done].
  cbn [settingsFile set_settings logged set_meta].
  by eapply at_most_one_removeHook.
Qed.

End sync.

End MergerFacts.

Module MergerTheorems.
Import Merger Registry MergerFacts.
Local Open Scope nat_scope.

(** C6. Merging a hook's configuration treats each of its events as
    follows, [h] being the handler the configuration gives for the event
    (the last one, if it gives a list): when the event's list already has a
    handler with the hook's marker, the marked [h] is written at that
    handler's position, so the list keeps its length and every other
    element; when it has none, the marked [h] is appended. *)
Theorem mergeHook_replaces_in_place
    (f f' : json_file settings) (hookName : string) (hookConfig : json)
    (es : obj json) (eventType : string) (handlers : json)
    (hs : list json) (h : json) :
  mergeHook hookName hookConfig f = Some f' →
  entries hookConfig = Some es →
  oget eventType es = Some handlers →
  handlerArray handlers = hs ++ [h] →
  let l := default [] (oget eventType (getHooks f)) in
  let m := markedHandler hookName h in
  match findIndex (has_marker hookName) l with
  | Some i =>
      ∃ l', oget eventType (getHooks f') = Some l'
            ∧ l' = <[i := m]> l
            ∧ length l' = length l
            ∧ l' !! i = Some m
            ∧ ∀ j, j ≠ i → l' !! j = l !! j
  | None => oget eventType (getHooks f') = Some (l ++ [m])
  end.
Proof.
  intros Hm Hes He Hhs l m.
  pose proof (oget_mergeHook _ _ _ _ _ _ _ _ _ Hm Hes He Hhs) as Hget.
  fold l m in Hget.
  destruct (findIndex (has_marker hookName) l) as [i|] eqn:Ei; [|done].
  eexists. split; [exact Hget|]. split; [done|].
  apply findIndex_Some_split in Ei as (l1 & x & l2 & Hl & <- & _ & _).
  split_and!.
  - by rewrite length_insert.
  - apply list_lookup_insert_eq. rewrite Hl, length_app. cbn. lia.
  - intros j Hj. by apply list_lookup_insert_ne.
Qed.

Lemma mergeHook_replaces_in_place_witness :
  ∃ f', mergeHook "notify" notify_b registry_with_notify = Some f'
        ∧ oget "Stop" (getHooks f')
          = Some [[("command", JStr "lint")];
                  [("command", JStr "b"); ("_hands", JStr "notify")];
                  [("command", JStr "fmt"); ("_hands", JStr "format")]].
Proof.
  destruct (mergeHook "notify" notify_b registry_with_notify) as [f'|] eqn:E;
    [|by vm_compute in E].
  exists f'. split; [done|].
  pose proof (mergeHook_replaces_in_place registry_with_notify f' "notify"
    notify_b [("Stop", JObj [("command", JStr "b")])] "Stop"
    (JObj [("command", JStr "b")]) [] (JObj [("command", JStr "b")])
    E eq_refl eq_refl eq_refl) as Hm.
  assert (findIndex (has_marker "notify")
            (default [] (oget "Stop" (getHooks registry_with_notify)))
          = Some 1) as Hfind by (vm_compute; reflexivity).
  cbv zeta in Hm. rewrite Hfind in Hm.
  destruct Hm as (l' & Hl' & -> & _). rewrite Hl'. vm_compute. reflexivity.
Defined.

(** C10. In every event list of the registry at most one handler carries
    a given hook's marker, and [mergeHook], [removeHook] and [syncHooks]
    keep it so (an absent registry has the property). Consequently a
    configuration that gives an event a list of several handlers leaves
    exactly one marked handler of the hook under that event, the last of
    the list: each handler of the list replaces the one before. *)
Theorem at_most_one_marker (hookName : string) :
  at_most_one hookName Absent
  ∧ (∀ f owner hookConfig f',
       at_most_one hookName f → mergeHook owner hookConfig f = Some f' →
       at_most_one hookName f')
  ∧ (∀ f owner f',
       at_most_one hookName f → removeHook owner f = Some f' →
       at_most_one hookName f')
  ∧ (∀ (R : Runtime) selectedHooks trackedHooks w,
       at_most_one hookName (settingsFile w) →
       at_most_one hookName
         (settingsFile (syncHooks selectedHooks trackedHooks w).2))
  ∧ (∀ f f' hookConfig es eventType handlers hs h,
       at_most_one hookName f →
       mergeHook hookName hookConfig f = Some f' →
       entries hookConfig = Some es →
       oget eventType es = Some handlers →
       handlerArray handlers = hs ++ [h] →
       ∃ l', oget eventType (getHooks f') = Some l'
             ∧ filter (λ x, Is_true (has_marker hookName x)) l'
               = [markedHandler hookName h]).
Proof.
  split_and!.
  - constructor.
  - intros. by eapply at_most_one_mergeHook.
  - intros. by eapply at_most_one_removeHook.
  - intros. by apply at_most_one_syncHooks.
  - intros f f' hookConfig es eventType handlers hs h Hf Hm Hes He Hhs.
    pose proof (oget_mergeHook _ _ _ _ _ _ _ _ _ Hm Hes He Hhs) as Hmerged.
    assert (marked_count hookName (default [] (oget eventType (getHooks f)))
            ≤ 1) as Hcount.
    { destruct (oget eventType (getHooks f)) as [l|] eqn:E; [|cbn; lia].
      apply oget_Some_elem_of in E. unfold at_most_one in Hf.
      rewrite Forall_forall in Hf. apply (Hf _ E). }
    set (P := λ x, Is_true (has_marker hookName x)).
    assert (P (markedHandler hookName h)) as Hmark.
    { apply Is_true_true, has_marker_markedHandler_same. }
    destruct (findIndex _ _) as [i|] eqn:Ei.
    + eexists. split; [exact Hmerged|].
      apply findIndex_Some_split in Ei as (l1 & x & l2 & Hl & <- & Hx & Hl1).
      rewrite Hl in *. rewrite insert_app_r_alt, Nat.sub_diag by done.
      cbn [insert list_insert]. rewrite filter_app, filter_cons_True by done.
      rewrite marked_count_app, marked_count_cons, Hx in Hcount.
      rewrite (nil_length_inv (filter P l1)).
      2:{ by apply (marked_count_none hookName). }
      rewrite (nil_length_inv (filter P l2)).
      2:{ unfold marked_count in Hcount. fold P in Hcount. lia. }
      done.
    + eexists. split; [exact Hmerged|]. apply findIndex_None in Ei.
      rewrite filter_app, filter_cons_True, filter_nil by done.
      rewrite (nil_length_inv (filter P _)).
      2:{ by apply (marked_count_none hookName). }
      done.
Qed.

Lemma at_most_one_marker_witness :
  at_most_one "notify" registry_with_notify
  ∧ (∃ f', mergeHook "notify" notify_twice registry_with_notify = Some f'
           ∧ at_most_one "notify" f'
           ∧ ∃ l', oget "Stop" (getHooks f') = Some l'
                   ∧ filter (λ x, Is_true (has_marker "notify" x)) l'
                     = [[("command", JStr "say two");
                         ("_hands", JStr "notify")]])
  ∧ (∃ f', removeHook "format" registry_with_notify = Some f'
           ∧ at_most_one "notify" f').
Proof.
  assert (at_most_one "notify" registry_with_notify) as Hinv.
  { repeat constructor. }
  destruct (at_most_one_marker "notify")
    as (_ & Hmerge & Hremove & _ & Hseveral).
  split_and!.
  - exact Hinv.
  - destruct (mergeHook "notify" notify_twice registry_with_notify)
      as [f'|] eqn:E; [|by vm_compute in E].
    exists f'. split; [done|]. split; [exact (Hmerge _ _ _ _ Hinv E)|].
    exact (Hseveral registry_with_notify f' notify_twice
             [("Stop", JArr [JStr "say one"; JStr "say two"])] "Stop"
             (JArr [JStr "say one"; JStr "say two"]) [JStr "say one"]
             (JStr "say two") Hinv E eq_refl eq_refl eq_refl).
  - destruct (removeHook "format" registry_with_notify) as [f'|] eqn:E;
      [|by vm_compute in E].
    exists f'. split; [done|]. exact (Hremove _ _ _ Hinv E).
Defined.

End MergerTheorems.

(** ** The directory hash *)

Module HashFacts.
Import Tracker Tree.

(** Induction on a tree, with the property at hand for every entry of a
    directory. *)
Lemma node_ind_entries (P : node → Prop) :
  (∀ c, P (File c)) →
  (∀ es, Forall (λ e : string * node, P e.2) es → P (Dir es)) →
  ∀ n, P n.
Proof.
  intros Hfile Hdir. fix IH 1. intros [c|es]; [apply Hfile|].
  apply Hdir. induction es as [|[k n] es IHes]; constructor.
  - apply IH.
  - apply IHes.
Qed.

Lemma scan_entry_Dir rel es : scan_entry rel (Dir es) = scan es rel.
Proof. done. Qed.

Lemma scan_cons name n es rel :
  scan ((name, n) :: es) rel
  = (if String.eqb name "manifest.json" then []
     else scan_entry (path_join rel name) n) ++ scan es rel.
Proof. done. Qed.


Lemma scan_Permutation es es' rel : es ≡ₚ es' → scan es rel ≡ₚ scan es' rel.
Proof. intros Hp. unfold scan. by apply Permutation_flat_map. Qed.




Section order.
Context `{R : Runtime} `{!LocaleOrder R}.

#[export] Instance relPath_le_total : Total relPath_le.
Proof.
  intros a b. unfold relPath_le.
  rewrite (localeCompare_opp (relPath b) (relPath a)).
  destruct (localeCompare (relPath a) (relPath b)); cbn; auto.
Qed.

#[export] Instance relPath_le_trans : Transitive relPath_le.
Proof. intros a b c. apply localeCompare_trans. Qed.

Lemma relPath_le_antisym l a b :
  told_apart l → a ∈ l → b ∈ l →
  relPath_le a b → relPath_le b a → relPath a = relPath b.
Proof.
  intros Hl Ha Hb. unfold relPath_le.
  rewrite (localeCompare_opp (relPath b) (relPath a)).
  destruct (localeCompare (relPath a) (relPath b)) eqn:E; cbn; try done.
  intros _ _. by apply Hl.
Qed.

Lemma same_relPath (l : list scanned) a b :
  NoDup (relPath <$> l) → a ∈ l → b ∈ l → relPath a = relPath b → a = b.
Proof.
  induction l as [|x l IH]; [by intros _ ?%elem_of_nil|].
  rewrite fmap_cons, NoDup_cons.
  intros [Hx Hnd] [->|Ha]%elem_of_cons [->|Hb]%elem_of_cons Heq; auto.
  - destruct Hx. rewrite Heq. by apply list_elem_of_fmap_2.
  - destruct Hx. rewrite <-Heq. by apply list_elem_of_fmap_2.
Qed.

(** There is one way to sort files that the collation tells apart. *)
Lemma sorted_files l sorted :
  NoDup (relPath <$> l) → told_apart l →
  Sorted relPath_le sorted → sorted ≡ₚ l →
  merge_sort relPath_le l = sorted.
Proof.
  intros Hnd Hl Hs Hp. apply (Sorted_unique_strong relPath_le).
  - intros a b Ha Hb Hab Hba. rewrite merge_sort_Permutation in Ha.
    rewrite Hp in Hb. apply (same_relPath l); [done..|].
    by apply (relPath_le_antisym l).
  - apply Sorted_merge_sort, _.
  - done.
  - by rewrite merge_sort_Permutation.
Qed.

(** The sorted list is the same for every listing of the same files. *)
Lemma merge_sort_files l l' :
  NoDup (relPath <$> l) → told_apart l → l ≡ₚ l' →
  merge_sort relPath_le l = merge_sort relPath_le l'.
Proof.
  intros Hnd Hl Hp. apply sorted_files; [done..| |].
  - apply Sorted_merge_sort, _.
  - by rewrite merge_sort_Permutation.
Qed.

End order.

(** The code-unit order is a total order. *)
Lemma string_compare_trans (a b c : string) :
  String.compare a b ≠ Gt → String.compare b c ≠ Gt → String.compare a c ≠ Gt.
Proof.
  revert b c. induction a as [|x a IH]; intros [|y b] [|z c]; cbn; try done.
  unfold Ascii.compare.
  destruct (N.compare_spec (N_of_ascii x) (N_of_ascii y)),
    (N.compare_spec (N_of_ascii y) (N_of_ascii z)),
    (N.compare_spec (N_of_ascii x) (N_of_ascii z));
    try done; try lia; eauto.
Qed.

#[global] Instance plain_runtime_order : LocaleOrder plain_runtime.
Proof.
  split.
  - apply String.compare_antisym.
  - apply string_compare_trans.
Qed.

Lemma plain_runtime_told_apart l : told_apart (H:=plain_runtime) l.
Proof. intros a b _ _. apply String.compare_eq_iff. Qed.

End HashFacts.

Module HashTheorems.
Import Tracker Tree HashFacts.

Section stable.
Context `{R : Runtime} `{!LocaleOrder R}.


End stable.



End HashTheorems.

(** ** Dependency resolution *)

Module ResolverFacts.
Import Detector Resolver.
Local Open Scope nat_scope.

Section resolve.
Variables (selectedSkills allSkills selectedAgents allAgents : list component).
Variable (pool_mcpServers : list component).

Abbreviation resolveSkill :=
  (resolveSkill selectedSkills allSkills selectedAgents allAgents
     pool_mcpServers).

Lemma resolve_mcpServer_keeps skill st serverName :
  let st' := resolve_mcpServer pool_mcpServers skill st serverName in
  st_errors st' = st_errors st ∧ resolved st' = resolved st.
Proof. unfold resolve_mcpServer. by case_bool_decide. Qed.

Lemma foldl_resolve_mcpServer_keeps skill st names :
  let st' := foldl (resolve_mcpServer pool_mcpServers skill) st names in
  st_errors st' = st_errors st ∧ resolved st' = resolved st.
Proof.
  revert st. induction names as [|n names IH]; intros st; [done|].
  cbn [foldl]. destruct (IH (resolve_mcpServer pool_mcpServers skill st n))
    as [-> ->]. apply resolve_mcpServer_keeps.
Qed.

Lemma resolve_agent_keeps skill st agentName :
  let st' := resolve_agent selectedAgents allAgents skill st agentName in
  st_errors st' = st_errors st ∧ resolved st' = resolved st.
Proof.
  unfold resolve_agent. destruct (String.eqb agentName ""); [done|].
  by repeat case_bool_decide.
Qed.

(** Every name of the active chain is already in [resolved], which is
    tested first: the cycle branch of [resolveSkill] is never taken, and no
    error is ever recorded. *)
Lemma resolveSkill_no_error fuel skill chain st st' :
  (∀ x, x ∈ chain → x ∈ resolved st) →
  st_errors st = [] →
  resolveSkill fuel skill chain st = Some st' →
  st_errors st' = [] ∧ resolved st ⊆ resolved st'.
Proof.
  revert skill chain st st'.
  induction fuel as [|fuel IH]; intros skill chain st st' Hchain Herr;
    [done|].
  cbn [Resolver.resolveSkill].
  case_bool_decide as Hres; [by intros [= <-]|].
  case_bool_decide as Hin; [by destruct Hres; apply Hchain|].
  destruct (manifest_of skill) as [manifest|];
    [|intros [= <-]; cbn; split; [done|set_solver]].
  set (st1 := RState _ _ _ _ _ ({[name skill]} ∪ resolved st)).
  set (st2 := foldl _ st1 _).
  set (st3 := match m_agent manifest with Some _ => _ | None => st2 end).
  assert (st_errors st3 = [] ∧ resolved st3 = {[name skill]} ∪ resolved st)
    as [Herr3 Hres3].
  { pose proof (foldl_resolve_mcpServer_keeps skill st1
                  (default [] (m_mcpServers manifest))) as [He2 Hr2].
    cbn zeta in He2, Hr2. fold st2 in He2, Hr2.
    unfold st3. destruct (m_agent manifest) as [a|].
    - destruct (resolve_agent_keeps skill st2 a) as [-> ->].
      by rewrite He2, Hr2.
    - by rewrite He2, Hr2. }
  clearbody st3. clear st2 st1.
  assert (resolved st ⊆ resolved st3) as Hsub by set_solver.
  assert (∀ x, x ∈ chain ++ [name skill] → x ∈ resolved st3) as Hchain3.
  { intros x [?|Hx%list_elem_of_singleton]%elem_of_app;
      [|subst x; set_solver].
    apply Hsub. auto. }
  revert Herr3 Hsub Hchain3. generalize st3. clear Hres3 st3.
  induction (default [] (m_skills manifest)) as [|depName deps IHdeps];
    intros acc Herr3 Hsub Hchain3; cbn [foldl].
  { by intros [= <-]. }
  cbn [mbind option_bind].
  destruct (skillMap allSkills !! depName) as [dep|] eqn:Edep.
  - set (acc1 := if bool_decide _ then acc else _).
    assert (st_errors acc1 = [] ∧ resolved acc1 = resolved acc) as [He1 Hr1]
      by (unfold acc1; by case_bool_decide).
    destruct (resolveSkill fuel dep (chain ++ [name skill]) acc1)
      as [acc2|] eqn:E2.
    + apply IH in E2 as [He2 Hr2]; [|by rewrite Hr1|done].
      apply IHdeps; [done|set_solver|]. intros x Hx.
      apply Hr2. rewrite Hr1. auto.
    + clear. induction deps as [|d deps IHd]; [done|]. exact IHd.
  - apply IHdeps; [done|done|done].
Qed.

Lemma resolve_required_no_error fuel steps i st st' :
  st_errors st = [] →
  resolve_required selectedSkills allSkills selectedAgents allAgents
    pool_mcpServers fuel steps i st = Some st' →
  st_errors st' = [].
Proof.
  revert i st. induction steps as [|steps IH]; intros i st Herr;
    cbn [resolve_required].
  - destruct (requiredSkills st !! i); [done|]. by intros [= <-].
  - destruct (requiredSkills st !! i) as [[k requiredBy]|];
      [|by intros [= <-]].
    destruct (head requiredBy ≫= _) as [depSkill|]; [|by apply IH].
    cbn [mbind option_bind].
    destruct (resolveSkill fuel depSkill [] st) as [st1|] eqn:E1; [|done].
    apply resolveSkill_no_error in E1 as [He1 _]; [|by intros ? ?%elem_of_nil|done].
    by apply IH.
Qed.

(** [resolveDependencies] never reports an error. *)
Lemma resolveDependencies_no_error r :
  resolveDependencies selectedSkills allSkills selectedAgents allAgents
    pool_mcpServers = Some r →
  errors r = [].
Proof.
  unfold resolveDependencies, resolveDependencies_within.
  set (fuel := length allSkills + 2).
  set (st0 := RState [] [] [] [] [] ∅).
  assert (st_errors st0 = []) as Herr0 by done.
  revert Herr0. generalize st0. clear st0.
  assert (∀ (l : list component) st0, st_errors st0 = [] →
    ∀ st, foldl (λ (acc : option rstate) (skill : component),
                   st ← acc; resolveSkill fuel skill [] st) (Some st0) l
          = Some st → st_errors st = []) as Hsel.
  { induction l as [|sk l IHl]; intros st0 Herr0 st; cbn [foldl].
    - by intros [= <-].
    - cbn [mbind option_bind].
      destruct (resolveSkill fuel sk [] st0) as [st1|] eqn:E1.
      + apply resolveSkill_no_error in E1 as [He1 _];
          [|by intros ? ?%elem_of_nil|done].
        by apply IHl.
      + clear. induction l as [|? l IHl']; [done|]. exact IHl'. }
  intros st0 Herr0.
  destruct (foldl _ (Some st0) selectedSkills) as [st1|] eqn:E1; [|done].
  apply Hsel in E1; [|done]. cbn [mbind option_bind].
  destruct (resolve_required _ _ _ _ _ _ _ _ st1) as [st2|] eqn:E2; [|done].
  apply resolve_required_no_error in E2; [|done].
  by intros [= <-].
Qed.

(** *** [resolveDependencies] always returns *)

Lemma name_map_lookup (xs : list component) k x :
  name_map xs !! k = Some x → name x = k.
Proof.
  unfold name_map.
  assert (∀ m : gmap string component,
            (∀ k x, m !! k = Some x → name x = k) →
            ∀ k x, foldl (λ m x, <[name x := x]> m) m xs !! k = Some x →
                   name x = k) as Hgen.
  { induction xs as [|y xs IH]; intros m Hm; [done|].
    cbn [foldl]. apply IH. intros k' x'.
    destruct (decide (name y = k')) as [<-|Hne].
    - rewrite lookup_insert_eq. by intros [= <-].
    - rewrite lookup_insert_ne by done. apply Hm. }
  apply Hgen. intros ? ?. by rewrite lookup_empty.
Qed.

Lemma size_dom_name_map (xs : list component) :
  size (dom (name_map xs)) ≤ length xs.
Proof.
  unfold name_map.
  assert (∀ m : gmap string component,
            size (dom (foldl (λ m x, <[name x := x]> m) m xs))
            ≤ size (dom m) + length xs) as Hgen.
  { induction xs as [|y xs IH]; intros m; cbn [foldl length]; [lia|].
    etrans; [apply IH|]. rewrite dom_insert_L, size_union_alt.
    rewrite size_singleton.
    pose proof (subseteq_size (dom m ∖ {[name y]}) (dom m) ltac:(set_solver)) as Hs. lia. }
  etrans; [apply Hgen|]. by rewrite dom_empty_L, size_empty.
Qed.

Abbreviation required_ok := (Resolution.required_ok allSkills).

Lemma add_required_ok k v (m : obj (list string)) (D : gset string) :
  k ∈ D → NoDup (okeys m) → (∀ k', k' ∈ okeys m → k' ∈ D) →
  NoDup (okeys (add_required k v m))
  ∧ ∀ k', k' ∈ okeys (add_required k v m) → k' ∈ D.
Proof.
  intros Hk Hnd Hsub. unfold add_required.
  set (m1 := match oget k m with Some _ => m | None => oset k [] m end).
  assert (NoDup (okeys m1) ∧ ∀ k', k' ∈ okeys m1 → k' ∈ D) as [Hnd1 Hsub1].
  { unfold m1. destruct (oget k m); [done|]. split.
    - by apply NoDup_okeys_oset.
    - intros k'. rewrite okeys_oset. case_decide; [by auto|].
      intros [?|Hk'%list_elem_of_singleton]%elem_of_app; [auto|by subst]. }
  split.
  - by apply NoDup_okeys_oset.
  - intros k'. rewrite okeys_oset. case_decide; [by auto|].
    intros [?|Hk'%list_elem_of_singleton]%elem_of_app; [auto|by subst].
Qed.

Lemma resolveSkill_grows fuel skill chain st st' :
  resolveSkill fuel skill chain st = Some st' →
  resolved st ⊆ resolved st' ∧ (required_ok st → required_ok st').
Proof.
  revert skill chain st st'.
  induction fuel as [|fuel IH]; intros skill chain st st'; [done|].
  cbn [Resolver.resolveSkill].
  case_bool_decide as Hres; [by intros [= <-]|].
  case_bool_decide as Hin; [by intros [= <-]|].
  destruct (manifest_of skill) as [manifest|];
    [|intros [= <-]; cbn; split; [set_solver|done]].
  set (st1 := RState _ _ _ _ _ ({[name skill]} ∪ resolved st)).
  set (st2 := foldl _ st1 _).
  set (st3 := match m_agent manifest with Some _ => _ | None => st2 end).
  assert (resolved st3 = {[name skill]} ∪ resolved st
          ∧ requiredSkills st3 = requiredSkills st) as [Hres3 Hreq3].
  { assert (resolved st2 = resolved st1
            ∧ requiredSkills st2 = requiredSkills st1) as [Hr2 Hq2].
    { unfold st2. generalize st1.
      induction (default [] (m_mcpServers manifest)) as [|n ns IHn];
        intros acc; [done|].
      cbn [foldl]. destruct (IHn (resolve_mcpServer pool_mcpServers skill acc n))
        as [-> ->]. unfold resolve_mcpServer. by case_bool_decide. }
    unfold st3. destruct (m_agent manifest) as [a|]; [|by rewrite Hr2, Hq2].
    unfold resolve_agent. destruct (String.eqb a ""); [by rewrite Hr2, Hq2|].
    repeat case_bool_decide; cbn; by rewrite ?Hr2, ?Hq2. }
  clearbody st3. clear st2 st1.
  assert (resolved st ⊆ resolved st3) as Hsub by set_solver.
  assert (required_ok st → required_ok st3) as Hok
    by (unfold Resolution.required_ok; by rewrite Hreq3).
  revert Hsub Hok. generalize st3. clear Hres3 Hreq3 st3.
  induction (default [] (m_skills manifest)) as [|depName deps IHdeps];
    intros acc Hsub Hok; cbn [foldl].
  { by intros [= <-]. }
  cbn [mbind option_bind].
  destruct (skillMap allSkills !! depName) as [dep|] eqn:Edep.
  - set (acc1 := if bool_decide _ then acc else _).
    assert (resolved acc1 = resolved acc
            ∧ (required_ok acc → required_ok acc1)) as [Hr1 Hok1].
    { unfold acc1. case_bool_decide; [done|]. split; [done|].
      intros [Hnd Hdom]. apply add_required_ok; [|done..].
      apply elem_of_dom. by eexists. }
    destruct (resolveSkill fuel dep (chain ++ [name skill]) acc1)
      as [acc2|] eqn:E2.
    + apply IH in E2 as [Hr2 Hok2].
      apply IHdeps; [set_solver|tauto].
    + clear. induction deps as [|d deps IHd]; [done|]. exact IHd.
  - apply IHdeps; [done|done].
Qed.

Lemma size_unresolved (D X Y : gset string) : X ⊆ Y → size (D ∖ Y) ≤ size (D ∖ X).
Proof. intros. apply subseteq_size. set_solver. Qed.

Lemma size_unresolved_add (D X : gset string) n :
  n ∈ D → n ∉ X → size (D ∖ ({[n]} ∪ X)) < size (D ∖ X).
Proof. intros. apply subset_size. set_solver. Qed.

(** A stack as deep as the number of skills not yet resolved (one more
    for a root that is not among the available skills) is enough. *)
Lemma resolveSkill_total fuel skill chain st :
  size (dom (skillMap allSkills) ∖ resolved st)
  + (if decide (name skill ∈ dom (skillMap allSkills)) then 0 else 1) < fuel →
  is_Some (resolveSkill fuel skill chain st).
Proof.
  revert skill chain st.
  induction fuel as [|fuel IH]; intros skill chain st Hfuel; [lia|].
  cbn [Resolver.resolveSkill].
  case_bool_decide as Hres; [done|].
  case_bool_decide as Hin; [done|].
  destruct (manifest_of skill) as [manifest|]; [|done].
  set (st1 := RState _ _ _ _ _ ({[name skill]} ∪ resolved st)).
  set (st2 := foldl _ st1 _).
  set (st3 := match m_agent manifest with Some _ => _ | None => st2 end).
  assert (resolved st3 = {[name skill]} ∪ resolved st) as Hres3.
  { assert (resolved st2 = resolved st1) as Hr2.
    { apply (foldl_resolve_mcpServer_keeps skill st1). }
    unfold st3. destruct (m_agent manifest) as [a|]; [|done].
    by destruct (resolve_agent_keeps skill st2 a) as [_ ->]. }
  assert (size (dom (skillMap allSkills) ∖ resolved st3) < fuel) as Hm.
  { rewrite Hres3.
    destruct (decide (name skill ∈ dom (skillMap allSkills))) as [Hd|Hd].
    - pose proof (size_unresolved_add (dom (skillMap allSkills))
                    (resolved st) (name skill) Hd Hres). lia.
    - pose proof (size_unresolved (dom (skillMap allSkills)) (resolved st)
                    ({[name skill]} ∪ resolved st) ltac:(set_solver)) as Hs. lia. }
  clearbody st3. clear Hres3 st2 st1. revert Hm. generalize st3. clear st3.
  induction (default [] (m_skills manifest)) as [|depName deps IHdeps];
    intros acc Hm; cbn [foldl]; [done|].
  cbn [mbind option_bind].
  destruct (skillMap allSkills !! depName) as [dep|] eqn:Edep.
  - set (acc1 := if bool_decide _ then acc else _).
    assert (resolved acc1 = resolved acc) as Hr1
      by (unfold acc1; by case_bool_decide).
    destruct (IH dep (chain ++ [name skill]) acc1) as [acc2 E2].
    { rewrite Hr1. rewrite decide_True; [lia|].
      apply name_map_lookup in Edep as Hname. rewrite Hname.
      apply elem_of_dom. by eexists. }
    rewrite E2. apply resolveSkill_grows in E2 as [Hr2 _].
    apply IHdeps.
    pose proof (size_unresolved (dom (skillMap allSkills)) (resolved acc)
                  (resolved acc2) ltac:(by rewrite <-Hr1)) as Hs. lia.
  - by apply IHdeps.
Qed.

Lemma required_ok_length st :
  required_ok st → length (requiredSkills st) ≤ length allSkills.
Proof.
  intros [Hnd Hdom]. etrans; [|apply size_dom_name_map].
  replace (length (requiredSkills st))
    with (size (list_to_set (okeys (requiredSkills st)) : gset string)).
  - apply subseteq_size. intros k Hk. apply Hdom.
    by apply elem_of_list_to_set in Hk.
  - rewrite size_list_to_set by done. unfold okeys. by rewrite length_fmap.
Qed.

Lemma resolve_required_total steps i st :
  required_ok st → length allSkills ≤ i + steps →
  is_Some (resolve_required selectedSkills allSkills selectedAgents allAgents
             pool_mcpServers (length allSkills + 2) steps i st).
Proof.
  revert i st. induction steps as [|steps IH]; intros i st Hok Hi;
    cbn [resolve_required].
  - destruct (requiredSkills st !! i) as [e|] eqn:E; [|done].
    apply lookup_lt_Some in E.
    pose proof (required_ok_length st Hok). lia.
  - destruct (requiredSkills st !! i) as [[k requiredBy]|]; [|done].
    destruct (head requiredBy ≫= _) as [depSkill|]; [|apply IH; [done|lia]].
    cbn [mbind option_bind].
    destruct (resolveSkill_total (length allSkills + 2) depSkill [] st)
      as [st1 E1].
    { pose proof (size_dom_name_map allSkills).
      pose proof (subseteq_size (dom (skillMap allSkills) ∖ resolved st)
                    (dom (skillMap allSkills)) ltac:(set_solver)) as Hs. unfold skillMap in *.
      case_decide; lia. }
    rewrite E1. apply resolveSkill_grows in E1 as [_ Hok1].
    apply IH; [auto|lia].
Qed.

(** [resolveDependencies] returns for every input, and what it returns
    has no errors. *)
Lemma resolveDependencies_total :
  ∃ r, resolveDependencies selectedSkills allSkills selectedAgents allAgents
         pool_mcpServers = Some r
       ∧ errors r = [].
Proof.
  assert (is_Some (resolveDependencies selectedSkills allSkills
                     selectedAgents allAgents pool_mcpServers)) as [r Hr].
  { unfold resolveDependencies, resolveDependencies_within.
    set (fuel := length allSkills + 2).
    assert (∀ (l : list component) st0, required_ok st0 →
      ∃ st, foldl (λ (acc : option rstate) (skill : component),
                     st ← acc; resolveSkill fuel skill [] st) (Some st0) l
            = Some st ∧ required_ok st) as Hsel.
    { induction l as [|sk l IHl]; intros st0 Hok; cbn [foldl]; [by eauto|].
      cbn [mbind option_bind].
      destruct (resolveSkill_total fuel sk [] st0) as [st1 E1].
      { pose proof (size_dom_name_map allSkills).
        pose proof (subseteq_size (dom (skillMap allSkills) ∖ resolved st0)
                      (dom (skillMap allSkills)) ltac:(set_solver)) as Hs. unfold skillMap, fuel in *.
        case_decide; lia. }
      rewrite E1. apply resolveSkill_grows in E1 as [_ Hok1]. auto. }
    destruct (Hsel selectedSkills (RState [] [] [] [] [] ∅))
      as (st1 & -> & Hok1).
    { split; [constructor|]. by intros ? ?%elem_of_nil. }
    cbn [mbind option_bind]. unfold fuel.
    destruct (resolve_required_total (length allSkills) 0 st1)
      as [st2 ->]; [done|lia|]. done. }
  exists r. split; [done|]. by eapply resolveDependencies_no_error.
Qed.

End resolve.

End ResolverFacts.

(** ** The sync driver *)

Module HandsTheorems.
Import Detector Scenarios Tree.

(** C1, on the code. Skills [A] and [B] require each other and the user
    selects [A]: [resolveDependencies] records no error (its list of
    errors is empty, and [B] comes back as a dependency required by [A]),
    so [syncComponents] does not abort: with any digest and clock, and
    whether the user confirms or declines at the prompt, it copies [B] and
    [A] into the project and tracks both. The cycle test in
    [resolveSkill] comes after the test of [resolved], which already holds
    every name of the active chain: for every selection and every universe
    [resolveDependencies] returns, and its list of errors is empty. *)
Theorem cycle_unreported :
  Resolver.resolveDependencies [skill_A] [skill_A; skill_B] [] [] []
  = Some {| Resolver.mcpServers := [];
            Resolver.agents := [];
            Resolver.skills := [with_requiredBy skill_B ["A"]];
            Resolver.errors := [];
            Resolver.warnings := [] |}
  ∧ (∀ (R : Runtime) (b : bool),
      let sync :=
        Hands.syncComponents (H:=answering b R)
          [with_status skill_A AVAILABLE]
          {| Hands.c_skills := [with_status skill_A AVAILABLE;
                                with_status skill_B AVAILABLE];
             Hands.c_agents := []; Hands.c_hooks := [] |}
          [] cycle_world in
      sync.1 = Ok {| Hands.installed := ["A"]; Hands.updated := [];
                     Hands.removed := []; Hands.depsAdded := ["B (skill)"];
                     Hands.depsRemoved := [] |}
      ∧ log sync.2
        = [CopyTree "rules/.claude/skills/B" ".claude/skills/B"; WriteLedger;
           CopyTree "rules/.claude/skills/A" ".claude/skills/A"; WriteLedger])
  ∧ ∀ selectedSkills allSkills selectedAgents allAgents pool_mcpServers,
      ∃ r, Resolver.resolveDependencies selectedSkills allSkills
             selectedAgents allAgents pool_mcpServers = Some r
           ∧ Resolver.errors r = [].
Proof.
  split_and!.
  - by vm_compute.
  - intros R b.
    destruct R as [md5 stringify localeCompare validate clock confirm].
    cbv zeta. destruct b; by vm_compute.
  - apply ResolverFacts.resolveDependencies_total.
Qed.

(** C8, on the code. The ledger holds the auto-resolved skills [D3]
    (required by [D2]) and [D2] (required by [D1]), in this order, and the
    endpoint [M] required by [D3]; the user keeps [D1]. The single pass of
    [cleanupOrphans] over the skills meets [D3] before [D2] is in the set,
    so the retained set is {D1, D2}, and [findOrphans] flags [M], although
    [D3], which requires it, is still transitively required and is not
    flagged itself. Two runs of the tool lead there: one selecting [D2],
    then one selecting [D1] instead; the second removes [M]. *)
Theorem orphan_despite_requirer :
  let current := Hands.retained chain_ledger ["D1"] in
  current = {["D1"; "D2"]}
  ∧ Resolver.findOrphans chain_ledger current
    = {| Resolver.o_mcpServers :=
           [("M", Tracker.Tracked (Some "hm") (Some "t0")
                    "rules/.claude/mcp-servers/M.json" (Some ["D3"]))];
         Resolver.o_agents := [];
         Resolver.o_skills := [] |}
  ∧ still_required chain_ledger ["D1"] "D3"
  ∧ let run1 := Hands.run (H:=plain_runtime) chain_detected [endpoint "M"]
                  [("skills", "D2")] chain_world in
    let run2 := Hands.run (H:=plain_runtime) chain_detected [endpoint "M"]
                  [("skills", "D1")] (next_run run1.2) in
    (Hands.depsRemoved <$> (match run2.1 with Ok r => Some r | Thrown => None end))
    = Some ["M (mcp)"]
    ∧ Merger.getMcpServer "M" (configFile run2.2) = None
    ∧ (λ e : string * Tracker.tracked, (e.1, Tracker.requiredBy e.2))
        <$> Tracker.getTrackedDependencies "skills" (meta run2.2)
      = [("D3", Some ["D2"]); ("D2", Some ["D1"])]
    ∧ (λ e : string * Tracker.tracked, e.1)
        <$> Tracker.getTrackedComponents "skills" (meta run2.2)
      = ["D1"].
Proof.
  cbv zeta. split_and!.
  - by vm_compute.
  - by vm_compute.
  - eapply (required_dependency _ _ "D3" _ "D2").
    + cbn. left.
    + cbn. left.
    + eapply (required_dependency _ _ "D2" _ "D1").
      * cbn. right. left.
      * cbn. left.
      * apply required_selected. left.
  - by vm_compute.
  - by vm_compute.
  - by vm_compute.
  - by vm_compute.
Qed.

(** C9, on the code. A skill whose installed [SKILL.md] was edited
    locally is installed again: whatever the digest function,
    [installFileComponent] compares two file hashes that are both [null]
    for directories, makes no backup, and the copy replaces the edited
    file; the directory hashes of source and target are the digests of
    different contents. *)
Theorem skill_overwritten_without_backup (R : Runtime) :
  let source := "rules/.claude/skills/review" in
  let target := ".claude/skills/review" in
  let run := Hands.installFileComponent edited_skill edited_world in
  run.1 = Ok true
  ∧ log run.2 = [CopyTree source target]
  ∧ files run.2 !! (target +:+ ".local") = None
  ∧ files run.2 !! target = Some (Dir [("SKILL.md", File "new text")])
  ∧ Tracker.computeFileHash (files edited_world) source = None
  ∧ Tracker.computeFileHash (files edited_world) target = None
  ∧ Tracker.computeDirectoryHash (files edited_world) source
    = Some (md5 ("SKILL.md" +:+ Tracker.NUL +:+ "new text"))
  ∧ Tracker.computeDirectoryHash (files edited_world) target
    = Some (md5 ("SKILL.md" +:+ Tracker.NUL +:+ "local edit")).
Proof.
  destruct R as [md5 stringify localeCompare validate clock confirm].
  cbv zeta. split_and!; by vm_compute.
Qed.

(** *** What orphan detection gets right *)

Lemma stillNeeded_false info (current : gset string) :
  Resolver.stillNeeded info current = false
  ↔ ∀ s, s ∈ default [] (Tracker.requiredBy info) → s ∉ current.
Proof.
  unfold Resolver.stillNeeded. split.
  - intros Hex s Hs Hc.
    assert (existsb (λ s, bool_decide (s ∈ current))
              (default [] (Tracker.requiredBy info)) = true) as Ht; [|congruence].
    apply existsb_exists. exists s.
    split; [by apply list_elem_of_In|by apply bool_decide_eq_true_2].
  - intros Hall. apply not_true_is_false.
    intros (s & Hs & Hc)%existsb_exists.
    apply (Hall s); [by apply list_elem_of_In|].
    by apply bool_decide_eq_true_1 in Hc.
Qed.

(** An entry is flagged exactly when none of its requirers is in the set
    [findOrphans] is given. *)
Lemma orphans_of_spec metadata category (current : gset string) n info :
  (n, info) ∈ Resolver.orphans_of metadata category current
  ↔ (n, info) ∈ default [] (oget category (Tracker.resolvedDeps metadata))
    ∧ ∀ s, s ∈ default [] (Tracker.requiredBy info) → s ∉ current.
Proof.
  unfold Resolver.orphans_of. rewrite list_elem_of_filter. cbn [snd].
  rewrite <-stillNeeded_false.
  destruct (Resolver.stillNeeded info current); naive_solver.
Qed.

(** Whatever the single pass retains is still required in the spec's
    sense. *)
Lemma retained_sound metadata selected s :
  s ∈ Hands.retained metadata selected → still_required metadata selected s.
Proof.
  unfold Hands.retained.
  set (deps := default [] (oget "skills" (Tracker.resolvedDeps metadata))).
  assert (∀ l (X : gset string),
            (∀ e, e ∈ l → e ∈ deps) →
            (∀ x, x ∈ X → still_required metadata selected x) →
            ∀ x, x ∈ foldl (λ (current : gset string)
                              (e : string * Tracker.tracked),
                              if Resolver.stillNeeded e.2 current
                              then {[e.1]} ∪ current else current) X l →
                 still_required metadata selected x) as Hgen.
  { induction l as [|[n info] l IH]; intros X Hl HX x; [by apply HX|].
    cbn [foldl fst snd]. apply IH; [intros; apply Hl; by right|].
    destruct (Resolver.stillNeeded info X) eqn:E; [|done].
    intros y [->%elem_of_singleton|Hy]%elem_of_union; [|by apply HX].
    unfold Resolver.stillNeeded in E.
    apply existsb_exists in E as (r & Hr & Hc).
    apply (required_dependency _ _ n info r).
    - apply Hl. left.
    - by apply list_elem_of_In.
    - apply HX. by apply bool_decide_eq_true_1 in Hc. }
  apply Hgen; [done|]. intros x Hx. apply required_selected.
  by apply elem_of_list_to_set in Hx.
Qed.

(** A dependency whose only requirer is no longer required is flagged. *)
Lemma sole_requirer_flagged metadata selected category Z info X :
  (Z, info) ∈ default [] (oget category (Tracker.resolvedDeps metadata)) →
  Tracker.requiredBy info = Some [X] →
  ¬ still_required metadata selected X →
  (Z, info) ∈ Resolver.orphans_of metadata category
                (Hands.retained metadata selected).
Proof.
  intros Hin Hreq HX. apply orphans_of_spec. split; [done|].
  rewrite Hreq. intros s ->%list_elem_of_singleton Hs.
  by apply HX, retained_sound.
Qed.

(** *** Running the same selection again *)

Lemma oset_id {V} k (v : V) (o : obj V) : oget k o = Some v → oset k v o = o.
Proof.
  induction o as [|[k' v'] o IH]; [done|]. cbn [oget oset].
  destruct (String.eqb k' k); [by intros [= ->]|]. intros. by rewrite IH.
Qed.

(** Merging the handlers of an event a second time changes nothing. *)
Lemma foldl_merge_handler_idem hookName l hs :
  foldl (Merger.merge_handler hookName)
    (foldl (Merger.merge_handler hookName) l hs) hs
  = foldl (Merger.merge_handler hookName) l hs.
Proof.
  destruct (decide (hs = [])) as [->|Hne]; [done|].
  destruct (exists_last Hne) as (hs' & h & ->).
  rewrite (MergerFacts.foldl_merge_handler hookName l).
  destruct (Merger.findIndex _ l) as [i|] eqn:E.
  - apply MergerFacts.findIndex_Some_split in E
      as (l1 & x & l2 & -> & <- & Hx & Hl1).
    rewrite insert_app_r_alt, Nat.sub_diag by done. cbn [insert list_insert].
    apply MergerFacts.foldl_merge_handler_found; [done|].
    apply MergerFacts.has_marker_markedHandler_same.
  - apply MergerFacts.findIndex_None in E.
    apply (MergerFacts.foldl_merge_handler_found hookName l _ []); [done|].
    apply MergerFacts.has_marker_markedHandler_same.
Qed.

(** X23. Merging the same configuration a second time changes nothing:
    when [mergeHook] returns, calling it again with the same hook name and
    configuration on the document it wrote returns too and writes the
    same document. *)
Theorem mergeHook_twice hookName hookConfig f f1 :
  Merger.mergeHook hookName hookConfig f = Some f1 →
  Merger.mergeHook hookName hookConfig f1 = Some f1.
Proof.
  intros Hm.
  destruct (MergerFacts.getHooks_mergeHook _ _ _ _ Hm)
    as (es & Hes & Hev & Hrest).
  pose proof (MergerFacts.NoDup_okeys_entries _ _ Hes) as Hnd.
  set (reg0 := Merger.getHooks f) in *. set (reg1 := Merger.getHooks f1) in *.
  assert (f1 = Parsed {| hooks := Some reg1;
                         settings_rest := settings_rest (Merger.readSettings f) |})
    as Hf1.
  { unfold reg1. unfold Merger.mergeHook in Hm. rewrite Hes in Hm.
    cbn [mbind option_bind] in Hm.
    destruct (Merger.merge_events _ _ es); [|done]. by injection Hm as <-. }
  assert (∀ entry, entry ∈ es →
            Merger.merge_event hookName reg1 entry = Some reg1) as Hid.
  { intros [e handlers] Hin.
    assert (oget e es = Some handlers) as He by by apply oget_NoDup.
    pose proof (MergerFacts.oget_merge_events hookName es Hnd reg0 reg1 e Hev)
      as Hreg1.
    rewrite He in Hreg1. rewrite MergerFacts.merge_event_cases.
    destruct (decide (Handlers.shadowed reg0 e)) as [Hs|Hs].
    - rewrite decide_True by (split; [done|apply Hs]).
      rewrite decide_True; [done|].
      by eapply (MergerFacts.merge_events_shadowed hookName es).
    - rewrite decide_False by (intros [Hn _]; congruence).
      rewrite Hreg1. cbn [default from_option id].
      rewrite foldl_merge_handler_idem. f_equal. by apply oset_id. }
  unfold Merger.mergeHook. rewrite Hes. cbn [mbind option_bind].
  assert (Merger.merge_events hookName
            (default [] (hooks (Merger.readSettings f1))) es = Some reg1) as ->.
  { change (default [] (hooks (Merger.readSettings f1))) with reg1.
    clear Hes Hev Hnd. clearbody reg1.
    induction es as [|entry es IH]; [done|].
    cbn [Merger.merge_events]. rewrite Hid by left.
    cbn [mbind option_bind]. apply IH. intros. apply Hid. by right. }
  cbn [mbind option_bind]. rewrite Hf1 at 2. do 3 f_equal.
  by rewrite Hf1.
Qed.

Section again.
Context `{R : Runtime}.

Lemma length_append (a b : string) :
  String.length (a +:+ b) = String.length a + String.length b.
Proof.
  induction a as [|c a IH]; [done|].
  change (S (String.length (a +:+ b))
          = S (String.length a + String.length b)).
  by rewrite IH.
Qed.

Lemma append_local_ne (p : string) : p ≠ p +:+ ".local".
Proof.
  intros Heq. apply (f_equal String.length) in Heq.
  rewrite length_append in Heq. cbn in Heq. lia.
Qed.

(** A single file that differs from its source is copied aside before
    it is overwritten. *)
Lemma file_backed_up c content local w :
  files w !! sourcePath c = Some (File content) →
  files w !! targetPath c = Some (File local) →
  md5 content ≠ md5 local →
  sourcePath c ≠ targetPath c +:+ ".local" →
  basename (sourcePath c) ≠ "manifest.json" →
  (∀ es, files w !! (targetPath c +:+ ".local") ≠ Some (Dir es)) →
  ∃ w', Hands.installFileComponent c w = (Ok true, w')
        ∧ log w' = log w ++ [CopyTree (targetPath c) (targetPath c +:+ ".local");
                             CopyTree (sourcePath c) (targetPath c)]
        ∧ files w' !! (targetPath c +:+ ".local") = Some (File local)
        ∧ files w' !! targetPath c = Some (File content).
Proof.
  intros Hsrc Htgt Hdiff Hsb Hbase Hbak.
  unfold Hands.installFileComponent, Hands.ensureDir.
  unfold bind, get, ret. cbn [fst snd]. unfold StatusResolver.resolve.
  unfold pathExists. rewrite Hsrc, Htgt. rewrite !bool_decide_true by done.
  cbn [negb]. unfold Tracker.computeFileHash, readFile. rewrite Hsrc, Htgt.
  unfold Tracker.computeHash. rewrite bool_decide_true by congruence.
  unfold Hands.copy at 1. unfold bind, get, modify. cbn [fst snd].
  rewrite Htgt. cbn [negb].
  assert (copy_node (λ _, true) (File local)
            (files w !! (targetPath c +:+ ".local")) = Some (File local))
    as ->.
  { destruct (files w !! (targetPath c +:+ ".local")) as [[b|es]|] eqn:Eb;
      [done|by destruct (Hbak es)|done]. }
  cbn [fst snd]. unfold Hands.copy, bind, get, modify, ret. cbn [fst snd].
  cbn [files logged set_files].
  rewrite lookup_insert_ne by done. rewrite Hsrc.
  apply String.eqb_neq in Hbase as ->. cbn [negb].
  rewrite lookup_insert_ne by apply not_eq_sym, append_local_ne.
  rewrite Htgt. cbn [copy_node fst snd].
  eexists. split; [reflexivity|]. cbn [log files logged set_files].
  split_and!.
  - by rewrite <-app_assoc.
  - rewrite lookup_insert_ne by apply append_local_ne.
    apply lookup_insert_eq.
  - apply lookup_insert_eq.
Qed.

(** Installing a single-file component makes it [installed]. *)
Lemma installFileComponent_file c content w :
  category c ≠ "skills" →
  files w !! sourcePath c = Some (File content) →
  sourcePath c ≠ targetPath c →
  sourcePath c ≠ targetPath c +:+ ".local" →
  basename (sourcePath c) ≠ "manifest.json" →
  (∀ es, files w !! targetPath c ≠ Some (Dir es)) →
  (∀ es, files w !! (targetPath c +:+ ".local") ≠ Some (Dir es)) →
  ∃ w', Hands.installFileComponent c w = (Ok true, w')
        ∧ StatusResolver.getFileBasedStatus w' c = INSTALLED.
Proof.
  intros Hcat Hsrc Hst Hsb Hbase Htgt Hbak.
  assert (∀ fs, fs !! sourcePath c = Some (File content) →
     (∀ es, fs !! targetPath c ≠ Some (Dir es)) →
     ∀ w0, files w0 = fs →
     ∃ w', Hands.copy (λ base, negb (String.eqb base "manifest.json"))
             (sourcePath c) (StatusResolver.resolve (targetPath c)) w0
           = (Ok tt, w')
           ∧ files w' = <[targetPath c := File content]> fs) as Hcopy.
  { intros fs Hs Ht w0 Hw0. unfold Hands.copy, bind, get, modify.
    cbn [fst snd]. rewrite Hw0, Hs.
    apply String.eqb_neq in Hbase as ->. cbn [negb].
    unfold StatusResolver.resolve.
    destruct (fs !! targetPath c) as [[t|es]|] eqn:Et;
      [| by destruct (Ht es) |]; cbn [copy_node];
      (eexists; split; [reflexivity|]); cbn [files logged set_files];
      by rewrite Hw0. }
  assert (∀ w', files w' = <[targetPath c := File content]> (files w)
                ∨ files w' = <[targetPath c := File content]>
                               (<[targetPath c +:+ ".local" :=
                                    default (File "") (files w !! targetPath c)]>
                                  (files w)) →
     StatusResolver.getFileBasedStatus w' c = INSTALLED) as Hstatus.
  { intros w' Hw'.
    assert (files w' !! targetPath c = Some (File content)) as Ht'
      by (destruct Hw' as [-> | ->]; apply lookup_insert_eq).
    assert (files w' !! sourcePath c = Some (File content)) as Hs'.
    { destruct Hw' as [-> | ->].
      - by rewrite lookup_insert_ne.
      - by rewrite !lookup_insert_ne. }
    unfold StatusResolver.getFileBasedStatus, StatusResolver.resolve,
      StatusResolver.hashFn, pathExists, Tracker.computeFileHash, readFile.
    apply String.eqb_neq in Hcat as ->. rewrite Ht', Hs'.
    rewrite bool_decide_true by done. cbn [negb].
    by rewrite bool_decide_true. }
  unfold Hands.installFileComponent, Hands.ensureDir.
  unfold bind, get, ret. cbn [fst snd]. unfold pathExists at 1. rewrite Hsrc.
  rewrite bool_decide_true by done. cbn [negb].
  unfold StatusResolver.resolve in *.
  unfold pathExists. destruct (files w !! targetPath c) as [tn|] eqn:Et.
  - rewrite bool_decide_true by done.
    destruct tn as [t|es]; [|by destruct (Htgt es)].
    unfold Tracker.computeFileHash, readFile. rewrite Hsrc, Et.
    case_bool_decide as Hdiff.
    + unfold Hands.copy at 1. unfold bind, get, modify. cbn [fst snd].
      rewrite Et. cbn [negb].
      destruct (files w !! (targetPath c +:+ ".local")) as [[b|es]|] eqn:Eb;
        [|by destruct (Hbak es)|]; cbn [copy_node fst snd]; unfold ret;
        cbn [fst snd].
      * edestruct (Hcopy (<[targetPath c +:+ ".local" := File t]> (files w)))
          as (w' & -> & Hw'); [by rewrite lookup_insert_ne| |reflexivity|].
        { intros es. rewrite lookup_insert_ne by apply not_eq_sym, append_local_ne.
          by rewrite Et. }
        eexists. split; [reflexivity|]. apply Hstatus. right. exact Hw'.
      * edestruct (Hcopy (<[targetPath c +:+ ".local" := File t]> (files w)))
          as (w' & -> & Hw'); [by rewrite lookup_insert_ne| |reflexivity|].
        { intros es. rewrite lookup_insert_ne by apply not_eq_sym, append_local_ne.
          by rewrite Et. }
        eexists. split; [reflexivity|]. apply Hstatus. right. exact Hw'.
    + edestruct (Hcopy (files w)) as (w' & -> & Hw'); [done| |reflexivity|].
      { intros es. by rewrite Et. }
      eexists. split; [reflexivity|]. apply Hstatus. by left.
  - rewrite bool_decide_false by (by intros [? [=]]).
    edestruct (Hcopy (files w)) as (w' & -> & Hw'); [done| |reflexivity|].
    { intros es. by rewrite Et. }
    eexists. split; [reflexivity|]. apply Hstatus. by left.
Qed.

(** X24. Installing a single-file component (an agent) whose source is
    a file, the target and its [.local] neighbour being files or missing:
    [installFileComponent] returns true and the status of the component
    is then installed; when the target held a file whose digest differs
    from that of the source, the target is first copied to [target.local],
    which then holds the earlier content, and the copy of the source
    follows. *)
Theorem synced_file_is_installed c content w :
  category c ≠ "skills" →
  files w !! sourcePath c = Some (File content) →
  sourcePath c ≠ targetPath c →
  sourcePath c ≠ targetPath c +:+ ".local" →
  basename (sourcePath c) ≠ "manifest.json" →
  (∀ es, files w !! targetPath c ≠ Some (Dir es)) →
  (∀ es, files w !! (targetPath c +:+ ".local") ≠ Some (Dir es)) →
  (∃ w', Hands.installFileComponent c w = (Ok true, w')
         ∧ StatusResolver.getFileBasedStatus w' c = INSTALLED)
  ∧ (∀ local,
       files w !! targetPath c = Some (File local) →
       md5 content ≠ md5 local →
       ∃ w', Hands.installFileComponent c w = (Ok true, w')
             ∧ log w'
               = log w ++ [CopyTree (targetPath c) (targetPath c +:+ ".local");
                           CopyTree (sourcePath c) (targetPath c)]
             ∧ files w' !! (targetPath c +:+ ".local") = Some (File local)
             ∧ files w' !! targetPath c = Some (File content)).
Proof.
  intros Hcat Hsrc Hst Hsb Hbase Htgt Hbak. split.
  - by apply (installFileComponent_file c content).
  - intros local Hlocal Hdiff. by apply file_backed_up.
Qed.

End again.

Lemma mergeHook_twice_witness :
  ∃ f1, Merger.mergeHook "say-done" (config say_done) Absent = Some f1
        ∧ Merger.mergeHook "say-done" (config say_done) f1 = Some f1.
Proof.
  eexists. split; [reflexivity|].
  exact (mergeHook_twice "say-done" (config say_done) Absent _ eq_refl).
Defined.

Lemma synced_file_is_installed_witness :
  ∃ w', Hands.installFileComponent (H:=plain_runtime) critic critic_world
        = (Ok true, w')
        ∧ StatusResolver.getFileBasedStatus (H:=plain_runtime) w' critic
          = INSTALLED.
Proof.
  destruct (synced_file_is_installed (R:=plain_runtime) critic
              "You are a critic." critic_world) as [Hinstall _];
    [by vm_compute..|intros es; by vm_compute|intros es; by vm_compute|].
  exact Hinstall.
Defined.

(** C4, on the code. The user ticks the skill [deploy], whose manifest
    requires the skill [review], and ticks the same in the next run. The
    first run leaves both installed. The second run is not free of writes
    and does not leave what is installed as it was: it copies [review]
    again and records the dependency again, and then the pass that removes
    the unselected components finds [review] installed and not selected,
    and deletes it; the ledger goes on listing it as a dependency of
    [deploy], and its status is back to available. A selected hook, for
    its part, is merged and tracked again on every run, although the first
    run left it installed. *)
Theorem second_run_undoes_dependency :
  let after_first := next_run deploy_first_run.2 in
  StatusResolver.getComponentStatus (H:=plain_runtime) after_first skill_deploy
  = INSTALLED
  ∧ StatusResolver.getComponentStatus (H:=plain_runtime) after_first
      skill_review
    = INSTALLED
  ∧ deploy_second_run.1
    = Ok {| Hands.installed := []; Hands.updated := [];
            Hands.removed := ["review"];
            Hands.depsAdded := ["review (skill)"];
            Hands.depsRemoved := [] |}
  ∧ log deploy_second_run.2
    = [CopyTree "rules/.claude/skills/review" ".claude/skills/review";
       WriteLedger; RemoveTree ".claude/skills/review"; WriteLedger]
  ∧ files after_first !! ".claude/skills/review"
    = Some (Dir [("SKILL.md", File "Review the diff.")])
  ∧ files deploy_second_run.2 !! ".claude/skills/review" = None
  ∧ StatusResolver.getComponentStatus (H:=plain_runtime) deploy_second_run.2
      skill_review
    = AVAILABLE
  ∧ (λ e : string * Tracker.tracked, (e.1, Tracker.requiredBy e.2))
      <$> Tracker.getTrackedDependencies "skills" (meta deploy_second_run.2)
    = [("review", Some ["deploy"])]
  ∧ StatusResolver.getComponentStatus (H:=plain_runtime) hook_first_run.2
      say_done
    = INSTALLED
  ∧ log hook_second_run.2 = [WriteSettings; WriteLedger].
Proof. cbv zeta. split_and!; by vm_compute. Qed.

(** C3, on the code. The user ticks the skill [deploy], whose manifest
    requires the skill [review]: the first run records [deploy] as a
    direct selection and [review] as a dependency. The source of [review]
    is then edited, so it is outdated, and its box is ticked when the list
    opens; the user accepts the list. [syncComponents] installs [review]
    again as a selected skill and calls [trackInstall] for it, while the
    entry of [review] among the dependencies stays (it is still required by
    [deploy]): the pair (skills, review) is in both maps of the persisted
    ledger. The tracker never looks at the other map: [trackInstall] of a
    pair that is a dependency, and [trackDependency] of a pair that is a
    direct selection, always leave the pair in both. *)
Theorem selection_tracked_twice :
  okeys (Tracker.getTrackedComponents "skills" (meta deploy_first_run.2))
  = ["deploy"]
  ∧ okeys (Tracker.getTrackedDependencies "skills" (meta deploy_first_run.2))
    = ["review"]
  ∧ StatusResolver.getComponentStatus (H:=plain_runtime) review_edited
      skill_review
    = OUTDATED
  ∧ Hands.shouldBeChecked (with_status skill_review OUTDATED) = true
  ∧ deploy_checked_run.1
    = Ok {| Hands.installed := []; Hands.updated := ["review"];
            Hands.removed := []; Hands.depsAdded := [];
            Hands.depsRemoved := [] |}
  ∧ okeys (Tracker.getTrackedComponents "skills" (meta deploy_checked_run.2))
    = ["deploy"; "review"]
  ∧ okeys (Tracker.getTrackedDependencies "skills" (meta deploy_checked_run.2))
    = ["review"]
  ∧ Ledger.direct (meta deploy_checked_run.2) "skills" "review"
  ∧ Ledger.auto (meta deploy_checked_run.2) "skills" "review"
  ∧ ¬ Ledger.exclusive (meta deploy_checked_run.2)
  ∧ (∀ f c n s h t,
       Ledger.auto f c n →
       Ledger.direct (Tracker.trackInstall c n s h t f) c n
       ∧ Ledger.auto (Tracker.trackInstall c n s h t f) c n)
  ∧ (∀ f c n h s r t,
       Ledger.direct f c n →
       Ledger.direct (Tracker.trackDependency c n h s r t f) c n
       ∧ Ledger.auto (Tracker.trackDependency c n h s r t f) c n).
Proof.
  assert (Ledger.direct (meta deploy_checked_run.2) "skills" "review") as Hd.
  { unfold Ledger.direct. vm_compute. by eexists. }
  assert (Ledger.auto (meta deploy_checked_run.2) "skills" "review") as Ha.
  { unfold Ledger.auto. vm_compute. by eexists. }
  split_and!; try done; try by vm_compute.
  - intros Hex. by apply (Hex "skills" "review").
  - intros f c n s h t Hauto. unfold Ledger.direct, Ledger.auto in *.
    rewrite TrackerFacts.components_trackInstall,
      TrackerFacts.resolvedDeps_trackInstall.
    rewrite decide_True by done. by rewrite oget_oset_eq.
  - intros f c n h s r t Hdirect. unfold Ledger.direct, Ledger.auto in *.
    rewrite TrackerFacts.components_trackDependency,
      TrackerFacts.resolvedDeps_trackDependency.
    rewrite decide_True by done. by rewrite oget_oset_eq.
Qed.

End HandsTheorems.

(** ** The ledger: round trips and frames *)

Module LedgerFacts.
Import Tracker Ledger Shape TrackerFacts.

(** Two objects with the same keys in the same order and the same value
    under every key are the same object. *)
Lemma obj_ext {V} (x y : obj V) :
  NoDup (okeys y) → okeys x = okeys y → (∀ k, oget k x = oget k y) → x = y.
Proof.
  unfold okeys. revert y.
  induction x as [|[k v] x IH]; intros [|[k' v'] y]; try done.
  rewrite !fmap_cons. cbn [fst oget].
  intros [Hk Hnd]%NoDup_cons [= -> Hkeys] Hget.
  pose proof (Hget k') as Hv. rewrite String.eqb_refl in Hv.
  injection Hv as ->. f_equal. apply IH; [done..|].
  intros k. destruct (decide (k = k')) as [->|Hne].
  - assert (oget k' y = None) as -> by by apply oget_None_keys.
    apply oget_None_keys. unfold okeys. by rewrite Hkeys.
  - specialize (Hget k). apply String.eqb_neq in Hne.
    by rewrite String.eqb_sym, Hne in Hget.
Qed.

Lemma filter_ext_in {A} (P Q : A → Prop) `{!∀ x, Decision (P x)}
    `{!∀ x, Decision (Q x)} (l : list A) :
  (∀ x, x ∈ l → P x ↔ Q x) → filter P l = filter Q l.
Proof.
  induction l as [|x l IH]; [done|]. intros Hl. rewrite !filter_cons.
  rewrite IH by (intros; apply Hl; by right).
  destruct (decide (P x)) as [HP|HP], (decide (Q x)) as [HQ|HQ]; try done;
    apply Hl in HP || apply Hl in HQ; done || left.
Qed.

Lemma filter_all {A} (P : A → Prop) `{!∀ x, Decision (P x)} (l : list A) :
  Forall P l → filter P l = l.
Proof.
  induction 1 as [|x l HP _ IH]; [done|].
  by rewrite filter_cons, decide_True, IH.
Qed.

Lemma filter_none {A} (P : A → Prop) `{!∀ x, Decision (P x)} (l : list A) :
  Forall (λ x, ¬ P x) l → filter P l = [].
Proof.
  induction 1 as [|x l HP _ IH]; [done|].
  by rewrite filter_cons, decide_False.
Qed.

Lemma okeys_oset_prefix {V} k (v : V) (o : obj V) :
  okeys o `prefix_of` okeys (oset k v o).
Proof. rewrite okeys_oset. case_decide; [done|]. by apply prefix_app_r. Qed.

Lemma okeys_ospread_prefix {V} (a b : obj V) :
  okeys a `prefix_of` okeys (ospread a b).
Proof.
  unfold ospread. revert a. induction b as [|[k v] b IH]; simpl; [done|].
  intros a. etrans; [apply (okeys_oset_prefix k v)|apply IH].
Qed.

Lemma okeys_ospread {V} (a b : obj V) :
  NoDup (okeys b) →
  okeys (ospread a b) = okeys a ++ filter (λ k, k ∉ okeys a) (okeys b).
Proof.
  unfold ospread. revert a.
  induction b as [|[k v] b IH]; intros a; simpl.
  - intros _. by rewrite app_nil_r.
  - intros [Hk Hnd]%NoDup_cons. rewrite IH by done.
    rewrite okeys_oset, filter_cons. case_decide as Hin.
    + by rewrite decide_False by (by intros ?).
    + rewrite decide_True by done. rewrite <-app_assoc. f_equal. simpl.
      f_equal. apply filter_ext_in.
      intros x Hx. rewrite elem_of_app, list_elem_of_singleton.
      split; [naive_solver|]. intros ? [?| ->]; done.
Qed.

Lemma ospread_id {V} (a b : obj V) :
  NoDup (okeys b) → okeys a `prefix_of` okeys b → ospread a b = b.
Proof.
  intros Hnd [rest Hrest]. apply obj_ext; [done| |].
  - rewrite okeys_ospread, Hrest by done. f_equal.
    rewrite Hrest in Hnd. apply NoDup_app in Hnd as (_ & Hdisj & _).
    rewrite filter_app, filter_none, filter_all; [done| |].
    + apply Forall_forall. intros x Hx Hin. by apply (Hdisj x).
    + apply Forall_forall. intros x Hx Hn. done.
  - intros k. rewrite oget_ospread by done.
    destruct (oget k b) eqn:E; [done|].
    apply oget_None_keys in E. apply oget_None_keys.
    intros Hin. apply E. rewrite Hrest. apply elem_of_app. by left.
Qed.

Lemma canonical_readMetadata f : canonical (readMetadata f).
Proof.
  destruct (readMetadata_wf f) as (Hc & Hd & _).
  split_and!; [done..| |]; destruct f as [| |data]; try done;
    apply okeys_ospread_prefix.
Qed.

Lemma read_write_id l : canonical l → readMetadata (writeMetadata l) = l.
Proof.
  intros (Hc & Hd & Hpc & Hpd). destruct l as [v i c d e].
  unfold writeMetadata, readMetadata. simpl in *.
  by rewrite !ospread_id.
Qed.



Lemma oget_components_trackUninstall c n f c' :
  oget c' (components (readMetadata (trackUninstall c n f)))
  = if decide (c = c')
    then odel n <$> oget c (components (readMetadata f))
    else oget c' (components (readMetadata f)).
Proof.
  unfold trackUninstall.
  destruct (readMetadata_wf f) as (Hc & Hd & Hcomp).
  destruct (okeys_delete_category (components (readMetadata f)) c n)
    as [Hsub Hnd].
  rewrite read_write_components.
  - cbn [components].
    destruct (oget c (components (readMetadata f))) as [d|] eqn:E.
    + rewrite oget_oset. by case_decide.
    + case_decide; [by subst; rewrite E|done].
  - split_and!; simpl; [by apply Hnd|done|].
    eapply complete_mono; [..|exact Hcomp]; simpl; [exact Hsub|done].
Qed.

Lemma oget_resolvedDeps_trackUninstall c n f c' :
  oget c' (resolvedDeps (readMetadata (trackUninstall c n f)))
  = oget c' (resolvedDeps (readMetadata f)).
Proof.
  unfold trackUninstall.
  destruct (readMetadata_wf f) as (Hc & Hd & Hcomp).
  destruct (okeys_delete_category (components (readMetadata f)) c n)
    as [Hsub Hnd].
  rewrite read_write_resolvedDeps; [done|].
  split_and!; simpl; [by apply Hnd|done|].
  eapply complete_mono; [..|exact Hcomp]; simpl; [exact Hsub|done].
Qed.

(** [getTrackedInfo] under a name [Object.prototype] has no member for:
    the entry among the direct selections, else the one among the
    dependencies. *)
Lemma getTrackedInfo_lookup c n f :
  n ∉ prototype_names →
  getTrackedInfo c n f
  = Own <$> match oget n (getTrackedComponents c f) with
            | Some t => Some t
            | None => oget n (getTrackedDependencies c f)
            end.
Proof.
  intros Hn. unfold getTrackedInfo, getTrackedComponents, getTrackedDependencies.
  destruct (oget c (components (readMetadata f))) as [d|],
    (oget c (resolvedDeps (readMetadata f))) as [d'|];
    cbn [mbind option_bind default from_option id oget];
    rewrite ?(oread_plain _ _ Hn); try done;
    by destruct (oget n d).
Qed.

(** A direct selection is found under any name. *)
Lemma getTrackedInfo_direct c n f t :
  oget n (getTrackedComponents c f) = Some t →
  getTrackedInfo c n f = Some (Own t).
Proof.
  unfold getTrackedInfo, getTrackedComponents.
  destruct (oget c (components (readMetadata f))) as [d|]; [|done].
  cbn [mbind option_bind default from_option id]. intros Hd.
  by rewrite (oread_own _ _ _ Hd).
Qed.

Lemma odel_id {V} k (o : obj V) : oget k o = None → odel k o = o.
Proof.
  induction o as [|[k' v'] o IH]; simpl; [done|].
  destruct (String.eqb k' k); [done|]. intros. by rewrite IH.
Qed.

Lemma oset_same {V} k (v : V) (o : obj V) : oget k o = Some v → oset k v o = o.
Proof.
  induction o as [|[k' v'] o IH]; simpl; [done|].
  destruct (String.eqb k' k); [by intros [= ->]|]. intros. by rewrite IH.
Qed.

End LedgerFacts.

Module LedgerRoundTrips.
Import Tracker Ledger Shape TrackerFacts LedgerFacts.


(** X2. [trackUninstall] removes the pair from the direct selections
    only. Under a name [Object.prototype] has no member for,
    [getTrackedInfo] then answers with the entry the pair has as an
    auto-resolved dependency, if any, so a component that is both stays
    tracked. Under the name of such a member (in a category of the direct
    selections) it answers with the inherited member, whatever the
    dependencies hold, and [isTracked] is true. Other pairs read as
    before; uninstalling a pair that is not a direct selection writes the
    ledger back as it was read; and uninstalling what was just installed
    gives back the earlier selections. *)
Theorem trackUninstall_falls_back (c n : string) (f : meta_file) :
  oget n (getTrackedComponents c (trackUninstall c n f)) = None
  ∧ (n ∉ prototype_names →
     getTrackedInfo c n (trackUninstall c n f)
     = Own <$> oget n (getTrackedDependencies c f))
  ∧ (n ∈ prototype_names →
     is_Some (oget c (components (readMetadata f))) →
     getTrackedInfo c n (trackUninstall c n f) = Some (Inherited n)
     ∧ isTracked c n (trackUninstall c n f) = true)
  ∧ (∀ c' n', (c', n') ≠ (c, n) →
       getTrackedInfo c' n' (trackUninstall c n f) = getTrackedInfo c' n' f)
  ∧ (oget n (getTrackedComponents c f) = None →
     trackUninstall c n f = writeMetadata (readMetadata f))
  ∧ (oget n (getTrackedComponents c f) = None →
     ∀ s h t c' n',
       oget n' (getTrackedComponents c'
                  (trackUninstall c n (trackInstall c n s h t f)))
       = oget n' (getTrackedComponents c' f)).
Proof.
  assert (oget n (getTrackedComponents c (trackUninstall c n f)) = None)
    as Hgone.
  { rewrite components_trackUninstall, decide_True by done.
    apply oget_odel_eq. }
  split_and!; [done| | | | |].
  - intros Hn.
    by rewrite getTrackedInfo_lookup, Hgone, resolvedDeps_trackUninstall.
  - intros Hn [d Hd].
    assert (getTrackedInfo c n (trackUninstall c n f) = Some (Inherited n))
      as Hget.
    { unfold getTrackedInfo. rewrite oget_components_trackUninstall.
      rewrite decide_True by done. rewrite Hd.
      cbn [fmap option_fmap option_map mbind option_bind].
      by rewrite oread_odel_eq, bool_decide_true. }
    split; [done|]. unfold isTracked. rewrite Hget.
    by apply bool_decide_eq_true.
  - intros c' n' Hne. unfold getTrackedInfo.
    rewrite oget_components_trackUninstall, oget_resolvedDeps_trackUninstall.
    case_decide as Hc; [subst c'|done].
    assert (n ≠ n') as Hn by (by intros ->).
    destruct (oget c (components (readMetadata f))) as [d|]; [|done].
    cbn [fmap option_fmap option_map mbind option_bind].
    by rewrite oread_odel_ne.
  - unfold getTrackedComponents, trackUninstall. intros Hn. f_equal.
    destruct (readMetadata f) as [v i comps deps e]. simpl in *. f_equal.
    destruct (oget c comps) as [d|] eqn:E; [|done]. simpl in Hn.
    rewrite odel_id by done. by apply oset_same.
  - intros Hn s h t c' n'.
    rewrite components_trackUninstall, !components_trackInstall.
    case_decide as Hc; [subst c'|done]. rewrite decide_True by done.
    destruct (decide (n = n')) as [<-|Hne].
    + by rewrite oget_odel_eq.
    + by rewrite oget_odel_ne, oget_oset_ne.
Qed.

(** X3. The two halves of the ledger are changed independently:
    recording or removing a dependency never changes a direct selection,
    recording or removing a direct selection never changes a dependency,
    and no mutation changes the version, the [installedBy] tag or a
    top-level key the schema does not name (a ledger of an older version
    keeps its version number). *)
Theorem mutations_are_framed (f : meta_file) :
  (∀ c n h s r t c',
     getTrackedComponents c' (trackDependency c n h s r t f)
     = getTrackedComponents c' f)
  ∧ (∀ c n c',
       getTrackedComponents c' (removeDependency c n f)
       = getTrackedComponents c' f)
  ∧ (∀ c n s h t c',
       getTrackedDependencies c' (trackInstall c n s h t f)
       = getTrackedDependencies c' f)
  ∧ (∀ c n c',
       getTrackedDependencies c' (trackUninstall c n f)
       = getTrackedDependencies c' f)
  ∧ ∀ m : mutation,
      version (readMetadata (apply f m)) = version (readMetadata f)
      ∧ installedBy (readMetadata (apply f m)) = installedBy (readMetadata f)
      ∧ extra (readMetadata (apply f m)) = extra (readMetadata f).
Proof.
  split_and!.
  - intros. apply components_trackDependency.
  - intros. apply components_removeDependency.
  - intros. apply resolvedDeps_trackInstall.
  - intros. apply resolvedDeps_trackUninstall.
  - by intros [].
Qed.

(** X4. Writing a ledger and reading it back is the identity on the
    ledgers the tracker holds in memory, and [readMetadata] only returns
    such ledgers: reading, writing what was read, and reading again gives
    the same ledger (for a missing or unreadable file, the empty one). *)
Theorem ledger_round_trip :
  (∀ f, canonical (readMetadata f))
  ∧ (∀ l, canonical l → readMetadata (writeMetadata l) = l)
  ∧ (∀ f, readMetadata (writeMetadata (readMetadata f)) = readMetadata f)
  ∧ readMetadata (writeMetadata (readMetadata Unparsable))
    = createEmptyMetadata.
Proof.
  split_and!.
  - apply canonical_readMetadata.
  - apply read_write_id.
  - intros f. apply read_write_id, canonical_readMetadata.
  - apply (read_write_id createEmptyMetadata), (canonical_readMetadata Absent).
Qed.

(** X5. [removeDependency] forgets the dependency and nothing else;
    removing a pair that is not a dependency writes the ledger back as it
    was read; and removing a dependency that was just recorded for the
    first time gives back the earlier dependencies. *)
Theorem removeDependency_forgets (c n : string) (f : meta_file) :
  oget n (getTrackedDependencies c (removeDependency c n f)) = None
  ∧ (∀ c' n', (c', n') ≠ (c, n) →
       oget n' (getTrackedDependencies c' (removeDependency c n f))
       = oget n' (getTrackedDependencies c' f))
  ∧ (oget n (getTrackedDependencies c f) = None →
     removeDependency c n f = writeMetadata (readMetadata f))
  ∧ (oget n (getTrackedDependencies c f) = None →
     ∀ h s r t c' n',
       oget n' (getTrackedDependencies c'
                  (removeDependency c n (trackDependency c n h s r t f)))
       = oget n' (getTrackedDependencies c' f)).
Proof.
  split_and!.
  - rewrite resolvedDeps_removeDependency, decide_True by done.
    apply oget_odel_eq.
  - intros c' n' Hne. rewrite resolvedDeps_removeDependency.
    case_decide as Hc; [subst c'|done].
    rewrite oget_odel_ne; [done|]. intros ->. done.
  - unfold getTrackedDependencies, removeDependency. intros Hn. f_equal.
    destruct (readMetadata f) as [v i comps deps e]. simpl in *. f_equal.
    destruct (oget c deps) as [d|] eqn:E; [|done]. simpl in Hn.
    rewrite odel_id by done. by apply oset_same.
  - intros Hn h s r t c' n'.
    rewrite resolvedDeps_removeDependency, !resolvedDeps_trackDependency.
    case_decide as Hc; [subst c'|done]. rewrite decide_True by done.
    destruct (decide (n = n')) as [<-|Hne].
    + by rewrite oget_odel_eq.
    + by rewrite oget_odel_ne, oget_oset_ne.
Qed.

End LedgerRoundTrips.

(** ** The two shared documents: round trips *)

Module DocumentFacts.
Import Merger Registry Handlers MergerFacts LedgerFacts.
Local Open Scope nat_scope.

Lemma others_merge_handler hookName l handler :
  others hookName (merge_handler hookName l handler) = others hookName l.
Proof.
  unfold merge_handler, others.
  destruct (findIndex (has_marker hookName) l) as [i|] eqn:E.
  - apply findIndex_Some_split in E as (l1 & x & l2 & -> & <- & Hx & _).
    rewrite insert_app_r_alt, Nat.sub_diag by done. cbn [insert list_insert].
    rewrite !filter_app, !filter_cons.
    rewrite !decide_False; [done|..]; intros Hn; apply Hn, Is_true_true;
      [done|apply has_marker_markedHandler_same].
  - rewrite filter_app, filter_cons, decide_False, filter_nil, app_nil_r;
      [done|].
    intros Hn. apply Hn, Is_true_true, has_marker_markedHandler_same.
Qed.

Lemma others_foldl_merge_handler hookName l hs :
  others hookName (foldl (merge_handler hookName) l hs) = others hookName l.
Proof.
  revert l. induction hs as [|h hs IH]; intros l; [done|].
  cbn [foldl]. by rewrite IH, others_merge_handler.
Qed.

Lemma marked_merge_handler hookName l handler :
  existsb (has_marker hookName) (merge_handler hookName l handler) = true.
Proof.
  apply existsb_exists. exists (markedHandler hookName handler).
  split; [|apply has_marker_markedHandler_same].
  apply list_elem_of_In. unfold merge_handler.
  destruct (findIndex (has_marker hookName) l) as [i|] eqn:E.
  - apply findIndex_Some_split in E as (l1 & x & l2 & -> & <- & _).
    rewrite insert_app_r_alt, Nat.sub_diag by done. cbn [insert list_insert].
    apply elem_of_app. right. left.
  - apply elem_of_app. right. left.
Qed.

Lemma marked_foldl_merge_handler hookName l hs :
  existsb (has_marker hookName) (foldl (merge_handler hookName) l hs)
  = existsb (has_marker hookName) l || bool_decide (hs ≠ []).
Proof.
  revert l. induction hs as [|h hs IH]; intros l.
  - cbn [foldl]. rewrite bool_decide_false by (by intros ?).
    by rewrite orb_false_r.
  - cbn [foldl]. rewrite IH, marked_merge_handler.
    rewrite (bool_decide_true (h :: hs ≠ [])) by done.
    by rewrite orb_true_r.
Qed.

(** A handler of another hook is in the list iff it is among [others]. *)
Lemma existsb_others hookName other l :
  other ≠ hookName →
  existsb (has_marker other) (others hookName l)
  = existsb (has_marker other) l.
Proof.
  intros Hne. unfold others. induction l as [|h l IH]; [done|].
  rewrite filter_cons. cbn [existsb]. case_decide as Hm.
  - cbn [existsb]. by rewrite IH.
  - rewrite IH. destruct (has_marker other h) eqn:Eo; [|done].
    destruct (has_marker hookName h) eqn:Eh.
    + destruct Hne. symmetry. by eapply has_marker_agree.
    + destruct Hm; try done.
Qed.

Lemma existsb_same_others hookName other l l' :
  other ≠ hookName → others hookName l' = others hookName l →
  existsb (has_marker other) l' = existsb (has_marker other) l.
Proof.
  intros Hne Heq.
  by rewrite <-(existsb_others hookName other l'),
       <-(existsb_others hookName other l), Heq.
Qed.

Lemma hasHook_intro hookName f :
  marked_under hookName (getHooks f) → hasHook hookName f = true.
Proof.
  intros (e & l & He & Hl). unfold hasHook. apply existsb_exists.
  exists (e, l). split; [|done]. by apply list_elem_of_In, oget_Some_elem_of.
Qed.

Lemma hasHook_elim hookName f :
  NoDup (okeys (getHooks f)) →
  hasHook hookName f = true → marked_under hookName (getHooks f).
Proof.
  intros Hnd ([e l] & Hin & Hl)%existsb_exists. exists e, l. split; [|done].
  by apply oget_NoDup, list_elem_of_In.
Qed.

Lemma hasHook_iff hookName f f' :
  NoDup (okeys (getHooks f)) → NoDup (okeys (getHooks f')) →
  (marked_under hookName (getHooks f') ↔ marked_under hookName (getHooks f)) →
  hasHook hookName f' = hasHook hookName f.
Proof.
  intros Hnd Hnd' Hiff.
  destruct (hasHook hookName f) eqn:E.
  - by apply hasHook_intro, Hiff, hasHook_elim.
  - destruct (hasHook hookName f') eqn:E'; [|done].
    apply hasHook_elim, Hiff, hasHook_intro in E'; [congruence|done].
Qed.

Lemma NoDup_okeys_odel {V} k (o : obj V) :
  NoDup (okeys o) → NoDup (okeys (odel k o)).
Proof.
  unfold okeys. induction o as [|[k' v'] o IH]; [done|].
  rewrite fmap_cons. cbn [fst odel]. intros [Hk Hnd]%NoDup_cons.
  destruct (String.eqb k' k); [by apply IH|].
  rewrite fmap_cons. apply NoDup_cons. split; [|by apply IH].
  cbn [fst]. intros Hin. apply Hk.
  apply list_elem_of_fmap in Hin as (x & -> & Hx).
  apply list_elem_of_fmap. exists x. split; [done|].
  by eapply elem_of_odel_inv.
Qed.

Lemma NoDup_okeys_merge_event hookName registry entry registry' :
  merge_event hookName registry entry = Some registry' →
  NoDup (okeys registry) → NoDup (okeys registry').
Proof.
  destruct entry as [k handlers]. rewrite merge_event_cases.
  intros Hm Hnd. case_decide.
  - case_decide; [|done]. by injection Hm as <-.
  - injection Hm as <-. by apply NoDup_okeys_oset.
Qed.

Lemma NoDup_okeys_mergeHook hookName hookConfig f f' :
  NoDup (okeys (getHooks f)) → mergeHook hookName hookConfig f = Some f' →
  NoDup (okeys (getHooks f')).
Proof.
  intros Hf (es & _ & Hm & _)%getHooks_mergeHook.
  revert Hf Hm. generalize (getHooks f) (getHooks f').
  induction es as [|entry es IH]; intros registry registry' Hreg.
  - by intros [= <-].
  - cbn [merge_events].
    destruct (merge_event hookName registry entry) as [r1|] eqn:E; [|done].
    cbn [mbind option_bind]. apply IH. by eapply NoDup_okeys_merge_event.
Qed.

Lemma others_idemp hookName l :
  others hookName (others hookName l) = others hookName l.
Proof.
  unfold others. apply filter_all, Forall_forall.
  by intros h [? _]%list_elem_of_filter.
Qed.

Lemma cleaned_idemp hookName entry :
  cleaned hookName (cleaned hookName entry) = cleaned hookName entry.
Proof.
  destruct entry as [l|]; [|done]. cbn [cleaned].
  case_bool_decide as Hl; [done|]. cbn [cleaned].
  by rewrite others_idemp, bool_decide_false.
Qed.

Lemma oget_remove_event hookName registry k e :
  oget e (remove_event hookName registry k)
  = if decide (k = e) then cleaned hookName (oget k registry)
    else oget e registry.
Proof.
  unfold remove_event, cleaned, others.
  destruct (oget k registry) as [l|] eqn:E.
  - case_bool_decide.
    + case_decide as Hk; [subst; apply oget_odel_eq|by apply oget_odel_ne].
    + apply oget_oset.
  - case_decide; [by subst|done].
Qed.

Lemma NoDup_okeys_remove_event hookName registry k :
  NoDup (okeys registry) → NoDup (okeys (remove_event hookName registry k)).
Proof.
  intros Hnd. unfold remove_event. destruct (oget k registry); [|done].
  case_bool_decide; [by apply NoDup_okeys_odel|by apply NoDup_okeys_oset].
Qed.

Lemma oget_foldl_remove_event hookName ks registry e :
  oget e (foldl (remove_event hookName) registry ks)
  = if decide (e ∈ ks) then cleaned hookName (oget e registry)
    else oget e registry.
Proof.
  revert registry. induction ks as [|k ks IH]; intros registry.
  - by rewrite decide_False by apply not_elem_of_nil.
  - cbn [foldl]. rewrite IH, oget_remove_event.
    destruct (decide (k = e)) as [->|Hne].
    + rewrite (decide_True (P := e ∈ e :: ks)) by left.
      case_decide; [apply cleaned_idemp|done].
    + destruct (decide (e ∈ ks)) as [Hin|Hin].
      * by rewrite decide_True by by right.
      * rewrite decide_False; [done|].
        rewrite not_elem_of_cons. naive_solver.
Qed.

Lemma getHooks_removeHook hookName f f' :
  removeHook hookName f = Some f' →
  getHooks f' = foldl (remove_event hookName) (getHooks f) (okeys (getHooks f))
  ∧ settings_rest (readSettings f') = settings_rest (readSettings f).
Proof.
  unfold removeHook, getHooks.
  destruct (hooks (readSettings f)) as [registry|]; [|done].
  by intros [= <-].
Qed.

Lemma oget_removeHook hookName f f' e :
  removeHook hookName f = Some f' →
  oget e (getHooks f') = cleaned hookName (oget e (getHooks f)).
Proof.
  intros [-> _]%getHooks_removeHook. rewrite oget_foldl_remove_event.
  case_decide as Hin; [done|].
  apply oget_None_keys in Hin. by rewrite Hin.
Qed.

Lemma NoDup_okeys_removeHook hookName f f' :
  NoDup (okeys (getHooks f)) → removeHook hookName f = Some f' →
  NoDup (okeys (getHooks f')).
Proof.
  intros Hf [-> _]%getHooks_removeHook.
  assert (∀ ks registry,
    NoDup (okeys registry) →
    NoDup (okeys (foldl (remove_event hookName) registry ks))) as Hall.
  { induction ks as [|k ks IH]; intros registry Hreg; [done|].
    cbn [foldl]. by apply IH, NoDup_okeys_remove_event. }
  by apply Hall.
Qed.

Lemma existsb_marked_others hookName l :
  existsb (has_marker hookName) (others hookName l) = false.
Proof.
  unfold others. induction l as [|h l IH]; [done|].
  rewrite filter_cons. case_decide as Hm; [|done].
  cbn [existsb]. rewrite IH. destruct (has_marker hookName h); [|done].
  by destruct Hm.
Qed.

Lemma existsb_default_Some hookName (entry : option (list handler_t)) :
  existsb (has_marker hookName) (default [] entry) = true →
  entry = Some (default [] entry).
Proof. by destruct entry. Qed.

Lemma hasHook_mergeHook_own hookName hookConfig f f' :
  NoDup (okeys (getHooks f)) →
  mergeHook hookName hookConfig f = Some f' →
  hasHook hookName f' = true ↔
    hasHook hookName f = true
    ∨ ∃ e handlers, oget e (spread_props hookConfig) = Some handlers
                    ∧ handlerArray handlers ≠ [].
Proof.
  intros Hnd Hmerge.
  pose proof (NoDup_okeys_mergeHook _ _ _ _ Hnd Hmerge) as Hnd'.
  pose proof (λ e, oget_getHooks_mergeHook _ _ _ _ e Hmerge) as Hget.
  pose proof (mergeHook_mergeable _ _ _ _ Hmerge) as Hok.
  split.
  - intros (e & l' & He & Hl')%hasHook_elim; [|done].
    rewrite Hget in He.
    destruct (oget e (spread_props hookConfig)) as [handlers|] eqn:Ees.
    + case_decide as Hs; [done|].
      injection He as <-. rewrite marked_foldl_merge_handler in Hl'.
      apply orb_true_iff in Hl' as [Hl|Hhs].
      * left. apply hasHook_intro. exists e, (default [] (oget e (getHooks f))).
        split; [by apply (existsb_default_Some hookName)|done].
      * right. exists e, handlers. split; [done|].
        by apply bool_decide_eq_true in Hhs.
    + left. apply hasHook_intro. by exists e, l'.
  - intros [(e & l & He & Hl)%hasHook_elim|(e & handlers & Hes & Hhs)];
      [|done|]; apply hasHook_intro.
    + assert (¬ shadowed (getHooks f) e) as Hs by (intros [? _]; congruence).
      destruct (oget e (spread_props hookConfig)) as [handlers|] eqn:Ees;
        eexists e, _; rewrite Hget, Ees; [|by split].
      rewrite decide_False by done.
      split; [done|]. rewrite marked_foldl_merge_handler, He.
      cbn [default from_option id]. by rewrite Hl.
    + assert (¬ shadowed (getHooks f) e) as Hs
        by (intros Hs; by apply Hhs, (Hok e handlers)).
      eexists e, _. rewrite Hget, Hes, decide_False by done.
      split; [done|].
      rewrite marked_foldl_merge_handler, (bool_decide_true _ Hhs).
      apply orb_true_r.
Qed.

Lemma hasHook_mergeHook_other hookName hookConfig f f' other :
  NoDup (okeys (getHooks f)) →
  mergeHook hookName hookConfig f = Some f' →
  other ≠ hookName → hasHook other f' = hasHook other f.
Proof.
  intros Hnd Hmerge Hne.
  pose proof (NoDup_okeys_mergeHook _ _ _ _ Hnd Hmerge) as Hnd'.
  pose proof (λ e, oget_getHooks_mergeHook _ _ _ _ e Hmerge) as Hget.
  apply hasHook_iff; [done..|]. split.
  - intros (e & l' & He & Hl'). rewrite Hget in He.
    destruct (oget e (spread_props hookConfig)) as [handlers|];
      [|by exists e, l'].
    case_decide as Hs; [done|]. injection He as <-.
    rewrite (existsb_same_others hookName other
               (default [] (oget e (getHooks f)))) in Hl'
      by (done || apply others_foldl_merge_handler).
    exists e, (default [] (oget e (getHooks f))).
    split; [by apply (existsb_default_Some other)|done].
  - intros (e & l & He & Hl).
    assert (¬ shadowed (getHooks f) e) as Hs by (intros [? _]; congruence).
    destruct (oget e (spread_props hookConfig)) as [handlers|] eqn:Ees;
      eexists e, _; rewrite Hget, Ees; [|by split].
    rewrite decide_False by done. split; [done|].
    rewrite (existsb_same_others hookName other
               (default [] (oget e (getHooks f))))
      by (done || apply others_foldl_merge_handler).
    by rewrite He.
Qed.

Lemma hasHook_removeHook_own hookName f f' :
  NoDup (okeys (getHooks f)) → removeHook hookName f = Some f' →
  hasHook hookName f' = false.
Proof.
  intros Hnd Hremove.
  pose proof (NoDup_okeys_removeHook _ _ _ Hnd Hremove) as Hnd'.
  destruct (hasHook hookName f') eqn:E; [|done].
  apply hasHook_elim in E as (e & l' & He & Hl'); [|done].
  rewrite (oget_removeHook _ _ _ e Hremove) in He. unfold cleaned in He.
  destruct (oget e (getHooks f)) as [l|]; [|done].
  case_bool_decide; [done|]. injection He as <-.
  by rewrite existsb_marked_others in Hl'.
Qed.

Lemma hasHook_removeHook_other hookName f f' other :
  NoDup (okeys (getHooks f)) → removeHook hookName f = Some f' →
  other ≠ hookName → hasHook other f' = hasHook other f.
Proof.
  intros Hnd Hremove Hne.
  pose proof (NoDup_okeys_removeHook _ _ _ Hnd Hremove) as Hnd'.
  pose proof (λ e, oget_removeHook _ _ _ e Hremove) as Hget.
  apply hasHook_iff; [done..|]. split.
  - intros (e & l' & He & Hl'). rewrite Hget in He. unfold cleaned in He.
    destruct (oget e (getHooks f)) as [l|] eqn:El; [|done].
    case_bool_decide; [done|]. injection He as <-.
    rewrite existsb_others in Hl' by done. by exists e, l.
  - intros (e & l & He & Hl). exists e, (others hookName l).
    rewrite Hget, He, existsb_others by done. split; [|done].
    unfold cleaned. rewrite bool_decide_false; [done|].
    intros Hlen%nil_length_inv.
    by rewrite <-(existsb_others hookName other), Hlen in Hl.
Qed.

End DocumentFacts.

Module DocumentRoundTrips.
Import Merger Registry Handlers MergerFacts LedgerFacts DocumentFacts.
Local Open Scope nat_scope.

(** X6. [addMcpServer] then [getMcpServer] gives back the configuration
    (for a name other than [__proto__]), whatever the file held before
    (nothing, unreadable bytes, a document without a registry). Every
    other name then reads what the earlier registry, or the empty one
    when there was none, has under it: as before when the document had a
    registry or [Object.prototype] has no member of that name; but in a
    document without a registry, where every name read [null], the names
    of the members of [Object.prototype] now read those members. The
    other top-level keys are as before; adding the same endpoint again
    changes nothing, and a second configuration for the same name
    replaces the first. *)
Theorem addMcpServer_then_get (serverName : string) (serverConfig : json)
    (f : json_file mcp_config) :
  (serverName ≠ "__proto__" →
   getMcpServer serverName (addMcpServer serverName serverConfig f)
   = Some (Own serverConfig))
  ∧ (∀ other, other ≠ serverName →
       getMcpServer other (addMcpServer serverName serverConfig f)
       = oread other (default [] (mcpServers (readConfig f))))
  ∧ (∀ other, other ≠ serverName →
       is_Some (mcpServers (readConfig f)) ∨ other ∉ prototype_names →
       getMcpServer other (addMcpServer serverName serverConfig f)
       = getMcpServer other f)
  ∧ (∀ other, other ≠ serverName → other ∈ prototype_names →
       mcpServers (readConfig f) = None →
       getMcpServer other f = None
       ∧ getMcpServer other (addMcpServer serverName serverConfig f)
         = Some (Inherited other))
  ∧ config_rest (readConfig (addMcpServer serverName serverConfig f))
    = config_rest (readConfig f)
  ∧ addMcpServer serverName serverConfig
      (addMcpServer serverName serverConfig f)
    = addMcpServer serverName serverConfig f
  ∧ ∀ earlier,
      addMcpServer serverName serverConfig (addMcpServer serverName earlier f)
      = addMcpServer serverName serverConfig f.
Proof.
  assert (∀ other, other ≠ serverName →
            getMcpServer other (addMcpServer serverName serverConfig f)
            = oread other (default [] (mcpServers (readConfig f)))) as Hother.
  { intros other Hne. unfold getMcpServer, addMcpServer.
    cbn [readConfig mcpServers mbind option_bind].
    by rewrite oread_oset_ne. }
  split_and!; [| | | |done| |intros earlier].
  - intros _. unfold getMcpServer, addMcpServer.
    cbn [readConfig mcpServers mbind option_bind]. apply oread_oset_eq.
  - exact Hother.
  - intros other Hne Hside. rewrite (Hother other Hne). unfold getMcpServer.
    destruct (mcpServers (readConfig f)) as [servers|]; [done|].
    cbn [mbind option_bind default from_option id].
    destruct Hside as [[? ?]|Hplain]; [done|].
    by rewrite (oread_plain _ _ Hplain).
  - intros other Hne Hproto Hnone. rewrite (Hother other Hne).
    unfold getMcpServer. rewrite Hnone. split; [done|].
    cbn [default from_option id]. unfold oread. cbn [oget].
    by rewrite bool_decide_true.
  - unfold addMcpServer. cbn [readConfig mcpServers config_rest].
    cbn [default from_option id]. by rewrite oset_oset.
  - unfold addMcpServer. cbn [readConfig mcpServers config_rest].
    cbn [default from_option id]. by rewrite oset_oset.
Qed.

(** X7. After [removeMcpServer] the endpoint is no key of the registry,
    and [getMcpServer] finds nothing under its name, unless the name is
    that of a member of [Object.prototype] and the document has a
    registry: then it finds the member. The other names and the other
    top-level keys read as before; removing an endpoint the registry does
    not hold as a key leaves the document as it was read, and on a missing
    file writes the empty document; removing what was just added gives
    back the earlier lookups, though the registry key, once created,
    stays (so that in a document that had no registry the names of the
    members of [Object.prototype] no longer read [null]). *)
Theorem removeMcpServer_forgets (serverName : string)
    (f : json_file mcp_config) :
  mcpServers (readConfig (removeMcpServer serverName f)) ≫= oget serverName
  = None
  ∧ (serverName ∉ prototype_names ∨ mcpServers (readConfig f) = None →
     getMcpServer serverName (removeMcpServer serverName f) = None)
  ∧ (serverName ∈ prototype_names → is_Some (mcpServers (readConfig f)) →
     getMcpServer serverName (removeMcpServer serverName f)
     = Some (Inherited serverName))
  ∧ (∀ other, other ≠ serverName →
       getMcpServer other (removeMcpServer serverName f)
       = getMcpServer other f)
  ∧ config_rest (readConfig (removeMcpServer serverName f))
    = config_rest (readConfig f)
  ∧ (mcpServers (readConfig f) ≫= oget serverName = None →
     removeMcpServer serverName f = Parsed (readConfig f))
  ∧ removeMcpServer serverName Absent
    = Parsed {| mcpServers := None; config_rest := [] |}
  ∧ (mcpServers (readConfig f) ≫= oget serverName = None →
     ∀ serverConfig other,
       is_Some (mcpServers (readConfig f)) ∨ other ∉ prototype_names →
       getMcpServer other
         (removeMcpServer serverName (addMcpServer serverName serverConfig f))
       = getMcpServer other f)
  ∧ ∀ serverConfig,
      removeMcpServer serverName (addMcpServer serverName serverConfig Absent)
      = Parsed {| mcpServers := Some []; config_rest := [] |}.
Proof.
  unfold getMcpServer, removeMcpServer, addMcpServer.
  cbn [readConfig mcpServers config_rest].
  destruct (readConfig f) as [[servers|] rest];
    cbn [mbind option_bind fmap option_fmap option_map default from_option id
         mcpServers config_rest].
  - split_and!; try done.
    + apply oget_odel_eq.
    + intros [Hplain|?]; [|done]. rewrite oread_odel_eq.
      by rewrite bool_decide_false.
    + intros Hproto _. rewrite oread_odel_eq. by rewrite bool_decide_true.
    + intros other Hne. by apply oread_odel_ne.
    + intros Hn. by rewrite odel_id.
    + intros Hn serverConfig other _.
      destruct (decide (serverName = other)) as [<-|Hne].
      * rewrite oread_odel_eq. unfold oread. by rewrite Hn.
      * by rewrite oread_odel_ne, oread_oset_ne.
    + intros serverConfig. cbn [oset odel].
      by rewrite String.eqb_refl.
  - split_and!; try done.
    + intros _ serverConfig other [[? ?]|Hplain]; [done|]. cbn [oset odel].
      rewrite String.eqb_refl. by rewrite (oread_plain _ _ Hplain).
    + intros serverConfig. cbn [oset odel].
      by rewrite String.eqb_refl.
Qed.

(** X8. After [mergeHook], [hasHook] finds the hook exactly when it found
    it before or the configuration gives some event at least one handler:
    a configuration without handlers leaves the hook unfound. Whether any
    other hook is found does not change. *)
Theorem mergeHook_then_hasHook (hookName : string) (hookConfig : json)
    (f f' : json_file settings) :
  NoDup (okeys (getHooks f)) →
  mergeHook hookName hookConfig f = Some f' →
  (hasHook hookName f' = true ↔
     hasHook hookName f = true
     ∨ ∃ e handlers, oget e (spread_props hookConfig) = Some handlers
                     ∧ handlerArray handlers ≠ [])
  ∧ ∀ other, other ≠ hookName → hasHook other f' = hasHook other f.
Proof.
  intros Hnd Hmerge. split.
  - by apply hasHook_mergeHook_own.
  - intros other Hne. by eapply hasHook_mergeHook_other.
Qed.

Lemma mergeHook_then_hasHook_witness :
  ∃ f', mergeHook "format" notify_b registry_with_notify = Some f'
        ∧ hasHook "format" f' = true
        ∧ hasHook "notify" f' = true
        ∧ hasHook "lint" f' = false.
Proof.
  eexists. split; [reflexivity|].
  destruct (mergeHook_then_hasHook "format" notify_b registry_with_notify _
              ltac:(repeat constructor; set_solver) eq_refl) as [Hown Hother].
  split_and!.
  - apply Hown. by left.
  - by rewrite Hother.
  - by rewrite Hother.
Defined.

(** X9. [removeHook] leaves under every event the handlers of the other
    hooks, in their order, and drops the event when none is left (an
    event that was already empty is dropped as well); afterwards
    [hasHook] no longer finds the hook, finds every other hook it found
    before, and the other keys of the settings document are as before. *)
Theorem removeHook_clears (hookName : string) (f f' : json_file settings) :
  NoDup (okeys (getHooks f)) →
  removeHook hookName f = Some f' →
  hasHook hookName f' = false
  ∧ (∀ e, oget e (getHooks f') = cleaned hookName (oget e (getHooks f)))
  ∧ (∀ other, other ≠ hookName → hasHook other f' = hasHook other f)
  ∧ settings_rest (readSettings f') = settings_rest (readSettings f).
Proof.
  intros Hnd Hremove. split_and!.
  - by eapply hasHook_removeHook_own.
  - intros e. by apply oget_removeHook.
  - intros other Hne. by eapply hasHook_removeHook_other.
  - by apply getHooks_removeHook in Hremove as [_ ?].
Qed.

Lemma removeHook_clears_witness :
  ∃ f', removeHook "notify" registry_with_notify = Some f'
        ∧ hasHook "notify" f' = false
        ∧ hasHook "format" f' = true
        ∧ oget "Stop" (getHooks f')
          = Some [[("command", JStr "lint")];
                  [("command", JStr "fmt"); ("_hands", JStr "format")]].
Proof.
  eexists. split; [reflexivity|].
  destruct (removeHook_clears "notify" registry_with_notify _
              ltac:(repeat constructor; set_solver) eq_refl)
    as (Hgone & Hget & Hother & _).
  split_and!.
  - exact Hgone.
  - by rewrite Hother.
  - by rewrite Hget.
Defined.

(** X10. Merging a hook into a registry that does not hold it and then
    removing it gives back the registry: every event reads as before the
    merge (the events the merge created are gone again), provided no
    event list was empty to begin with, since [removeHook] drops empty
    events. *)
Theorem mergeHook_then_removeHook (hookName : string) (hookConfig : json)
    (f f1 : json_file settings) :
  hasHook hookName f = false →
  (∀ e, oget e (getHooks f) ≠ Some []) →
  mergeHook hookName hookConfig f = Some f1 →
  ∃ f2, removeHook hookName f1 = Some f2
        ∧ (∀ e, oget e (getHooks f2) = oget e (getHooks f))
        ∧ settings_rest (readSettings f2) = settings_rest (readSettings f).
Proof.
  intros Hno Hfull Hmerge.
  assert (∀ e l, oget e (getHooks f) = Some l → others hookName l = l)
    as Hothers.
  { intros e l He. apply filter_all, Forall_forall. intros h Hh Hm.
    apply Is_true_true in Hm.
    assert (hasHook hookName f = true); [|congruence].
    apply hasHook_intro. exists e, l. split; [done|].
    apply existsb_exists. exists h. split; [by apply list_elem_of_In|done]. }
  assert (∀ e, cleaned hookName (oget e (getHooks f)) = oget e (getHooks f))
    as Hclean.
  { intros e. destruct (oget e (getHooks f)) as [l|] eqn:El; [|done].
    cbn [cleaned]. rewrite (Hothers e l El).
    rewrite bool_decide_false; [done|].
    intros ->%nil_length_inv. by apply (Hfull e). }
  pose proof (λ e, oget_getHooks_mergeHook _ _ _ _ e Hmerge) as Hget.
  destruct (removeHook hookName f1) as [f2|] eqn:Hremove.
  - exists f2. split; [done|]. split.
    + intros e. rewrite (oget_removeHook _ _ _ e Hremove), Hget.
      destruct (oget e (spread_props hookConfig)) as [handlers|];
        [|apply Hclean].
      case_decide as Hs; [by destruct Hs as [-> _]|].
      cbn [cleaned]. rewrite others_foldl_merge_handler.
      destruct (oget e (getHooks f)) as [l|] eqn:El; [|done].
      cbn [default from_option id]. rewrite (Hothers e l El).
      rewrite bool_decide_false; [done|].
      intros ->%nil_length_inv. by apply (Hfull e).
    + apply getHooks_removeHook in Hremove as [_ ->].
      by apply getHooks_mergeHook in Hmerge as (? & _ & _ & ?).
  - unfold mergeHook in Hmerge.
    destruct (entries hookConfig); [|done]. cbn [mbind option_bind] in Hmerge.
    destruct (merge_events _ _ _); [|done]. by injection Hmerge as <-.
Qed.

Lemma mergeHook_then_removeHook_witness :
  ∃ f1 f2,
    mergeHook "greet" notify_twice registry_with_notify = Some f1
    ∧ removeHook "greet" f1 = Some f2
    ∧ oget "Stop" (getHooks f2) = oget "Stop" (getHooks registry_with_notify).
Proof.
  eexists.
  destruct (mergeHook_then_removeHook "greet" notify_twice
              registry_with_notify _ eq_refl
              ltac:(by intros e
                      [=]%oget_Some_elem_of%list_elem_of_singleton) eq_refl)
    as (f2 & Hremove & Hget & _).
  exists f2. split; [reflexivity|]. split; [exact Hremove|apply Hget].
Defined.

End DocumentRoundTrips.

(** ** Hooks: what a sync leaves behind *)

Module HookSyncTheorems.
Import Detector Merger Registry Handlers MergerFacts TrackerFacts LedgerFacts
  DocumentFacts StatusResolver Scenarios Tree.

Lemma entries_not_null v : v ≠ JNull → entries v = Some (spread_props v).
Proof. by destruct v. Qed.

Section synced.
Context {R : Runtime}.


(** The world one pass of the first loop of [syncHooks] leaves. *)
Lemma sync_selected_hook_world trackedHooks result hook w f' :
  mergeHook (name hook) (config hook) (settingsFile w) = Some f' →
  ∃ r,
    sync_selected_hook trackedHooks result hook w
    = (Ok r,
       {| files := files w;
          meta := Tracker.trackInstall (category hook) (name hook)
                    (sourcePath hook)
                    (Some (Tracker.computeHash (config hook)))
                    (clock (ticks w)) (meta w);
          settingsFile := f'; configFile := configFile w;
          log := log w ++ [WriteSettings; WriteLedger];
          ticks := S (ticks w); asked := asked w |})
    ∧ (hasHook (name hook) (settingsFile w) = false →
       added r = added result ++ [name hook])
    ∧ removed r = removed result.
Proof.
  intros Hmerge. eexists.
  unfold sync_selected_hook, mergeHookW, World.trackInstall.
  unfold bind, get, modify, ret, now. cbn [fst snd]. rewrite Hmerge.
  unfold logged, set_meta, set_settings.
  cbn [fst snd log files meta settingsFile configFile ticks asked].
  rewrite <-app_assoc. split; [done|]. split; [by intros ->|].
  destruct (hasHook (name hook) (settingsFile w)); [|done].
  cbn [negb]. destruct (oread (name hook) trackedHooks) as [[t|k]|];
    try done.
  by case_bool_decide.
Qed.



(** X12. A hook whose configuration gives no event any handler (an empty
    object, or events with empty lists) is tracked by the pass all the
    same, but the registry still does not hold it: its status stays
    available, and the pass reports it as added. *)
Theorem empty_hook_stays_available
    (trackedHooks : obj Tracker.tracked) (result : hook_result)
    (hook : component) (w : world) :
  category hook = "hooks" →
  validateComponentEnvVars (config hook) = true →
  config hook ≠ JNull →
  (∀ e handlers, oget e (spread_props (config hook)) = Some handlers →
                 handlerArray handlers = []) →
  NoDup (okeys (getHooks (settingsFile w))) →
  hasHook (name hook) (settingsFile w) = false →
  ∃ r w',
    sync_selected_hook trackedHooks result hook w = (Ok r, w')
    ∧ added r = added result ++ [name hook]
    ∧ Tracker.isTracked "hooks" (name hook) (meta w') = true
    ∧ getHookStatus w' hook = AVAILABLE.
Proof.
  intros Hcat Henv Hcfg Hempty Hnd Hno.
  destruct (mergeHook_returns (name hook) _ (settingsFile w) Hcfg)
    as [f' Hmerge]; [intros e handlers He _; by eapply Hempty|].
  destruct (sync_selected_hook_world trackedHooks result hook w f' Hmerge)
    as (r & -> & Hadded & _).
  assert (hasHook (name hook) f' = false) as Hhas.
  { destruct (hasHook (name hook) f') eqn:E; [|done].
    apply hasHook_elim in E as (e & l' & He & Hl');
      [|by eapply NoDup_okeys_mergeHook].
    rewrite (oget_getHooks_mergeHook _ _ _ _ e Hmerge) in He.
    assert (marked_under (name hook) (getHooks (settingsFile w))) as Hm.
    { destruct (oget e (spread_props (config hook))) as [handlers|] eqn:Ees;
        [|by exists e, l'].
      case_decide as Hs; [done|].
      injection He as <-. rewrite (Hempty _ _ Ees) in Hl'. cbn [foldl] in Hl'.
      exists e, (default [] (oget e (getHooks (settingsFile w)))).
      split; [by apply (existsb_default_Some (name hook))|done]. }
    apply hasHook_intro in Hm. congruence. }
  eexists _, _. split; [reflexivity|]. split_and!.
  - by apply Hadded.
  - unfold Tracker.isTracked. cbn [meta].
    rewrite Hcat, (getTrackedInfo_direct _ _ _
      (Tracker.Tracked (Some (Tracker.computeHash (config hook)))
         (Some (clock (ticks w))) (sourcePath hook) None)).
    + by apply bool_decide_eq_true.
    + rewrite components_trackInstall, decide_True by done.
      by rewrite oget_oset_eq.
  - unfold getHookStatus. cbn [settingsFile meta]. by rewrite Henv, Hhas.
Qed.

Local Abbreviation hooks_of w := (Tracker.getTrackedComponents "hooks" (meta w)).






End synced.



Lemma empty_hook_stays_available_witness :
  ∃ r w',
    sync_selected_hook (H:=plain_runtime) [] (HookResult [] [] [])
      (hook "quiet" (JObj [("Stop", JArr [])])) (fresh []) = (Ok r, w')
    ∧ added r = ["quiet"]
    ∧ getHookStatus (H:=plain_runtime) w'
        (hook "quiet" (JObj [("Stop", JArr [])])) = AVAILABLE.
Proof.
  destruct (empty_hook_stays_available (R:=plain_runtime) []
              (HookResult [] [] []) (hook "quiet" (JObj [("Stop", JArr [])]))
              (fresh []) eq_refl eq_refl)
    as (r & w' & Hrun & Hadded & _ & Hstatus).
  - done.
  - intros e handlers He%oget_Some_elem_of.
    by apply list_elem_of_singleton in He as [= -> ->].
  - apply NoDup_nil_2.
  - done.
  - by exists r, w'.
Defined.


End HookSyncTheorems.

(** ** The resolver: what the result holds *)

Module ResolutionFacts.
Import Detector Resolver Requirers ResolverFacts.
Local Open Scope nat_scope.

Lemma name_map_elem_of (xs : list component) k x :
  name_map xs !! k = Some x → x ∈ xs.
Proof.
  unfold name_map.
  assert (∀ m : gmap string component,
            (∀ k x, m !! k = Some x → x ∈ xs) →
            ∀ ys, ys ⊆ xs →
            ∀ k x, foldl (λ m x, <[name x := x]> m) m ys !! k = Some x →
                   x ∈ xs) as Hgen.
  { intros m Hm ys. revert m Hm.
    induction ys as [|y ys IH]; intros m Hm Hsub; [done|].
    cbn [foldl]. apply IH; [|set_solver]. intros k' x'.
    destruct (decide (name y = k')) as [<-|Hne].
    - rewrite lookup_insert_eq. intros [= <-]. apply Hsub. left.
    - rewrite lookup_insert_ne by done. apply Hm. }
  apply (Hgen ∅); [|done]. intros ? ?. by rewrite lookup_empty.
Qed.

(** *** One more requirer *)

Lemma oget_add_required k v (m : obj (list string)) k' :
  oget k' (add_required k v m)
  = if decide (k = k')
    then Some (if bool_decide (v ∈ default [] (oget k m))
               then default [] (oget k m)
               else default [] (oget k m) ++ [v])
    else oget k' m.
Proof.
  unfold add_required. rewrite oget_oset. case_decide as Hk.
  - destruct (oget k m) eqn:E; [by rewrite E|]. by rewrite oget_oset_eq.
  - destruct (oget k m); [done|]. by rewrite oget_oset_ne.
Qed.

Lemma okeys_add_required k v (m : obj (list string)) :
  NoDup (okeys m) → 
  NoDup (okeys (add_required k v m))
  ∧ okeys m ⊆ okeys (add_required k v m)
  ∧ k ∈ okeys (add_required k v m).
Proof.
  intros Hnd. unfold add_required.
  set (m1 := match oget k m with Some _ => m | None => oset k [] m end).
  assert (NoDup (okeys m1) ∧ okeys m ⊆ okeys m1) as [Hnd1 Hsub1].
  { unfold m1. destruct (oget k m); [done|]. split.
    - by apply NoDup_okeys_oset.
    - apply TrackerFacts.okeys_oset_subseteq. }
  split_and!.
  - by apply NoDup_okeys_oset.
  - etrans; [exact Hsub1|apply TrackerFacts.okeys_oset_subseteq].
  - apply oget_is_Some_keys. rewrite oget_oset_eq. by eexists.
Qed.

Lemma okeys_add_required_subseteq k v (m : obj (list string)) :
  okeys m ⊆ okeys (add_required k v m).
Proof.
  unfold add_required. etrans; [|apply TrackerFacts.okeys_oset_subseteq].
  destruct (oget k m); [done|apply TrackerFacts.okeys_oset_subseteq].
Qed.

Lemma okeys_add_required_elem k v (m : obj (list string)) :
  k ∈ okeys (add_required k v m).
Proof.
  apply oget_is_Some_keys. rewrite oget_add_required, decide_True by done.
  by eexists.
Qed.

Lemma okeys_add_required_inv k v (m : obj (list string)) k' :
  k' ∈ okeys (add_required k v m) → k' ∈ okeys m ∨ k' = k.
Proof.
  intros [vs Hk']%oget_is_Some_keys. rewrite oget_add_required in Hk'.
  case_decide; [by auto|]. left. apply oget_is_Some_keys. by eexists.
Qed.

Lemma registered_add_required k v m :
  registered (add_required k v m) k v.
Proof.
  unfold registered. rewrite oget_add_required, decide_True by done.
  cbn [default from_option id]. case_bool_decide; [done|].
  apply elem_of_app. right. left.
Qed.

Lemma registered_add_required_mono k v m d s :
  registered m d s → registered (add_required k v m) d s.
Proof.
  unfold registered. rewrite oget_add_required. case_decide as Hk; [|done].
  subst d. cbn [default from_option id]. intros Hs.
  case_bool_decide; [done|]. apply elem_of_app. by left.
Qed.

Lemma required_inv_add D res k v m :
  k ∈ D → v ∈ res → required_inv D res m →
  required_inv D res (add_required k v m).
Proof.
  intros Hk Hv [Hnd Hm]. split; [by apply okeys_add_required|].
  intros k' vs. rewrite oget_add_required. case_decide as Hkk; [|apply Hm].
  subst k'. intros [= <-].
  destruct (oget k m) as [old|] eqn:E; cbn [default from_option id].
  - destruct (Hm k old E) as (_ & Hne & Hnd' & Hres).
    case_bool_decide as Hin; [done|]. split_and!; [done| | |].
    + by destruct old.
    + apply NoDup_app. split_and!; [done| |apply NoDup_singleton].
      by intros x Hx ->%list_elem_of_singleton.
    + intros x [?|Hx%list_elem_of_singleton]%elem_of_app; [auto|by subst].
  - rewrite bool_decide_false by apply not_elem_of_nil.
    split_and!; [done|done|apply NoDup_singleton|].
    by intros x ->%list_elem_of_singleton.
Qed.

Lemma required_inv_mono D res res' m :
  res ⊆ res' → required_inv D res m → required_inv D res' m.
Proof.
  intros Hsub [Hnd Hm]. split; [done|]. intros k vs Hk.
  destruct (Hm k vs Hk) as (? & ? & ? & Hres). split_and!; [done..|].
  intros v Hv. by apply Hsub, Hres.
Qed.

#[export] Instance extends_preorder : PreOrder extends.
Proof.
  split.
  - by intros st.
  - intros st1 st2 st3 (Hm & Ha & Hs & Hk) (Hm' & Ha' & Hs' & Hk').
    split_and!; [by auto| by auto| by auto|]. by etrans.
Qed.

Section resolve.
Variables (selectedSkills allSkills selectedAgents allAgents : list component).
Variable (pool_mcpServers : list component).

Abbreviation resolveSkill :=
  (Resolver.resolveSkill selectedSkills allSkills selectedAgents allAgents
     pool_mcpServers).

(** *** An invariant of every step is an invariant of [resolveSkill] *)

Section invariant.
Variable P : rstate → Prop.
Hypothesis P_mark : ∀ st n,
  P st →
  P {| st_errors := st_errors st; st_warnings := st_warnings st;
       requiredMcpServers := requiredMcpServers st;
       requiredAgents := requiredAgents st;
       requiredSkills := requiredSkills st;
       resolved := {[n]} ∪ resolved st |}.
Hypothesis P_error : ∀ st msg,
  P st →
  P {| st_errors := st_errors st ++ [msg]; st_warnings := st_warnings st;
       requiredMcpServers := requiredMcpServers st;
       requiredAgents := requiredAgents st;
       requiredSkills := requiredSkills st; resolved := resolved st |}.
Hypothesis P_warn : ∀ st msg, P st → P (warn msg st).
Hypothesis P_mcpServer : ∀ skill st n,
  name skill ∈ resolved st → is_Some (mcpServerMap pool_mcpServers !! n) →
  P st →
  P {| st_errors := st_errors st; st_warnings := st_warnings st;
       requiredMcpServers :=
         add_required n (name skill) (requiredMcpServers st);
       requiredAgents := requiredAgents st;
       requiredSkills := requiredSkills st; resolved := resolved st |}.
Hypothesis P_agent : ∀ skill st a,
  name skill ∈ resolved st → is_Some (agentMap allAgents !! a) →
  a ∉ userSelectedAgentNames selectedAgents →
  P st →
  P {| st_errors := st_errors st; st_warnings := st_warnings st;
       requiredMcpServers := requiredMcpServers st;
       requiredAgents := add_required a (name skill) (requiredAgents st);
       requiredSkills := requiredSkills st; resolved := resolved st |}.
Hypothesis P_skill : ∀ skill st d,
  name skill ∈ resolved st → is_Some (skillMap allSkills !! d) →
  d ∉ userSelectedSkillNames selectedSkills →
  P st →
  P {| st_errors := st_errors st; st_warnings := st_warnings st;
       requiredMcpServers := requiredMcpServers st;
       requiredAgents := requiredAgents st;
       requiredSkills := add_required d (name skill) (requiredSkills st);
       resolved := resolved st |}.

Lemma resolve_mcpServer_inv skill st n :
  name skill ∈ resolved st → P st →
  P (resolve_mcpServer pool_mcpServers skill st n).
Proof.
  intros Hres HP. unfold resolve_mcpServer.
  case_bool_decide; [by apply P_mcpServer|by apply P_warn].
Qed.

Lemma foldl_resolve_mcpServer_inv skill st names :
  name skill ∈ resolved st → P st →
  P (foldl (resolve_mcpServer pool_mcpServers skill) st names).
Proof.
  revert st. induction names as [|n names IH]; intros st Hres HP; [done|].
  cbn [foldl]. apply IH.
  - by rewrite (proj2 (resolve_mcpServer_keeps pool_mcpServers skill st n)).
  - by apply resolve_mcpServer_inv.
Qed.

Lemma resolve_agent_inv skill st a :
  name skill ∈ resolved st → P st →
  P (resolve_agent selectedAgents allAgents skill st a).
Proof.
  intros Hres HP. unfold resolve_agent.
  destruct (String.eqb a ""); [done|].
  case_bool_decide; [|by apply P_warn].
  case_bool_decide; [done|by apply P_agent].
Qed.

Lemma resolveSkill_inv fuel skill chain st st' :
  resolveSkill fuel skill chain st = Some st' → P st → P st'.
Proof.
  revert skill chain st st'.
  induction fuel as [|fuel IH]; intros skill chain st st'; [done|].
  cbn [Resolver.resolveSkill].
  case_bool_decide as Hres; [by intros [= <-]|].
  case_bool_decide as Hin; [intros [= <-] ?; by apply P_error|].
  intros Hrun HP. revert Hrun.
  destruct (manifest_of skill) as [manifest|];
    [|intros [= <-]; by apply P_mark].
  set (st1 := RState _ _ _ _ _ ({[name skill]} ∪ resolved st)).
  assert (name skill ∈ resolved st1 ∧ P st1) as [Hr1 HP1].
  { split; [cbn; set_solver|by apply P_mark]. }
  set (st2 := foldl _ st1 _).
  assert (name skill ∈ resolved st2 ∧ P st2) as [Hr2 HP2].
  { split; [|by apply foldl_resolve_mcpServer_inv].
    unfold st2.
    by rewrite (proj2 (foldl_resolve_mcpServer_keeps pool_mcpServers skill
                         st1 (default [] (m_mcpServers manifest)))). }
  set (st3 := match m_agent manifest with Some _ => _ | None => st2 end).
  assert (name skill ∈ resolved st3 ∧ P st3) as [Hr3 HP3].
  { unfold st3. destruct (m_agent manifest) as [a|]; [|done]. split.
    - by rewrite (proj2 (resolve_agent_keeps selectedAgents allAgents skill
                           st2 a)).
    - by apply resolve_agent_inv. }
  clearbody st3. clear st2 st1 Hr1 HP1 Hr2 HP2.
  revert Hr3 HP3. generalize st3. clear st3.
  induction (default [] (m_skills manifest)) as [|depName deps IHdeps];
    intros acc Hr HPacc; cbn [foldl].
  { by intros [= <-]. }
  cbn [mbind option_bind].
  destruct (skillMap allSkills !! depName) as [dep|] eqn:Edep.
  - set (acc1 := if bool_decide _ then acc else _).
    assert (resolved acc1 = resolved acc ∧ P acc1) as [Hr1 HP1].
    { unfold acc1. case_bool_decide; [done|]. split; [done|].
      by apply P_skill. }
    destruct (resolveSkill fuel dep (chain ++ [name skill]) acc1)
      as [acc2|] eqn:E2.
    + apply IHdeps.
      * apply (resolveSkill_grows _ _ _ _ _ _ _ _ _ _ E2). by rewrite Hr1.
      * by apply (IH _ _ _ _ E2).
    + clear. induction deps as [|d deps IHd]; [done|]. exact IHd.
  - apply IHdeps; [done|by apply P_warn].
Qed.

Lemma foldl_resolveSkill_inv fuel (l : list component) st0 st :
  foldl (λ (acc : option rstate) (skill : component),
           st ← acc; resolveSkill fuel skill [] st) (Some st0) l = Some st →
  P st0 → P st.
Proof.
  revert st0. induction l as [|sk l IHl]; intros st0; cbn [foldl].
  - by intros [= <-].
  - cbn [mbind option_bind].
    destruct (resolveSkill fuel sk [] st0) as [st1|] eqn:E1.
    + intros Hrun HP. apply (IHl _ Hrun).
      by apply (resolveSkill_inv _ _ _ _ _ E1).
    + intros Hrun. exfalso. revert Hrun. clear.
      induction l as [|? l IHl']; [done|]. exact IHl'.
Qed.

Lemma after_selected_inv fuel st :
  after_selected selectedSkills allSkills selectedAgents allAgents
    pool_mcpServers fuel = Some st →
  P (RState [] [] [] [] [] ∅) → P st.
Proof. apply foldl_resolveSkill_inv. Qed.

End invariant.

(** *** The maps stay well formed, and nothing recorded is lost *)

Abbreviation maps_ok :=
  (Requirers.maps_ok selectedSkills allSkills selectedAgents allAgents
     pool_mcpServers).
Abbreviation complete :=
  (Requirers.complete selectedSkills allSkills selectedAgents allAgents
     pool_mcpServers).

Lemma resolveSkill_maps_ok fuel skill chain st st' :
  resolveSkill fuel skill chain st = Some st' → maps_ok st → maps_ok st'.
Proof.
  apply resolveSkill_inv; clear.
  - intros st n (Hm & Ha & Hs).
    split_and!; (eapply required_inv_mono; [|done]); cbn; set_solver.
  - by intros st msg.
  - by intros st msg.
  - intros skill st n Hres Hn (Hm & Ha & Hs). split_and!; [|done..].
    apply required_inv_add; [|done..]. by apply elem_of_dom.
  - intros skill st a Hres Ha Hsel (Hm & Hag & Hs). split_and!; [done| |done].
    apply required_inv_add; [|done..].
    apply elem_of_difference. split; [by apply elem_of_dom|done].
  - intros skill st d Hres Hd Hsel (Hm & Hag & Hs). split_and!; [done..|].
    apply required_inv_add; [|done..].
    apply elem_of_difference. split; [by apply elem_of_dom|done].
Qed.

Lemma resolveSkill_extends fuel skill chain st st' :
  resolveSkill fuel skill chain st = Some st' → extends st st'.
Proof.
  intros Hrun.
  eapply (resolveSkill_inv (extends st)); [..|exact Hrun|done]; clear.
  - by intros st0 n.
  - by intros st0 msg.
  - by intros st0 msg.
  - intros skill st0 n _ _ (Hm & Ha & Hs & Hk). split_and!; [|done..].
    intros d s ?. by apply registered_add_required_mono, Hm.
  - intros skill st0 a _ _ _ (Hm & Ha & Hs & Hk). split_and!; [done| |done..].
    intros d s ?. by apply registered_add_required_mono, Ha.
  - intros skill st0 d _ _ _ (Hm & Ha & Hs & Hk). split_and!; [done..| |].
    + intros d' s ?. by apply registered_add_required_mono, Hs.
    + etrans; [exact Hk|]. apply okeys_add_required_subseteq.
Qed.

Lemma complete_extends st st' c :
  extends st st' → complete st c → complete st' c.
Proof.
  intros (Hm & Ha & Hs & _) Hc manifest Hmanifest.
  destruct (Hc manifest Hmanifest) as (Hcs & Hcm & Hca).
  split_and!; [intros d ? ? ?|intros n ? ?|intros a ? ? ? ?]; auto.
Qed.

Lemma foldl_resolve_mcpServer_registers skill st names :
  let st' := foldl (resolve_mcpServer pool_mcpServers skill) st names in
  extends st st'
  ∧ requiredSkills st' = requiredSkills st
  ∧ ∀ n, n ∈ names → is_Some (mcpServerMap pool_mcpServers !! n) →
         registered (requiredMcpServers st') n (name skill).
Proof.
  revert st. induction names as [|n names IH]; intros st; cbn [foldl].
  - split_and!; [done|done|]. by intros n ?%elem_of_nil.
  - destruct (IH (resolve_mcpServer pool_mcpServers skill st n))
      as (Hext & Hreq & Hreg).
    assert (extends st (resolve_mcpServer pool_mcpServers skill st n)
            ∧ requiredSkills (resolve_mcpServer pool_mcpServers skill st n)
              = requiredSkills st
            ∧ (is_Some (mcpServerMap pool_mcpServers !! n) →
               registered
                 (requiredMcpServers
                    (resolve_mcpServer pool_mcpServers skill st n))
                 n (name skill))) as (Hext1 & Hreq1 & Hreg1).
    { unfold resolve_mcpServer. case_bool_decide as Hn.
      - split_and!; [|done|intros _; apply registered_add_required].
        split_and!; [|done..].
        intros d s ?. by apply registered_add_required_mono.
      - by split_and!. }
    split_and!.
    + by etrans.
    + by rewrite Hreq.
    + intros n' [->|Hn']%elem_of_cons Hsome; [|by apply Hreg].
      destruct Hext as (Hm & _). by apply Hm, Hreg1.
Qed.

Lemma resolve_agent_registers skill st a :
  let st' := resolve_agent selectedAgents allAgents skill st a in
  extends st st'
  ∧ requiredSkills st' = requiredSkills st
  ∧ (a ≠ "" → is_Some (agentMap allAgents !! a) →
     a ∉ userSelectedAgentNames selectedAgents →
     registered (requiredAgents st') a (name skill)).
Proof.
  unfold resolve_agent. destruct (String.eqb a "") eqn:Ea.
  { apply String.eqb_eq in Ea. by split_and!. }
  case_bool_decide as Hin; [|by split_and!].
  case_bool_decide as Hsel; [by split_and!|].
  split_and!; [|done|intros _ _ _; apply registered_add_required].
  split_and!; [done| |done..].
  intros d s ?. by apply registered_add_required_mono.
Qed.

(** *** What a call of [resolveSkill] has done when it returns *)

Lemma resolveSkill_post fuel skill chain st st' :
  resolveSkill fuel skill chain st = Some st' →
  skillMap allSkills !! name skill = Some skill →
  (∀ x, x ∈ chain → x ∈ resolved st) →
  name skill ∈ resolved st'
  ∧ (∀ n, n ∈ resolved st' →
          n ∈ resolved st
          ∨ ∃ c, skillMap allSkills !! n = Some c ∧ complete st' c)
  ∧ (∀ k, k ∈ okeys (requiredSkills st') →
          k ∈ okeys (requiredSkills st) ∨ k ∈ resolved st')
  ∧ (∀ n, n ∈ resolved st' →
          n ∈ resolved st ∨ n = name skill
          ∨ n ∈ okeys (requiredSkills st')
          ∨ n ∈ userSelectedSkillNames selectedSkills).
Proof.
  revert skill chain st st'.
  induction fuel as [|fuel IH]; intros skill chain st st'; [done|].
  cbn [Resolver.resolveSkill]. intros Hrun Hcall Hchain. revert Hrun.
  case_bool_decide as Hres; [intros [= <-]; by auto 10|].
  case_bool_decide as Hin; [by destruct Hres; apply Hchain|].
  destruct (manifest_of skill) as [manifest|] eqn:Emanifest.
  2: { intros [= <-]. cbn. split_and!; [set_solver| |by auto|].
       - intros n [->%elem_of_singleton|?]%elem_of_union; [|by auto].
         right. exists skill. split; [done|]. intros m Hm. congruence.
       - intros n [->%elem_of_singleton|?]%elem_of_union; by auto. }
  set (st1 := RState _ _ _ _ _ ({[name skill]} ∪ resolved st)).
  set (st2 := foldl _ st1 _).
  destruct (foldl_resolve_mcpServer_registers skill st1
              (default [] (m_mcpServers manifest)))
    as (Hext2 & Hreq2 & Hreg2).
  cbn zeta in Hext2, Hreq2, Hreg2. fold st2 in Hext2, Hreq2, Hreg2.
  assert (resolved st2 = resolved st1) as Hres2
    by apply (foldl_resolve_mcpServer_keeps pool_mcpServers skill st1).
  set (st3 := match m_agent manifest with Some _ => _ | None => st2 end).
  assert (extends st2 st3 ∧ requiredSkills st3 = requiredSkills st2
          ∧ resolved st3 = resolved st2
          ∧ (∀ a, m_agent manifest = Some a → a ≠ "" →
                  is_Some (agentMap allAgents !! a) →
                  a ∉ userSelectedAgentNames selectedAgents →
                  registered (requiredAgents st3) a (name skill)))
    as (Hext3 & Hreq3 & Hres3 & Hreg3).
  { unfold st3. destruct (m_agent manifest) as [a|]; [|by split_and!].
    destruct (resolve_agent_registers skill st2 a) as (? & ? & ?).
    split_and!; [done|done| |by intros ? [= <-]].
    apply (resolve_agent_keeps selectedAgents allAgents skill st2 a). }
  assert (resolved st3 = {[name skill]} ∪ resolved st) as Hres3'
    by (by rewrite Hres3, Hres2).
  assert (requiredSkills st3 = requiredSkills st) as Hreq3'
    by (by rewrite Hreq3, Hreq2).
  assert (extends st1 st3) as Hext13 by (by etrans).
  clearbody st3. clear Hext2 Hreq2 Hres2 Hreq3 Hres3.
  (* the loop over the skills of the manifest *)
  assert (∀ deps acc,
    extends st3 acc →
    {[name skill]} ∪ resolved st ⊆ resolved acc →
    (∀ n, n ∈ resolved acc →
          n ∈ resolved st ∨ n = name skill
          ∨ ∃ c, skillMap allSkills !! n = Some c ∧ complete acc c) →
    (∀ k, k ∈ okeys (requiredSkills acc) →
          k ∈ okeys (requiredSkills st) ∨ k ∈ resolved acc) →
    (∀ n, n ∈ resolved acc →
          n ∈ resolved st ∨ n = name skill
          ∨ n ∈ okeys (requiredSkills acc)
          ∨ n ∈ userSelectedSkillNames selectedSkills) →
    foldl (λ (acc : option rstate) (depName : string),
             st ← acc;
             match skillMap allSkills !! depName with
             | Some dep =>
                 let st :=
                   if bool_decide
                        (depName ∈ userSelectedSkillNames selectedSkills)
                   then st
                   else
                     {| st_errors := st_errors st;
                        st_warnings := st_warnings st;
                        requiredMcpServers := requiredMcpServers st;
                        requiredAgents := requiredAgents st;
                        requiredSkills :=
                          add_required depName (name skill)
                            (requiredSkills st);
                        resolved := resolved st |} in
                 resolveSkill fuel dep (chain ++ [name skill]) st
             | None =>
                 Some (warn ("Skill " +:+ dquote +:+ name skill +:+ dquote
                             +:+ " requires skill " +:+ dquote +:+ depName
                             +:+ dquote +:+ " which is not available") st)
             end) (Some acc) deps = Some st' →
    extends acc st'
    ∧ {[name skill]} ∪ resolved st ⊆ resolved st'
    ∧ (∀ n, n ∈ resolved st' →
            n ∈ resolved st ∨ n = name skill
            ∨ ∃ c, skillMap allSkills !! n = Some c ∧ complete st' c)
    ∧ (∀ k, k ∈ okeys (requiredSkills st') →
            k ∈ okeys (requiredSkills st) ∨ k ∈ resolved st')
    ∧ (∀ n, n ∈ resolved st' →
            n ∈ resolved st ∨ n = name skill
            ∨ n ∈ okeys (requiredSkills st')
            ∨ n ∈ userSelectedSkillNames selectedSkills)
    ∧ (∀ d, d ∈ deps → is_Some (skillMap allSkills !! d) →
            d ∉ userSelectedSkillNames selectedSkills →
            registered (requiredSkills st') d (name skill))) as Hloop.
  { induction deps as [|depName deps IHdeps];
      intros acc Hext Hsub HA HB HC; cbn [foldl].
    { intros [= <-]. split_and!; try done. by intros d ?%elem_of_nil. }
    cbn [mbind option_bind].
    destruct (skillMap allSkills !! depName) as [dep|] eqn:Edep.
    - set (acc1 := if bool_decide _ then acc else _).
      assert (extends acc acc1 ∧ resolved acc1 = resolved acc
              ∧ (∀ k, k ∈ okeys (requiredSkills acc1) →
                      k ∈ okeys (requiredSkills acc) ∨ k = depName)
              ∧ (depName ∉ userSelectedSkillNames selectedSkills →
                 registered (requiredSkills acc1) depName (name skill)
                 ∧ depName ∈ okeys (requiredSkills acc1)))
        as (Hext1 & Hr1 & Hk1 & Hreg1).
      { unfold acc1. case_bool_decide as Hsel.
        - split_and!; [done|done|by auto|done].
        - split_and!; [|done| |].
          + split_and!; [done..| |apply okeys_add_required_subseteq].
            intros d s ?. by apply registered_add_required_mono.
          + intros k. cbn [requiredSkills]. apply okeys_add_required_inv.
          + intros _. split; [apply registered_add_required|].
            apply okeys_add_required_elem. }
      apply name_map_lookup in Edep as Hname.
      destruct (resolveSkill fuel dep (chain ++ [name skill]) acc1)
        as [acc2|] eqn:E2.
      2: { intros Hrun. exfalso. revert Hrun. clear.
           induction deps as [|d deps IHd]; [done|]. exact IHd. }
      pose proof (resolveSkill_extends _ _ _ _ _ E2) as Hext2.
      pose proof (proj1 (resolveSkill_grows _ _ _ _ _ _ _ _ _ _ E2)) as Hgrow.
      destruct (IH _ _ _ _ E2) as (Hdep & HA2 & HB2 & HC2).
      { by rewrite Hname. }
      { intros x [?|Hx%list_elem_of_singleton]%elem_of_app;
          rewrite Hr1; apply Hsub, elem_of_union;
          [right; by apply Hchain|left; by apply elem_of_singleton]. }
      rewrite Hname in Hdep.
      assert (okeys (requiredSkills acc) ⊆ okeys (requiredSkills acc2))
        as Hkeys.
      { etrans; [apply Hext1|apply Hext2]. }
      intros Hrun. destruct (IHdeps acc2) as (Hext' & Hsub' & HA' & HB' & HC' & Hreg');
        [by etrans; [|etrans]
        |by etrans; [exact Hsub|rewrite <-Hr1; exact Hgrow]| | | |done|].
      + intros n Hn. destruct (HA2 n Hn) as [Hn1|?]; [|by auto].
        rewrite Hr1 in Hn1. destruct (HA n Hn1) as [?|[?|(c & ? & Hc)]];
          [by auto..|].
        right. right. exists c. split; [done|].
        eapply complete_extends; [|done]. by etrans.
      + intros k Hk. destruct (HB2 k Hk) as [Hk'|?]; [|by auto].
        destruct (Hk1 k Hk') as [Hk0| ->]; [|by auto].
        destruct (HB k Hk0); [by auto|]. right. apply Hgrow. by rewrite Hr1.
      + intros n Hn. destruct (HC2 n Hn) as [Hn1|[->|[?|?]]]; [|..|by auto|by auto].
        * rewrite Hr1 in Hn1. destruct (HC n Hn1) as [?|[?|[?|?]]];
            [by auto..| |by auto].
          right. right. left. by apply Hkeys.
        * rewrite Hname.
          destruct (decide (depName ∈ userSelectedSkillNames selectedSkills));
            [by auto|].
          right. right. left. apply Hext2. by apply Hreg1.
      + split_and!; [by etrans; [|etrans]|done..|].
        intros d [->|Hd]%elem_of_cons Hsome Hsel; [|by apply Hreg'].
        apply Hext', Hext2. by apply Hreg1.
    - intros Hrun.
      destruct (IHdeps (warn ("Skill " +:+ dquote +:+ name skill +:+ dquote
                             +:+ " requires skill " +:+ dquote +:+ depName
                             +:+ dquote +:+ " which is not available") acc))
        as (Hext' & Hsub' & HA' & HB' & HC' & Hreg'); [done..|].
      split_and!; [done..|].
      intros d [->|Hd]%elem_of_cons Hsome Hsel; [|by apply Hreg'].
      rewrite Edep in Hsome. by destruct Hsome. }
  intros Hrun.
  destruct (Hloop (default [] (m_skills manifest)) st3)
    as (Hext' & Hsub' & HA' & HB' & HC' & Hreg');
    [done|by rewrite Hres3'| | | |exact Hrun|].
  - intros n. rewrite Hres3'.
    intros [->%elem_of_singleton|?]%elem_of_union; by auto.
  - intros k. rewrite Hreq3'. by auto.
  - intros n. rewrite Hres3'.
    intros [->%elem_of_singleton|?]%elem_of_union; by auto.
  - split_and!;
      [by apply Hsub', elem_of_union; left; apply elem_of_singleton
      | |done|done].
    intros n Hn. destruct (HA' n Hn) as [?|[->|?]]; [by auto| |by auto].
    right. exists skill. split; [done|].
    intros m Hm. assert (m = manifest) as -> by congruence.
    split_and!.
    + intros d ? ? ?. by apply Hreg'.
    + intros n ? ?. apply Hext', Hext3. by apply Hreg2.
    + intros a ? ? ? ?. apply Hext'. by apply Hreg3.
Qed.

(** *** The loop over the selected skills *)

Lemma maps_ok_initial : maps_ok (RState [] [] [] [] [] ∅).
Proof. split_and!; (split; [constructor|done]). Qed.

Lemma foldl_resolveSkill_maps_ok fuel (l : list component) st0 st :
  foldl (λ (acc : option rstate) (skill : component),
           st ← acc; resolveSkill fuel skill [] st) (Some st0) l = Some st →
  maps_ok st0 → maps_ok st.
Proof.
  revert st0. induction l as [|sk l IHl]; intros st0; cbn [foldl].
  - by intros [= <-].
  - cbn [mbind option_bind].
    destruct (resolveSkill fuel sk [] st0) as [st1|] eqn:E1.
    + intros Hrun HP. apply (IHl _ Hrun).
      by apply (resolveSkill_maps_ok _ _ _ _ _ E1).
    + intros Hrun. exfalso. revert Hrun. clear.
      induction l as [|? l IHl']; [done|]. exact IHl'.
Qed.

Lemma foldl_resolveSkill_post fuel (l : list component) st0 st :
  foldl (λ (acc : option rstate) (skill : component),
           st ← acc; resolveSkill fuel skill [] st) (Some st0) l = Some st →
  (∀ s, s ∈ l → skillMap allSkills !! name s = Some s) →
  (∀ s, s ∈ l → name s ∈ userSelectedSkillNames selectedSkills) →
  (∀ n, n ∈ resolved st0 →
        ∃ c, skillMap allSkills !! n = Some c ∧ complete st0 c) →
  (∀ k, k ∈ okeys (requiredSkills st0) → k ∈ resolved st0) →
  (∀ n, n ∈ resolved st0 →
        n ∈ okeys (requiredSkills st0)
        ∨ n ∈ userSelectedSkillNames selectedSkills) →
  (∀ s, s ∈ l → name s ∈ resolved st)
  ∧ resolved st0 ⊆ resolved st
  ∧ (∀ n, n ∈ resolved st →
          ∃ c, skillMap allSkills !! n = Some c ∧ complete st c)
  ∧ (∀ k, k ∈ okeys (requiredSkills st) → k ∈ resolved st)
  ∧ (∀ n, n ∈ resolved st →
          n ∈ okeys (requiredSkills st)
          ∨ n ∈ userSelectedSkillNames selectedSkills).
Proof.
  revert st0. induction l as [|sk l IHl]; intros st0; cbn [foldl].
  - intros [= <-] _ _ HA HB HC. split_and!; try done.
    by intros s ?%elem_of_nil.
  - cbn [mbind option_bind].
    destruct (resolveSkill fuel sk [] st0) as [st1|] eqn:E1.
    2: { intros Hrun. exfalso. revert Hrun. clear.
         induction l as [|? l IHl']; [done|]. exact IHl'. }
    intros Hrun Hcall Hsel HA HB HC.
    pose proof (resolveSkill_extends _ _ _ _ _ E1) as Hext.
    pose proof (proj1 (resolveSkill_grows _ _ _ _ _ _ _ _ _ _ E1)) as Hgrow.
    destruct (resolveSkill_post _ _ _ _ _ E1) as (Hsk & HA1 & HB1 & HC1).
    { apply Hcall. left. }
    { by intros x ?%elem_of_nil. }
    destruct (IHl st1 Hrun) as (Hall & Hsub & HA' & HB' & HC').
    + intros s ?. apply Hcall. by right.
    + intros s ?. apply Hsel. by right.
    + intros n Hn. destruct (HA1 n Hn) as [Hn0|?]; [|done].
      destruct (HA n Hn0) as (c & ? & ?). exists c. split; [done|].
      by eapply complete_extends.
    + intros k Hk. destruct (HB1 k Hk) as [Hk0|?]; [|done].
      by apply Hgrow, HB.
    + intros n Hn. destruct (HC1 n Hn) as [Hn0|[->|[?|?]]]; [| |by auto..].
      * destruct (HC n Hn0); [|by auto]. left. by apply Hext.
      * right. apply Hsel. left.
    + split_and!; [|set_solver|done..].
      intros s [->|?]%elem_of_cons; [by apply Hsub|by apply Hall].
Qed.

(** *** The loop over the required skills *)

Lemma maps_ok_required_ok st : maps_ok st → Resolution.required_ok allSkills st.
Proof.
  intros (_ & _ & Hnd & Hs). split; [done|].
  intros k [vs Hk]%oget_is_Some_keys.
  destruct (Hs k vs Hk) as (Hd & _). set_solver.
Qed.

(** The first requirer of every required skill is resolved already, so
    each pass of the loop returns at once. *)
Lemma resolve_required_idle fuel steps i st :
  maps_ok st → 0 < fuel → length (requiredSkills st) ≤ i + steps →
  resolve_required selectedSkills allSkills selectedAgents allAgents
    pool_mcpServers fuel steps i st = Some st.
Proof.
  intros Hok Hfuel. revert i.
  induction steps as [|steps IH]; intros i Hi; cbn [resolve_required].
  - destruct (requiredSkills st !! i) as [e|] eqn:E; [|done].
    apply lookup_lt_Some in E. lia.
  - destruct (requiredSkills st !! i) as [[k requiredBy]|] eqn:E; [|done].
    assert (resolve_required selectedSkills allSkills selectedAgents
              allAgents pool_mcpServers fuel steps (S i) st = Some st)
      as Hnext by (apply IH; lia).
    destruct (head requiredBy ≫= _) as [depSkill|] eqn:Ehead; [|done].
    cbn [mbind option_bind].
    assert (name depSkill ∈ resolved st) as Hres.
    { destruct Hok as (_ & _ & Hnd & Hs).
      destruct requiredBy as [|v vs]; [done|]. cbn in Ehead.
      apply name_map_lookup in Ehead as ->.
      destruct (Hs k (v :: vs)) as (_ & _ & _ & Hin); [|apply Hin; left].
      apply oget_NoDup; [done|]. by eapply list_elem_of_lookup_2. }
    destruct fuel as [|fuel']; [lia|]. cbn [Resolver.resolveSkill].
    by rewrite bool_decide_true.
Qed.

(** *** The result arrays *)

Lemma elem_of_build (m : gmap string component) required c :
  NoDup (okeys required) →
  c ∈ build m required ↔
    ∃ k vs c0, oget k required = Some vs ∧ m !! k = Some c0
               ∧ c = with_requiredBy c0 vs.
Proof.
  intros Hnd. unfold build. rewrite list_elem_of_omap. split.
  - intros ([k vs] & Hin & Hc). cbn [fst snd] in Hc.
    destruct (m !! k) as [c0|] eqn:E; [|done]. injection Hc as <-.
    exists k, vs, c0. split_and!; [|done..]. by apply oget_NoDup.
  - intros (k & vs & c0 & Hk & Hm & ->). exists (k, vs).
    split; [by apply oget_Some_elem_of|]. cbn [fst snd]. by rewrite Hm.
Qed.

Lemma names_build (xs : list component) required :
  (∀ k, k ∈ okeys required → k ∈ dom (name_map xs)) →
  name <$> build (name_map xs) required = okeys required.
Proof.
  unfold build, okeys. induction required as [|[k vs] required IH]; [done|].
  intros Hdom. cbn [omap list_omap fst snd].
  destruct (name_map xs !! k) as [c0|] eqn:E.
  - cbn [fmap option_fmap option_map]. rewrite !fmap_cons. cbn [fst].
    f_equal; [by apply name_map_lookup in E|].
    apply IH. intros k' ?. apply Hdom. by right.
  - exfalso. apply not_elem_of_dom in E. apply E, Hdom. left.
Qed.

Lemma elem_of_dom_name_map (xs : list component) k :
  k ∈ dom (name_map xs) ↔ k ∈ name <$> xs.
Proof.
  unfold name_map.
  assert (∀ m : gmap string component,
            k ∈ dom (foldl (λ m x, <[name x := x]> m) m xs)
            ↔ k ∈ dom m ∨ k ∈ name <$> xs) as Hgen.
  { induction xs as [|y xs IH]; intros m; cbn [foldl].
    - rewrite fmap_nil, elem_of_nil. naive_solver.
    - rewrite IH, dom_insert, fmap_cons, elem_of_cons, elem_of_union,
        elem_of_singleton. naive_solver. }
  rewrite Hgen, dom_empty, elem_of_empty. naive_solver.
Qed.

(** The result, from the state the loop over the selected skills leaves. *)
Lemma resolveDependencies_result :
  ∃ st,
    after_selected selectedSkills allSkills selectedAgents allAgents
      pool_mcpServers (length allSkills + 2) = Some st
    ∧ maps_ok st
    ∧ resolve_required selectedSkills allSkills selectedAgents allAgents
        pool_mcpServers (length allSkills + 2) (length allSkills) 0 st
      = Some st
    ∧ resolveDependencies selectedSkills allSkills selectedAgents allAgents
        pool_mcpServers
      = Some {| mcpServers :=
                  build (mcpServerMap pool_mcpServers) (requiredMcpServers st);
                agents := build (agentMap allAgents) (requiredAgents st);
                skills := build (skillMap allSkills) (requiredSkills st);
                errors := st_errors st;
                warnings := st_warnings st |}.
Proof.
  destruct (resolveDependencies_total selectedSkills allSkills selectedAgents
              allAgents pool_mcpServers) as (r & Hr & _).
  unfold resolveDependencies, resolveDependencies_within in *.
  fold (after_selected selectedSkills allSkills selectedAgents allAgents
          pool_mcpServers (length allSkills + 2)) in *.
  destruct (after_selected _ _ _ _ _ _) as [st|] eqn:Est; [|done].
  cbn [mbind option_bind] in *.
  assert (maps_ok st) as Hok.
  { eapply foldl_resolveSkill_maps_ok; [exact Est|apply maps_ok_initial]. }
  assert (resolve_required selectedSkills allSkills selectedAgents allAgents
            pool_mcpServers (length allSkills + 2) (length allSkills) 0 st
          = Some st) as Hidle.
  { apply resolve_required_idle; [done|lia|].
    apply (required_ok_length allSkills), maps_ok_required_ok, Hok. }
  exists st. split_and!; [done..|]. by rewrite Hidle.
Qed.

End resolve.

End ResolutionFacts.

Module ResolutionTheorems.
Import Detector Resolver Requirers ResolverFacts ResolutionFacts Scenarios.

Section resolve.
Variables (selectedSkills allSkills selectedAgents allAgents : list component).
Variable (pool_mcpServers : list component).

Lemma with_requiredBy_requiredBy c0 vs :
  requiredBy (with_requiredBy c0 vs) = vs.
Proof. done. Qed.

Lemma required_inv_build (xs : list component) D res required c :
  required_inv D res required →
  D ⊆ dom (name_map xs) →
  c ∈ build (name_map xs) required →
  ∃ c0, c0 ∈ xs ∧ c = with_requiredBy c0 (requiredBy c)
        ∧ name c ∈ D ∧ requiredBy c ≠ [] ∧ NoDup (requiredBy c)
        ∧ oget (name c) required = Some (requiredBy c)
        ∧ ∀ v, v ∈ requiredBy c → v ∈ res.
Proof.
  intros [Hnd Hreq] HD (k & vs & c0 & Hk & Hc0 & ->)%elem_of_build; [|done].
  destruct (Hreq k vs Hk) as (? & ? & ? & ?).
  apply name_map_lookup in Hc0 as Hname.
  exists c0. cbn [requiredBy with_requiredBy name]. rewrite Hname.
  split_and!; [by eapply name_map_elem_of|done..].
Qed.

Lemma required_inv_names (xs : list component) D res required :
  required_inv D res required →
  D ⊆ dom (name_map xs) →
  NoDup (name <$> build (name_map xs) required).
Proof.
  intros [Hnd Hreq] HD. rewrite names_build; [done|].
  intros k [vs Hk]%oget_is_Some_keys. apply HD. by apply (Hreq k vs).
Qed.

(** X14. [resolveDependencies] returns for every input, and in what it
    returns: no two endpoints, agents or skills have the same name; each
    is a component of the pool (the available agents, the available
    skills) with its [requiredBy] filled in; no agent is one of the
    selected agents and no skill one of the selected skills; every
    [requiredBy] is non-empty and without repetition; and there are no
    errors. *)
Theorem resolution_is_well_formed :
  ∃ r,
    resolveDependencies selectedSkills allSkills selectedAgents allAgents
      pool_mcpServers = Some r
    ∧ NoDup (name <$> mcpServers r)
    ∧ NoDup (name <$> agents r)
    ∧ NoDup (name <$> skills r)
    ∧ (∀ c, c ∈ mcpServers r →
            ∃ c0, c0 ∈ pool_mcpServers
                  ∧ c = with_requiredBy c0 (requiredBy c))
    ∧ (∀ c, c ∈ agents r →
            (∃ c0, c0 ∈ allAgents ∧ c = with_requiredBy c0 (requiredBy c))
            ∧ name c ∉ name <$> selectedAgents)
    ∧ (∀ c, c ∈ skills r →
            (∃ c0, c0 ∈ allSkills ∧ c = with_requiredBy c0 (requiredBy c))
            ∧ name c ∉ name <$> selectedSkills)
    ∧ (∀ c, c ∈ mcpServers r ++ agents r ++ skills r →
            requiredBy c ≠ [] ∧ NoDup (requiredBy c))
    ∧ errors r = [].
Proof.
  destruct (resolveDependencies_result selectedSkills allSkills
              selectedAgents allAgents pool_mcpServers)
    as (st & _ & (Hm & Ha & Hs) & _ & Hr).
  eexists. split; [exact Hr|]. cbn [mcpServers agents skills errors].
  assert (dom (agentMap allAgents) ∖ userSelectedAgentNames selectedAgents
          ⊆ dom (name_map allAgents)) as HDa by set_solver.
  assert (dom (skillMap allSkills) ∖ userSelectedSkillNames selectedSkills
          ⊆ dom (name_map allSkills)) as HDs by set_solver.
  split_and!.
  - by eapply required_inv_names.
  - by eapply required_inv_names.
  - by eapply required_inv_names.
  - intros c Hc.
    destruct (required_inv_build _ _ _ _ _ Hm ltac:(done) Hc)
      as (c0 & ? & ? & _). by exists c0.
  - intros c Hc.
    destruct (required_inv_build _ _ _ _ _ Ha HDa Hc)
      as (c0 & ? & ? & HD & _). split; [by exists c0|].
    apply elem_of_difference in HD as [_ HD]. intros Hin. apply HD.
    by apply elem_of_list_to_set.
  - intros c Hc.
    destruct (required_inv_build _ _ _ _ _ Hs HDs Hc)
      as (c0 & ? & ? & HD & _). split; [by exists c0|].
    apply elem_of_difference in HD as [_ HD]. intros Hin. apply HD.
    by apply elem_of_list_to_set.
  - intros c [Hc|[Hc|Hc]%elem_of_app]%elem_of_app.
    + by destruct (required_inv_build _ _ _ _ _ Hm ltac:(done) Hc)
        as (c0 & _ & _ & _ & ? & ? & _).
    + by destruct (required_inv_build _ _ _ _ _ Ha HDa Hc)
        as (c0 & _ & _ & _ & ? & ? & _).
    + by destruct (required_inv_build _ _ _ _ _ Hs HDs Hc)
        as (c0 & _ & _ & _ & ? & ? & _).
  - exact (resolveDependencies_no_error _ _ _ _ _ _ Hr).
Qed.

(** X15. The loop at the end of [resolveDependencies], meant to resolve
    the dependencies of the auto-required skills, never changes anything:
    it calls [resolveSkill] on the first requirer of each required skill,
    and a requirer is resolved already. The result is the one the loop
    over the selected skills leaves. *)
Theorem second_pass_is_idle :
  ∃ st,
    after_selected selectedSkills allSkills selectedAgents allAgents
      pool_mcpServers (length allSkills + 2) = Some st
    ∧ resolve_required selectedSkills allSkills selectedAgents allAgents
        pool_mcpServers (length allSkills + 2) (length allSkills) 0 st
      = Some st
    ∧ resolveDependencies selectedSkills allSkills selectedAgents allAgents
        pool_mcpServers
      = Some {| mcpServers :=
                  build (mcpServerMap pool_mcpServers) (requiredMcpServers st);
                agents := build (agentMap allAgents) (requiredAgents st);
                skills := build (skillMap allSkills) (requiredSkills st);
                errors := st_errors st;
                warnings := st_warnings st |}.
Proof.
  destruct (resolveDependencies_result selectedSkills allSkills
              selectedAgents allAgents pool_mcpServers)
    as (st & ? & _ & ? & ?).
  by exists st.
Qed.

Lemma registered_build (xs : list component) required d v c0 :
  NoDup (okeys required) → name_map xs !! d = Some c0 →
  registered required d v →
  ∃ c, c ∈ build (name_map xs) required ∧ name c = d ∧ v ∈ requiredBy c.
Proof.
  intros Hnd Hc0 Hreg. unfold registered in Hreg.
  destruct (oget d required) as [vs|] eqn:E; [|by apply elem_of_nil in Hreg].
  exists (with_requiredBy c0 vs). split_and!.
  - apply elem_of_build; [done|]. by exists d, vs, c0.
  - cbn [name with_requiredBy]. by eapply name_map_lookup.
  - exact Hreg.
Qed.

(** X16. When every selected skill is the available skill of its name,
    the result is closed under the declared dependencies: for a selected
    skill and for a skill of the result alike, every skill its manifest
    names that is available and not selected is in the result, every
    endpoint it names that is in the pool is in the result, and so is its
    agent when available and not selected, each with the declaring skill
    among its [requiredBy]; and every requirer named in the result is a
    selected skill or a skill of the result. *)
Theorem dependency_closure :
  (∀ s, s ∈ selectedSkills → skillMap allSkills !! name s = Some s) →
  ∃ r,
    resolveDependencies selectedSkills allSkills selectedAgents allAgents
      pool_mcpServers = Some r
    ∧ (∀ s manifest,
         s ∈ selectedSkills ∨ s ∈ skills r →
         manifest_of s = Some manifest →
         (∀ d, d ∈ default [] (m_skills manifest) →
               d ∈ name <$> allSkills → d ∉ name <$> selectedSkills →
               ∃ c, c ∈ skills r ∧ name c = d ∧ name s ∈ requiredBy c)
         ∧ (∀ n, n ∈ default [] (m_mcpServers manifest) →
                 n ∈ name <$> pool_mcpServers →
                 ∃ c, c ∈ mcpServers r ∧ name c = n ∧ name s ∈ requiredBy c)
         ∧ (∀ a, m_agent manifest = Some a → a ≠ "" →
                 a ∈ name <$> allAgents → a ∉ name <$> selectedAgents →
                 ∃ c, c ∈ agents r ∧ name c = a ∧ name s ∈ requiredBy c))
    ∧ (∀ c x, c ∈ mcpServers r ++ agents r ++ skills r →
              x ∈ requiredBy c →
              x ∈ name <$> selectedSkills ∨ x ∈ name <$> skills r).
Proof.
  intros Hsel.
  destruct (resolveDependencies_result selectedSkills allSkills
              selectedAgents allAgents pool_mcpServers)
    as (st & Hst & Hok & _ & Hr).
  destruct Hok as (Hm & Ha & Hs).
  destruct (foldl_resolveSkill_post selectedSkills allSkills selectedAgents
              allAgents pool_mcpServers _ _ _ _ Hst)
    as (Hall & _ & HA & HB & HC); [done| | | | |].
  { intros s Hs'. apply elem_of_list_to_set, list_elem_of_fmap. by exists s. }
  { by intros n ?%elem_of_empty. }
  { by intros k ?%elem_of_nil. }
  { by intros n ?%elem_of_empty. }
  assert (dom (agentMap allAgents) ∖ userSelectedAgentNames selectedAgents
          ⊆ dom (name_map allAgents)) as HDa by set_solver.
  assert (dom (skillMap allSkills) ∖ userSelectedSkillNames selectedSkills
          ⊆ dom (name_map allSkills)) as HDs by set_solver.
  eexists. split; [exact Hr|]. cbn [mcpServers agents skills]. split.
  - intros s manifest Hs' Hmanifest.
    assert (∃ c0, skillMap allSkills !! name s = Some c0
                  ∧ manifest_of c0 = Some manifest ∧ name c0 = name s
                  ∧ name s ∈ resolved st) as (c0 & Hc0 & Hm0 & Hn0 & Hres).
    { destruct Hs' as [Hs'|Hs'].
      - exists s. split_and!; [by apply Hsel|done|done|by apply Hall].
      - apply elem_of_build in Hs' as (k & vs & c0 & Hk & Hc0 & ->);
          [|by destruct Hs].
        apply name_map_lookup in Hc0 as Hname.
        exists c0. cbn [name with_requiredBy]. rewrite Hname.
        split_and!; [done..|]. apply HB, oget_is_Some_keys. by eexists. }
    destruct (HA _ Hres) as (c & Hc & Hcomplete).
    assert (c = c0) as -> by congruence.
    destruct (Hcomplete manifest Hm0) as (Hcs & Hcm & Hca).
    rewrite Hn0 in Hcs, Hcm, Hca.
    split_and!.
    + intros d Hd Havail Hnot.
      apply elem_of_dom_name_map, elem_of_dom in Havail as [dep Hdep].
      eapply registered_build; [by destruct Hs|done|].
      apply Hcs; [done|by eexists|].
      unfold userSelectedSkillNames. by rewrite elem_of_list_to_set.
    + intros n Hn Havail.
      apply elem_of_dom_name_map, elem_of_dom in Havail as [dep Hdep].
      eapply registered_build; [by destruct Hm|done|].
      apply Hcm; [done|by eexists].
    + intros a Hagent Hne Havail Hnot.
      apply elem_of_dom_name_map, elem_of_dom in Havail as [dep Hdep].
      eapply registered_build; [by destruct Ha|done|].
      apply Hca; [done|done|by eexists|].
      unfold userSelectedAgentNames. by rewrite elem_of_list_to_set.
  - intros c x Hc Hx.
    assert (x ∈ resolved st) as Hres.
    { apply elem_of_app in Hc as [Hc|[Hc|Hc]%elem_of_app].
      - destruct (required_inv_build _ _ _ _ _ Hm ltac:(done) Hc)
          as (_ & _ & _ & _ & _ & _ & _ & Hin). by apply Hin.
      - destruct (required_inv_build _ _ _ _ _ Ha HDa Hc)
          as (_ & _ & _ & _ & _ & _ & _ & Hin). by apply Hin.
      - destruct (required_inv_build _ _ _ _ _ Hs HDs Hc)
          as (_ & _ & _ & _ & _ & _ & _ & Hin). by apply Hin. }
    destruct (HC x Hres) as [Hkey|Hsel'].
    + right. rewrite names_build; [done|].
      intros k [vs Hk]%oget_is_Some_keys. apply HDs.
      destruct Hs as [_ Hs]. by apply (Hs k vs).
    + left. by apply elem_of_list_to_set in Hsel'.
Qed.

End resolve.

Lemma dependency_closure_witness :
  ∃ r,
    resolveDependencies [skill_D1] [skill_D1; skill_D2; skill_D3] [] []
      [endpoint "M"] = Some r
    ∧ (∃ c, c ∈ skills r ∧ name c = "D2" ∧ "D1" ∈ requiredBy c)
    ∧ (∀ c x, c ∈ skills r → x ∈ requiredBy c →
              x ∈ ["D1"] ∨ x ∈ name <$> skills r).
Proof.
  destruct (dependency_closure [skill_D1] [skill_D1; skill_D2; skill_D3] [] []
              [endpoint "M"]) as (r & Hr & Hclosed & Hrequirers).
  { intros s ->%list_elem_of_singleton. by vm_compute. }
  exists r. split; [exact Hr|]. split.
  - destruct (Hclosed skill_D1
                (Manifest (Some []) None (Some ["D2"]))) as (H2 & _ & _).
    + left. left.
    + reflexivity.
    + apply (H2 "D2").
      * left.
      * right. left.
      * by intros ?%list_elem_of_singleton.
  - intros c x Hc Hx. apply (Hrequirers c x); [|done].
    apply elem_of_app. right. apply elem_of_app. by right.
Defined.

End ResolutionTheorems.

(** ** Copying a directory tree *)

Module CopyFacts.
Import Tracker Tree Trees HashFacts.

Lemma scan_only_manifest es rel :
  (∀ k, k ∈ es.*1 → k = "manifest.json") → scan es rel = [].
Proof.
  induction es as [|[k n] es IH]; [done|]. intros Hk.
  rewrite scan_cons, IH by (intros ? ?; apply Hk; by right).
  rewrite (Hk k) by left. done.
Qed.

Lemma oget_app_middle_ne {V} k k' (x : V) (a b : obj V) :
  k' ≠ k → oget k' (a ++ (k, x) :: b) = oget k' (a ++ b).
Proof.
  intros Hne. induction a as [|[k0 v0] a IH]; cbn [app oget].
  - by apply not_eq_sym, String.eqb_neq in Hne as ->.
  - by rewrite IH.
Qed.

(** Two directories with the same names (the manifest apart) and, under
    each name, the same files up to order, list the same files up to
    order. *)
Lemma scan_same_keys (a b : list (string * node)) rel :
  NoDup a.*1 → NoDup b.*1 →
  (∀ k, k ≠ "manifest.json" → k ∈ a.*1 ↔ k ∈ b.*1) →
  (∀ k x y, k ≠ "manifest.json" → oget k a = Some x → oget k b = Some y →
            scan_entry (path_join rel k) x ≡ₚ scan_entry (path_join rel k) y) →
  scan a rel ≡ₚ scan b rel.
Proof.
  revert b. induction a as [|[k x] a IH]; intros b Ha Hb Hkeys Hget.
  - rewrite (scan_only_manifest b); [done|].
    intros k Hk. destruct (decide (k = "manifest.json")) as [|Hne]; [done|].
    apply (Hkeys k Hne) in Hk. by apply elem_of_nil in Hk.
  - rewrite fmap_cons in Ha. apply NoDup_cons in Ha as [Hk Ha].
    cbn [fst] in Hk. rewrite scan_cons.
    destruct (String.eqb k "manifest.json") eqn:E.
    + apply String.eqb_eq in E as ->. cbn [app]. apply IH; [done..| |].
      * intros k Hne. rewrite <-(Hkeys k Hne), fmap_cons, elem_of_cons.
        cbn [fst]. naive_solver.
      * intros k x' y Hne Hx' Hy. apply Hget; [done| |done].
        cbn [oget]. by apply not_eq_sym, String.eqb_neq in Hne as ->.
    + apply String.eqb_neq in E.
      assert (k ∈ b.*1) as Hkb by (apply Hkeys; [done|left]).
      apply list_elem_of_fmap in Hkb as ([k' y] & -> & Hy). cbn [fst] in *.
      apply list_elem_of_split in Hy as (b1 & b2 & ->).
      assert (NoDup (b1 ++ b2).*1 ∧ k' ∉ (b1 ++ b2).*1) as [Hb' Hk'].
      { rewrite fmap_app, fmap_cons in Hb. cbn [fst] in Hb.
        apply NoDup_app in Hb as (Hb1 & Hdisj & [Hk2 Hb2]%NoDup_cons).
        rewrite fmap_app. split.
        - apply NoDup_app. split_and!; [done| |done].
          intros z Hz1 Hz2. apply (Hdisj z Hz1). by right.
        - rewrite elem_of_app. intros [Hz|Hz]; [|done].
          apply (Hdisj k' Hz). left. }
      rewrite (scan_Permutation (b1 ++ (k', y) :: b2) ((k', y) :: b1 ++ b2))
        by (by rewrite Permutation_middle).
      rewrite scan_cons. apply String.eqb_neq in E as HE. rewrite HE.
      apply Permutation_app.
      * apply Hget; [done|cbn [oget]; by rewrite String.eqb_refl|].
        apply oget_NoDup; [done|]. apply elem_of_app. right. left.
      * apply IH; [done..| |].
        -- intros k Hne. split.
           ++ intros Hka.
              assert (k ≠ k') as Hkk by (by intros ->).
              assert (k ∈ (b1 ++ (k', y) :: b2).*1) as Hkb
                by (apply Hkeys; [done|by right]).
              rewrite fmap_app, fmap_cons, elem_of_app, elem_of_cons in Hkb.
              rewrite fmap_app, elem_of_app. naive_solver.
           ++ intros Hkb.
              assert (k ≠ k') as Hkk by (by intros ->).
              assert (k ∈ ((k', x) :: a).*1) as Hka.
              { apply Hkeys; [done|].
                rewrite fmap_app, elem_of_app in Hkb.
                rewrite fmap_app, fmap_cons, elem_of_app, elem_of_cons.
                naive_solver. }
              rewrite fmap_cons, elem_of_cons in Hka. naive_solver.
        -- intros k x' y' Hne Hx' Hy'.
           assert (k ≠ k') as Hkk.
           { intros ->. apply Hk, oget_is_Some_keys. by eexists. }
           apply Hget; [done| |].
           ++ cbn [oget]. by apply not_eq_sym, String.eqb_neq in Hkk as ->.
           ++ by rewrite oget_app_middle_ne.
Qed.

(** The loop of [fs.copy] over the entries of a source directory. *)
Local Abbreviation copy_entries :=
  (fix go (es : list (string * node)) (acc : obj node) : option (obj node) :=
     match es with
     | [] => Some acc
     | (name, child) :: es' =>
         if not_manifest name then
           match copy_node not_manifest child (oget name acc) with
           | Some n => go es' (oset name n acc)
           | None => None
           end
         else go es' acc
     end).

Lemma copy_entries_covers es :
  ∀ acc,
    NoDup es.*1 → NoDup acc.*1 →
    Forall (λ e : string * node,
              ∀ dst, covers e.2 dst →
                     ∃ m, copy_node not_manifest e.2 dst = Some m
                          ∧ ∀ rel, scan_entry rel m ≡ₚ scan_entry rel e.2)
      es →
    (∀ name s, (name, s) ∈ es → name ≠ "manifest.json" →
               covers s (oget name acc)) →
    ∃ acc',
      copy_entries es acc = Some acc'
      ∧ NoDup acc'.*1
      ∧ (∀ k, k ∈ acc'.*1 ↔
              k ∈ acc.*1 ∨ (k ∈ es.*1 ∧ k ≠ "manifest.json"))
      ∧ (∀ k, k ∉ es.*1 ∨ k = "manifest.json" → oget k acc' = oget k acc)
      ∧ (∀ k s v, (k, s) ∈ es → k ≠ "manifest.json" →
                  oget k acc' = Some v →
                  ∀ rel, scan_entry rel v ≡ₚ scan_entry rel s).
Proof.
  induction es as [|[name child] es IH]; intros acc Hes Hacc Hcopy Hcov.
  - exists acc. split_and!; [done..| | |].
    + intros k. rewrite fmap_nil, elem_of_nil. naive_solver.
    + done.
    + by intros k s v ?%elem_of_nil.
  - rewrite fmap_cons in Hes. apply NoDup_cons in Hes as [Hname Hes].
    cbn [fst] in Hname. apply Forall_cons in Hcopy as [Hchild Hcopy].
    cbn [snd] in Hchild. unfold not_manifest at 1.
    destruct (String.eqb name "manifest.json") eqn:E; cbn [negb].
    + apply String.eqb_eq in E as ->.
      destruct (IH acc) as (acc' & Hrun & Hnd & Hkeys & Hsame & Hscan);
        [done..|by intros; apply Hcov; [right|]|].
      exists acc'. split_and!; [done..| | |].
      * intros k. rewrite Hkeys, fmap_cons, elem_of_cons. cbn [fst].
        naive_solver.
      * intros k Hk. apply Hsame.
        rewrite fmap_cons, not_elem_of_cons in Hk. naive_solver.
      * intros k s v [[= -> ->]|Hin]%elem_of_cons Hne; [done|].
        by apply Hscan.
    + apply String.eqb_neq in E.
      destruct (Hchild (oget name acc)) as (m & Hm & Hscan_m);
        [by apply Hcov; [left|]|].
      rewrite Hm.
      destruct (IH (oset name m acc))
        as (acc' & Hrun & Hnd & Hkeys & Hsame & Hscan);
        [done|by apply NoDup_okeys_oset|done| |].
      { intros n s Hin Hne. rewrite oget_oset_ne; [apply Hcov; [by right|done]|].
        intros ->. apply Hname. apply list_elem_of_fmap. by exists (n, s). }
      exists acc'. split_and!; [done..| | |].
      * intros k. rewrite Hkeys, fmap_cons, elem_of_cons. cbn [fst].
        change ((oset name m acc).*1) with (okeys (oset name m acc)).
        rewrite okeys_oset. unfold okeys. case_decide as Hin.
        -- naive_solver.
        -- rewrite elem_of_app, list_elem_of_singleton. naive_solver.
      * intros k Hk. rewrite Hsame.
        -- apply oget_oset_ne.
           rewrite fmap_cons, not_elem_of_cons in Hk. cbn [fst] in Hk.
           naive_solver.
        -- rewrite fmap_cons, not_elem_of_cons in Hk. naive_solver.
      * intros k s v [[= -> ->]|Hin]%elem_of_cons Hne Hv rel;
          [|by eapply Hscan].
        rewrite Hsame, oget_oset_eq in Hv by (by left).
        injection Hv as <-. apply Hscan_m.
Qed.

(** Copying a tree over a destination it covers does not throw, and the
    result lists the files of the source, up to order. *)
Lemma copy_node_covers src :
  unique_names src →
  ∀ dst, covers src dst →
         ∃ m, copy_node not_manifest src dst = Some m
              ∧ (∀ es, src = Dir es → ∃ ms, m = Dir ms)
              ∧ ∀ rel, scan_entry rel m ≡ₚ scan_entry rel src.
Proof.
  induction src as [c|es IH] using node_ind_entries; intros Huniq dst Hcov.
  - exists (File c). split_and!; [|done|done].
    inversion Hcov; subst; done.
  - inversion Huniq as [|es' Hnd Hall]; subst.
    assert (∃ ds, NoDup ds.*1
                  ∧ copy_node not_manifest (Dir es) dst
                    = Dir <$> copy_entries es ds
                  ∧ (∀ name s, (name, s) ∈ es → name ≠ "manifest.json" →
                               covers s (oget name ds))
                  ∧ (∀ k, k ∈ ds.*1 → k ≠ "manifest.json" → k ∈ es.*1))
      as (ds & Hds & -> & Hcovers & Hsub).
    { inversion Hcov as [|? ?|? ds Hds Hall']; subst.
      - exists []. split_and!; [constructor|done| |].
        + intros name s _ _. constructor.
        + by intros k ?%elem_of_nil.
      - exists ds. rewrite Forall_forall in Hall'. split_and!; [done|done| |].
        + intros name s Hin Hne.
          destruct (oget name ds) as [d|] eqn:Ed; [|constructor].
          apply oget_Some_elem_of in Ed.
          destruct (Hall' _ Ed) as [?|(s' & Hs' & Hcov')]; [done|].
          cbn [fst snd] in *.
          assert (s' = s) as ->; [|done].
          apply (oget_NoDup _ _ _ Hnd) in Hin. congruence.
        + intros k ([k' d] & -> & Hin)%list_elem_of_fmap Hk.
          destruct (Hall' _ Hin) as [?|(s' & Hs' & _)]; [done|].
          cbn [fst] in *. apply oget_is_Some_keys. by eexists. }
    destruct (copy_entries_covers es ds)
      as (acc' & -> & Hnd' & Hkeys & Hsame & Hscan); [done|done| |done|].
    + rewrite Forall_forall in IH, Hall. apply Forall_forall.
      intros e He dst' Hcov'.
      destruct (IH e He (Hall e He) dst' Hcov') as (m & ? & _ & ?).
      by exists m.
    + exists (Dir acc'). split_and!; [done|by eexists|].
      intros rel. rewrite !scan_entry_Dir. apply scan_same_keys; [done..| |].
      * intros k Hne. rewrite Hkeys. split; [|naive_solver].
        intros [Hk|[? _]]; [by apply Hsub|done].
      * intros k x y Hne Hx Hy. eapply Hscan; [|done..].
        by apply oget_Some_elem_of.
Qed.

End CopyFacts.

(** ** Installing and removing file components *)

Module InstallTheorems.
Import Tracker Tree Trees HashFacts CopyFacts Detector StatusResolver
  Scenarios InstallScenarios Prompts.
Local Open Scope nat_scope.

Section skills.
Context `{R : Runtime} `{!LocaleOrder R}.

(** X17. Installing a skill makes its status installed, whether the
    destination is missing or holds an installed copy, as long as the copy
    holds no file or directory the source lacks (the reserved manifest
    name apart, which is neither copied nor hashed): the copy does not
    throw, it is the only write, and afterwards the directory hashes of
    source and destination agree. The hashed files of the source are
    taken to have distinct relative paths which the collation of
    [localeCompare], a total preorder, tells apart. *)
Theorem synced_skill_is_installed
    (c : component) (es : list (string * node)) (w : world) :
  category c = "skills" →
  files w !! sourcePath c = Some (Dir es) →
  unique_names (Dir es) →
  covers (Dir es) (files w !! targetPath c) →
  NoDup (relPath <$> scan es "") →
  told_apart (scan es "") →
  sourcePath c ≠ targetPath c →
  basename (sourcePath c) ≠ "manifest.json" →
  ∃ w',
    Hands.installFileComponent c w = (Ok true, w')
    ∧ log w' = log w ++ [CopyTree (sourcePath c) (targetPath c)]
    ∧ computeDirectoryHash (files w') (targetPath c)
      = computeDirectoryHash (files w') (sourcePath c)
    ∧ getFileBasedStatus w' c = INSTALLED.
Proof.
  intros Hcat Hsrc Huniq Hcov Hnd Htold Hne Hbase.
  destruct (copy_node_covers (Dir es) Huniq _ Hcov) as (m & Hm & Hdir & Hscan).
  destruct (Hdir es eq_refl) as [ms ->]. unfold not_manifest in Hm.
  assert (∃ w',
            Hands.installFileComponent c w = (Ok true, w')
            ∧ log w' = log w ++ [CopyTree (sourcePath c) (targetPath c)]
            ∧ files w' = <[targetPath c := Dir ms]> (files w))
    as (w' & Hrun & Hlog & Hfiles).
  { unfold Hands.installFileComponent, Hands.ensureDir.
    unfold bind, get, ret. cbn [fst snd]. unfold resolve.
    unfold pathExists at 1. rewrite Hsrc.
    rewrite bool_decide_true by done. cbn [negb].
    assert ((if pathExists (files w) (targetPath c)
             then
               if bool_decide (computeFileHash (files w) (sourcePath c)
                               ≠ computeFileHash (files w) (targetPath c))
               then Hands.copy (λ _, true) (targetPath c)
                      (targetPath c +:+ ".local")
               else λ w0, (Ok (), w0)
             else λ w0, (Ok (), w0)) w = (Ok (), w)) as ->.
    { unfold pathExists.
      destruct (files w !! targetPath c) as [tn|] eqn:Et;
        [|by rewrite bool_decide_false by (by intros [? [=]])].
      rewrite bool_decide_true by done.
      inversion Hcov as [|? ?|? ds Hds Hall]; subst.
      unfold computeFileHash, readFile. rewrite Hsrc, Et.
      by rewrite bool_decide_false by (by intros ?). }
    unfold Hands.copy, bind, get, modify. cbn [fst snd]. rewrite Hsrc.
    apply String.eqb_neq in Hbase as ->. cbn [negb]. rewrite Hm.
    eexists. split; [reflexivity|]. by cbn [log files logged set_files]. }
  assert (computeDirectoryHash (files w') (targetPath c)
          = computeDirectoryHash (files w') (sourcePath c)) as Hhash.
  { unfold computeDirectoryHash. rewrite Hfiles, lookup_insert_eq.
    rewrite lookup_insert_ne, Hsrc by done. do 2 f_equal.
    symmetry. apply merge_sort_files; [done..|].
    specialize (Hscan ""). by rewrite !scan_entry_Dir in Hscan. }
  exists w'. split_and!; [done..|].
  unfold getFileBasedStatus, resolve, hashFn. rewrite Hcat.
  change (String.eqb "skills" "skills") with true. cbn match.
  rewrite (bool_decide_true _ (eq_sym Hhash)).
  unfold pathExists. rewrite Hfiles, lookup_insert_eq.
  by rewrite bool_decide_true.
Qed.

End skills.

Lemma synced_skill_is_installed_witness :
  getFileBasedStatus (H:=plain_runtime) lint_world lint = OUTDATED
  ∧ ∃ w',
      Hands.installFileComponent (H:=plain_runtime) lint lint_world
      = (Ok true, w')
      ∧ getFileBasedStatus (H:=plain_runtime) w' lint = INSTALLED.
Proof.
  split; [by vm_compute|].
  destruct (synced_skill_is_installed (R:=plain_runtime) lint lint_skill
              lint_world) as (w' & Hrun & _ & _ & Hstatus).
  - reflexivity.
  - by vm_compute.
  - constructor; [apply (bool_decide_unpack _); by vm_compute|].
    repeat constructor; apply (bool_decide_unpack _); by vm_compute.
  - change (files lint_world !! targetPath lint)
      with (Some (Dir lint_installed)).
    constructor; [apply (bool_decide_unpack _); by vm_compute|].
    repeat first
      [ apply Forall_nil_2
      | apply Forall_cons; split; cbn [fst snd] ].
    + right. exists (Dir [("a.md", File "A"); ("b.md", File "B")]).
      split; [reflexivity|].
      constructor; [apply (bool_decide_unpack _); by vm_compute|].
      repeat first
        [ apply Forall_nil_2
        | apply Forall_cons; split; cbn [fst snd] ].
      right. exists (File "B"). split; [reflexivity|constructor].
    + by left.
    + right. exists (File "Lint the diff."). split; [reflexivity|constructor].
  - apply (bool_decide_unpack _). by vm_compute.
  - apply plain_runtime_told_apart.
  - by vm_compute.
  - by vm_compute.
  - by exists w'.
Defined.

Section removing.
Context `{R : Runtime}.

(** X18. The removal pass over a component: one that is not selected
    and whose status is installed or outdated is reported as removed, its
    destination is deleted (so its status becomes available) and it is no
    longer tracked as a direct selection, while the dependencies of the
    ledger, every other path (a [.local] backup included) and the two
    shared documents stay as they are; any other component is left alone,
    with no write at all. *)
Theorem deselected_component_is_removed
    (selectedNames : list string) (r : Hands.results) (comp : component)
    (w : world) :
  (name comp ∉ selectedNames →
   status comp = Some INSTALLED ∨ status comp = Some OUTDATED →
   ∃ w',
     Hands.remove_unselected selectedNames r comp w
     = (Ok (Hands.push_removed (name comp) r), w')
     ∧ files w' !! targetPath comp = None
     ∧ (∀ p, p ≠ targetPath comp → files w' !! p = files w !! p)
     ∧ getFileBasedStatus w' comp = AVAILABLE
     ∧ oget (name comp) (getTrackedComponents (category comp) (meta w'))
       = None
     ∧ (∀ c, getTrackedDependencies c (meta w')
             = getTrackedDependencies c (meta w))
     ∧ settingsFile w' = settingsFile w ∧ configFile w' = configFile w)
  ∧ (name comp ∈ selectedNames
     ∨ (status comp ≠ Some INSTALLED ∧ status comp ≠ Some OUTDATED) →
     Hands.remove_unselected selectedNames r comp w = (Ok r, w)).
Proof.
  split.
  - intros Hsel Hstatus. unfold Hands.remove_unselected.
    rewrite bool_decide_true by done.
    unfold Hands.uninstallFileComponent, Hands.remove, World.trackUninstall.
    unfold bind, get, modify, ret. cbn [fst snd]. unfold resolve.
    assert (∀ fs : store,
              (fs = files w ∧ files w !! targetPath comp = None)
              ∨ fs = delete (targetPath comp) (files w) →
              fs !! targetPath comp = None
              ∧ ∀ p, p ≠ targetPath comp → fs !! p = files w !! p) as Hfs.
    { intros fs [[-> ?]| ->]; [done|]. split; [apply lookup_delete_eq|].
      intros p ?. by apply lookup_delete_ne. }
    unfold pathExists.
    destruct (files w !! targetPath comp) as [n|] eqn:Et.
    + rewrite bool_decide_true by done. cbn [fst snd].
      eexists. split; [reflexivity|]. unfold logged, set_meta, set_files.
      cbn [files meta settingsFile configFile].
      destruct (Hfs (delete (targetPath comp) (files w))) as [Hgone Hrest];
        [by right|].
      split_and!; [done|done| | | |done|done].
      * unfold getFileBasedStatus, resolve, pathExists. cbn [files].
        rewrite Hgone. by rewrite bool_decide_false by (by intros [? [=]]).
      * rewrite TrackerFacts.components_trackUninstall, decide_True by done.
        apply oget_odel_eq.
      * intros c. apply TrackerFacts.resolvedDeps_trackUninstall.
    + rewrite bool_decide_false by (by intros [? [=]]). cbn [fst snd].
      eexists. split; [reflexivity|]. unfold logged, set_meta.
      cbn [files meta settingsFile configFile].
      split_and!; [done|done| | | |done|done].
      * unfold getFileBasedStatus, resolve, pathExists. cbn [files].
        rewrite Et. by rewrite bool_decide_false by (by intros [? [=]]).
      * rewrite TrackerFacts.components_trackUninstall, decide_True by done.
        apply oget_odel_eq.
      * intros c. apply TrackerFacts.resolvedDeps_trackUninstall.
  - intros Hkeep. unfold Hands.remove_unselected.
    rewrite bool_decide_false; [done|]. intros [? [?|?]]; naive_solver.
Qed.

Lemma fold_each_declined {A} (body : Hands.results → A → M Hands.results)
    (xs : list A) r w :
  (∀ x w0, body r x w0 = (Ok r, asked_more 1 w0)) →
  fold_each body r xs w = (Ok r, asked_more (length xs) w).
Proof.
  intros Hbody. revert w. induction xs as [|x xs IH]; intros w.
  - cbn. unfold ret, asked_more. destruct w. cbn. by rewrite Nat.add_0_r.
  - cbn [fold_each length]. unfold bind. rewrite Hbody, IH.
    unfold asked_more. cbn. do 2 f_equal. lia.
Qed.

(** X19. When the user answers no to every prompt, orphan cleanup
    removes nothing: the files, the ledger, the two shared documents and
    the write log are as before, and the results are unchanged; what it
    has done is ask once for every orphan [findOrphans] reported. *)
Theorem declined_cleanup_removes_nothing
    (selectedSkills : list component) (r : Hands.results) (w : world) :
  (∀ n, confirm n = false) →
  let orphans :=
    Resolver.findOrphans (readMetadata (meta w))
      (Hands.retained (readMetadata (meta w)) (name <$> selectedSkills)) in
  Hands.cleanupOrphans selectedSkills r w
  = (Ok r,
     asked_more (length (Resolver.o_mcpServers orphans)
                 + length (Resolver.o_agents orphans)
                 + length (Resolver.o_skills orphans)) w).
Proof.
  intros Hno orphans. unfold Hands.cleanupOrphans.
  unfold bind at 1, get at 1. cbn [fst snd]. fold orphans.
  unfold bind.
  rewrite (fold_each_declined Hands.cleanup_mcp).
  2: { intros x w0. unfold Hands.cleanup_mcp, bind, prompt, ret, asked_more.
       by rewrite Hno, Nat.add_1_r. }
  rewrite (fold_each_declined Hands.cleanup_agent).
  2: { intros x w0. unfold Hands.cleanup_agent, bind, prompt, ret, asked_more.
       by rewrite Hno, Nat.add_1_r. }
  rewrite (fold_each_declined Hands.cleanup_skill).
  2: { intros x w0. unfold Hands.cleanup_skill, bind, prompt, ret, asked_more.
       by rewrite Hno, Nat.add_1_r. }
  unfold asked_more. cbn. do 2 f_equal. lia.
Qed.

End removing.

Lemma declined_cleanup_removes_nothing_witness :
  Hands.cleanupOrphans (H:=answering false plain_runtime) [] Hands.no_results
    chain_tracked
  = (Ok Hands.no_results, asked_more 3 chain_tracked).
Proof.
  exact (declined_cleanup_removes_nothing (R:=answering false plain_runtime)
           [] Hands.no_results chain_tracked (λ _, eq_refl)).
Defined.

End InstallTheorems.

(** ** The detector *)

Module DetectFacts.
Import Tracker Detector Detect Trees HashFacts.

Lemma substring_all s : substring 0 (String.length s) s = s.
Proof. induction s as [|c s IH]; [done|]. cbn. by rewrite IH. Qed.

Lemma substring_split n m s :
  (n + m = String.length s)%nat →
  substring 0 n s +:+ substring n m s = s.
Proof.
  revert n m. induction s as [|c s IH]; intros n m Hlen; cbn in Hlen.
  - assert (n = 0 ∧ m = 0)%nat as [-> ->] by lia. done.
  - destruct n as [|n].
    + cbn in Hlen. subst m.
      change (substring 0 (S (String.length s)) (String c s) = String c s).
      cbn. by rewrite substring_all.
    + change (String c (substring 0 n s +:+ substring n m s) = String c s).
      f_equal. apply IH. lia.
Qed.

(** A name that ends with the extension is its base name followed by the
    extension. *)
Lemma basename_ext_append name ext :
  endsWith name ext = true → name = basename_ext name ext +:+ ext.
Proof.
  intros Hends. unfold basename_ext. rewrite Hends.
  unfold endsWith in Hends.
  apply andb_true_iff in Hends as [Hlen Hsuffix].
  apply Nat.leb_le in Hlen. apply String.eqb_eq in Hsuffix.
  set (base := substring 0 _ name). rewrite <-Hsuffix. symmetry.
  apply substring_split. lia.
Qed.

Lemma NoDup_omap_names (f : string * node → option component) entries :
  NoDup entries.*1 →
  (∀ e e' c c', f e = Some c → f e' = Some c' → name c = name c' →
                e.1 = e'.1) →
  NoDup (name <$> omap f entries).
Proof.
  intros Hnd Hinj. induction entries as [|e entries IH]; [constructor|].
  rewrite fmap_cons in Hnd. apply NoDup_cons in Hnd as [He Hnd].
  cbn [omap list_omap]. destruct (f e) as [c|] eqn:Ec; [|by apply IH].
  rewrite fmap_cons. apply NoDup_cons. split; [|by apply IH].
  intros (c' & Hname & (e' & He' & Hc')%list_elem_of_omap)%list_elem_of_fmap.
  apply He. rewrite (Hinj e e' c c' Ec Hc' Hname).
  by apply list_elem_of_fmap_2.
Qed.

(** With distinct names, the map by name finds every component under its
    name. *)
Lemma name_map_NoDup (xs : list component) s :
  NoDup (name <$> xs) → s ∈ xs → Resolver.name_map xs !! name s = Some s.
Proof.
  unfold Resolver.name_map.
  assert (∀ (m : gmap string component),
            NoDup (name <$> xs) →
            (s ∈ xs ∨ (m !! name s = Some s ∧ name s ∉ name <$> xs)) →
            foldl (λ m x, <[name x := x]> m) m xs !! name s = Some s) as Hgen.
  { induction xs as [|x xs IH]; intros m Hnd Hs; cbn [foldl].
    - destruct Hs as [?%elem_of_nil|[? _]]; done.
    - rewrite fmap_cons in Hnd. apply NoDup_cons in Hnd as [Hx Hnd].
      apply IH; [done|].
      destruct Hs as [[->|Hs]%elem_of_cons|[Hm Hs]].
      + right. split; [apply lookup_insert_eq|done].
      + by left.
      + rewrite fmap_cons, not_elem_of_cons in Hs. destruct Hs as [Hne Hs].
        right. split; [|done]. by rewrite lookup_insert_ne.  }
  intros Hnd Hs. apply Hgen; [done|by left].
Qed.

Lemma sublist_flat_map {A B} (f g : A → list B) (l : list A) :
  Forall (λ x, f x `sublist_of` g x) l →
  flat_map f l `sublist_of` flat_map g l.
Proof.
  induction 1 as [|x l Hx _ IH]; [done|]. cbn [flat_map].
  by apply sublist_app.
Qed.

Lemma scan_entry_sublist n :
  ∀ rel, relPath <$> scan_entry rel n `sublist_of` files_entry rel n.
Proof.
  induction n as [c|es IH] using node_ind_entries; intros rel; [done|].
  cbn [scan_entry files_entry]. 
  induction IH as [|[k n] es Hn _ IHes]; [done|].
  cbn [flat_map fst snd]. rewrite fmap_app. apply sublist_app; [|done].
  destruct (String.eqb k "manifest.json"); [apply sublist_nil_l|apply Hn].
Qed.

End DetectFacts.

Module DetectTheorems.
Import Tracker Detector Detect Trees HashFacts DetectFacts.

Section detect.
Variable readJson : string → option json.
Variable readManifest : string → option manifest.

Lemma unique_child dir k n :
  unique_names dir → child dir k = Some n → unique_names n.
Proof.
  intros Huniq Hk. destruct dir as [c|es]; [done|].
  inversion Huniq as [|? _ Hall]; subst. rewrite Forall_forall in Hall.
  apply (Hall (k, n)). by apply oget_Some_elem_of.
Qed.

Lemma unique_entries es : unique_names (Dir es) → NoDup es.*1.
Proof. by inversion 1. Qed.

Lemma detect_json_names dirPath category targetFile entries :
  NoDup entries.*1 →
  NoDup (name <$> omap (detect_json readJson dirPath category targetFile)
                    entries).
Proof.
  intros Hnd. apply NoDup_omap_names; [done|].
  intros [k n] [k' n'] c c'. unfold detect_json. cbn [fst snd].
  destruct n as [content|]; [|done].
  destruct (endsWith k ".json") eqn:Ek; [|done].
  destruct (readJson content); [|done]. intros [= <-].
  destruct n' as [content'|]; [|done].
  destruct (endsWith k' ".json") eqn:Ek'; [|done].
  destruct (readJson content'); [|done]. intros [= <-]. cbn [name].
  intros Hname. rewrite (basename_ext_append _ _ Ek).
  rewrite (basename_ext_append _ _ Ek'). by rewrite Hname.
Qed.

(** X20. In a rules directory none of whose directories lists a name
    twice, detection gives distinct names within the skills, within the
    agents, within the hooks and within the pool of endpoints; so the maps
    by name the resolver builds find every detected skill and agent under
    its own name. *)
Theorem detected_names_are_distinct
    (rulesPath : string) (rules : node) (cs : Hands.components) :
  unique_names rules →
  detectComponents readJson readManifest rulesPath rules = Some cs →
  NoDup (name <$> Hands.c_skills cs)
  ∧ NoDup (name <$> Hands.c_agents cs)
  ∧ NoDup (name <$> Hands.c_hooks cs)
  ∧ (∀ pool, detectDependencyPool readJson rulesPath rules = Some pool →
             NoDup (name <$> pool))
  ∧ (∀ s, s ∈ Hands.c_skills cs →
          Resolver.skillMap (Hands.c_skills cs) !! name s = Some s)
  ∧ (∀ a, a ∈ Hands.c_agents cs →
          Resolver.agentMap (Hands.c_agents cs) !! name a = Some a).
Proof.
  intros Huniq Hdetect.
  assert (NoDup (name <$> Hands.c_skills cs)
          ∧ NoDup (name <$> Hands.c_agents cs)
          ∧ NoDup (name <$> Hands.c_hooks cs)) as (Hs & Ha & Hh).
  { unfold detectComponents in Hdetect.
    destruct (child rules ".claude") as [claude|] eqn:Eclaude.
    2: { injection Hdetect as <-. cbn. split_and!; constructor. }
    apply (unique_child _ _ _ Huniq) in Eclaude as Hclaude.
    destruct (detectSkills _ _ claude) as [skills|] eqn:Eskills; [|done].
    destruct (detectAgents _ claude) as [agents|] eqn:Eagents; [|done].
    destruct (detectHooks _ _ claude) as [hooks|] eqn:Ehooks; [|done].
    injection Hdetect as <-. cbn [Hands.c_skills Hands.c_agents Hands.c_hooks].
    split_and!.
    - unfold detectSkills in Eskills.
      destruct (child claude "skills") as [[c|entries]|] eqn:E;
        [done| |injection Eskills as <-; constructor].
      injection Eskills as <-.
      apply (unique_child _ _ _ Hclaude), unique_entries in E.
      apply NoDup_omap_names; [done|].
      intros [k n] [k' n'] c c'. unfold detect_skill. cbn [fst snd].
      destruct n; [done|]. case_bool_decide; [|done]. intros [= <-].
      destruct n'; [done|]. case_bool_decide; [|done]. by intros [= <-].
    - unfold detectAgents in Eagents.
      destruct (child claude "agents") as [[c|entries]|] eqn:E;
        [done| |injection Eagents as <-; constructor].
      injection Eagents as <-.
      apply (unique_child _ _ _ Hclaude), unique_entries in E.
      apply NoDup_omap_names; [done|].
      intros [k n] [k' n'] c c'. unfold detect_agent. cbn [fst snd].
      destruct n; [|done]. destruct (endsWith k ".md") eqn:Ek; [|done].
      intros [= <-].
      destruct n'; [|done]. destruct (endsWith k' ".md") eqn:Ek'; [|done].
      intros [= <-]. cbn [name]. intros Hname.
      rewrite (basename_ext_append _ _ Ek).
      rewrite (basename_ext_append _ _ Ek'). by rewrite Hname.
    - unfold detectHooks in Ehooks.
      destruct (child claude "hooks") as [[c|entries]|] eqn:E;
        [done| |injection Ehooks as <-; constructor].
      injection Ehooks as <-.
      apply (unique_child _ _ _ Hclaude), unique_entries in E.
      by apply detect_json_names. }
  split_and!; [done..| | |].
  - intros pool. unfold detectDependencyPool.
    destruct (child rules ".claude") as [claude|] eqn:Eclaude;
      cbn [mbind option_bind]; [|intros [= <-]; constructor].
    apply (unique_child _ _ _ Huniq) in Eclaude as Hclaude.
    destruct (child claude "mcp-servers") as [[c|entries]|] eqn:E;
      [done| |intros [= <-]; constructor].
    intros [= <-].
    apply (unique_child _ _ _ Hclaude), unique_entries in E.
    by apply detect_json_names.
  - intros s Hin. by apply name_map_NoDup.
  - intros a Hin. by apply name_map_NoDup.
Qed.

End detect.

Lemma detected_names_are_distinct_witness :
  ∃ cs,
    detectComponents (λ _, Some JNull) (λ _, None) "rules" sample_rules
    = Some cs
    ∧ name <$> Hands.c_skills cs = ["review"]
    ∧ name <$> Hands.c_agents cs = ["critic"]
    ∧ name <$> Hands.c_hooks cs = ["say-done"]
    ∧ (∀ s, s ∈ Hands.c_skills cs →
            Resolver.skillMap (Hands.c_skills cs) !! name s = Some s).
Proof.
  eexists. split; [by vm_compute|].
  split_and!; [by vm_compute..|].
  by destruct (detected_names_are_distinct (λ _, Some JNull) (λ _, None)
                 "rules" sample_rules _
                 ltac:(repeat constructor; set_solver) eq_refl)
    as (_ & _ & _ & _ & Hs & _).
Defined.

(** X21. The files whose content [computeDirectoryHash] hashes are among
    the files [getDirectoryFiles] lists for the same directory, in the
    same order: the hash covers the listing except what is behind the
    reserved manifest name. *)
Theorem hashed_files_are_listed (entries : list (string * node)) :
  ∃ listed,
    getDirectoryFiles (Dir entries) = Some listed
    ∧ relPath <$> scan entries "" `sublist_of` listed
    ∧ (∀ f, f ∈ scan entries "" → relPath f ∈ listed).
Proof.
  eexists. split; [reflexivity|].
  assert (relPath <$> scan entries ""
          `sublist_of` flat_map (λ e : string * node,
                                   files_entry (path_join "" e.1) e.2) entries)
    as Hsub by apply (scan_entry_sublist (Dir entries) "").
  split; [done|]. intros f Hf.
  eapply elem_of_sublist; [|exact Hsub]. by apply list_elem_of_fmap_2.
Qed.

End DetectTheorems.

(** ** The earlier CLI *)

Module RulesSyncTheorems.
Import RulesSync Tree.

Section rules.
Context `{R : Runtime}.

Lemma append_local_differs (p : string) : p ≠ p +:+ ".local".
Proof. apply HandsTheorems.append_local_ne. Qed.

(** X22. [installFile] on a rule whose source is a file, the target and
    its [.local] neighbour being files or missing: it returns true, and
    afterwards the target holds the content of the source, so
    [getFileStatus] is synced. Without [force], a target whose content
    hashes differently is first copied to [target.local], which then
    holds the earlier content; with [force], or when the hashes agree or
    there was no target, the only write is the copy of the source and
    [target.local] is as before. *)
Theorem installFile_syncs (r : rule) (force : bool) (content : string)
    (w : world) :
  files w !! source r = Some (File content) →
  source r ≠ target r →
  source r ≠ target r +:+ ".local" →
  (∀ es, files w !! target r ≠ Some (Dir es)) →
  (∀ es, files w !! (target r +:+ ".local") ≠ Some (Dir es)) →
  ∃ w',
    installFile r force w = (Ok true, w')
    ∧ files w' !! target r = Some (File content)
    ∧ getFileStatus (files w') r = synced
    ∧ (∀ local,
         force = false → files w !! target r = Some (File local) →
         md5 local ≠ md5 content →
         files w' !! (target r +:+ ".local") = Some (File local)
         ∧ log w' = log w ++ [CopyTree (target r) (target r +:+ ".local");
                              CopyTree (source r) (target r)])
    ∧ (force = true ∨ files w !! target r = None
       ∨ (∃ local, files w !! target r = Some (File local)
                   ∧ md5 local = md5 content) →
       files w' !! (target r +:+ ".local")
       = files w !! (target r +:+ ".local")
       ∧ log w' = log w ++ [CopyTree (source r) (target r)]).
Proof.
  intros Hsrc Hst Hsb Htgt Hbak.
  assert (∀ w0,
     files w0 !! source r = Some (File content) →
     (∀ es, files w0 !! target r ≠ Some (Dir es)) →
     Hands.copy (λ _, true) (source r) (StatusResolver.resolve (target r)) w0
     = (Ok tt, logged (CopyTree (source r) (target r))
                 (set_files (<[target r := File content]> (files w0)) w0)))
    as Hcopy.
  { intros w0 Hs Ht. unfold Hands.copy, bind, get, modify.
    cbn [fst snd]. rewrite Hs. cbn [negb]. unfold StatusResolver.resolve.
    destruct (files w0 !! target r) as [[t|es]|] eqn:Et;
      [done|by destruct (Ht es)|done]. }
  assert (∀ fs : store,
            fs !! source r = Some (File content) →
            fs !! target r = Some (File content) →
            getFileStatus fs r = synced) as Hstatus.
  { intros fs Hs Ht. unfold getFileStatus, StatusResolver.resolve, pathExists,
      getFileHash, readFile. rewrite Hs, Ht.
    rewrite bool_decide_true by done. cbn [negb].
    by rewrite bool_decide_true. }
  unfold installFile, Hands.ensureDir. unfold bind at 1, get at 1.
  cbn [fst snd]. unfold pathExists at 1. rewrite Hsrc.
  rewrite bool_decide_true by done. cbn [negb].
  unfold StatusResolver.resolve in *. unfold getFileHash, readFile.
  rewrite Hsrc.
  destruct (files w !! target r) as [[local|es]|] eqn:Et;
    [|by destruct (Htgt es)|].
  - unfold pathExists. rewrite Et. rewrite bool_decide_true by done.
    destruct force; cbn [andb negb].
    + unfold bind, ret. cbn [fst snd]. rewrite Hcopy by (done || by rewrite Et).
      eexists. split; [reflexivity|].
      cbn [files log logged set_files]. split_and!.
      * apply lookup_insert_eq.
      * apply Hstatus; [by rewrite lookup_insert_ne|apply lookup_insert_eq].
      * by intros.
      * intros _. split; [|done].
        apply lookup_insert_ne, append_local_differs.
    + case_bool_decide as Hdiff.
      * unfold bind at 1. unfold Hands.copy at 1, bind, get, modify.
        cbn [fst snd]. rewrite Et. cbn [negb].
        assert (copy_node (λ _, true) (File local)
                  (files w !! (target r +:+ ".local")) = Some (File local))
          as ->.
        { destruct (files w !! (target r +:+ ".local")) as [[b|es]|] eqn:Eb;
            [done|by destruct (Hbak es)|done]. }
        cbn [fst snd]. unfold ret. cbn [fst snd].
        rewrite Hcopy.
        2: { cbn [files logged set_files]. by rewrite lookup_insert_ne. }
        2: { cbn [files logged set_files]. intros es.
             rewrite lookup_insert_ne by apply not_eq_sym, append_local_differs.
             by rewrite Et. }
        eexists. split; [reflexivity|].
        cbn [files log logged set_files]. split_and!.
        -- apply lookup_insert_eq.
        -- apply Hstatus; [|apply lookup_insert_eq].
           by rewrite !lookup_insert_ne.
        -- intros local' _ [= <-] _. split.
           ++ rewrite lookup_insert_ne by apply append_local_differs.
              apply lookup_insert_eq.
           ++ by rewrite <-app_assoc.
        -- intros [?|[?|(local' & [= <-] & Heq)]]; [done..|].
           destruct Hdiff. by rewrite Heq.
      * unfold bind, ret. cbn [fst snd].
        rewrite Hcopy by (done || by rewrite Et).
        eexists. split; [reflexivity|].
        cbn [files log logged set_files]. split_and!.
        -- apply lookup_insert_eq.
        -- apply Hstatus; [by rewrite lookup_insert_ne|apply lookup_insert_eq].
        -- intros local' _ [= <-] Hne. destruct Hne. congruence.
        -- intros _. split; [|done].
           apply lookup_insert_ne, append_local_differs.
  - unfold pathExists. rewrite Et.
    rewrite bool_decide_false by (by intros [? [=]]). cbn [andb].
    unfold bind, ret. cbn [fst snd]. rewrite Hcopy by (done || by rewrite Et).
    eexists. split; [reflexivity|].
    cbn [files log logged set_files]. split_and!.
    + apply lookup_insert_eq.
    + apply Hstatus; [by rewrite lookup_insert_ne|apply lookup_insert_eq].
    + by intros.
    + intros _. split; [|done].
      apply lookup_insert_ne, append_local_differs.
Qed.

End rules.

Lemma installFile_syncs_witness :
  getFileStatus (H:=plain_runtime) (files cursor_world) cursor_rule
  = different
  ∧ ∃ w',
      installFile (H:=plain_runtime) cursor_rule false cursor_world
      = (Ok true, w')
      ∧ getFileStatus (H:=plain_runtime) (files w') cursor_rule = synced
      ∧ files w' !! ".cursor/rules.md.local" = Some (File "my rules").
Proof.
  split; [by vm_compute|].
  destruct (installFile_syncs (R:=plain_runtime) cursor_rule false
              "new rules" cursor_world)
    as (w' & Hrun & _ & Hstatus & Hbackup & _);
    [by vm_compute|done|done|by intros es; vm_compute
    |by intros es; vm_compute|].
  exists w'. split_and!; [done..|].
  by destruct (Hbackup "my rules" eq_refl ltac:(by vm_compute)
                 ltac:(by vm_compute)).
Defined.

End RulesSyncTheorems.
